(** * Stepper16bitsControl: timeline compiler and pulse replay

    A shallow embedding of the MicroPython program
    [software/main_automat.py], [software/stepper/motor.py] and
    [software/sm/state_machine.py], and the properties of its
    instruction parser, pulse-word encoding, timeline compiler and
    replay entry point.

    Modelling conventions.
    - Python [int] values that are counts or indices (steps, speed,
      cursors, pin numbers) are [nat]; the 32-bit words of the
      [array("I")] buffer are [Z] with [Z.shiftl], [Z.lor], [Z.testbit];
      they never reach [2^32] ([compiling_word32]), so the item type of
      the array never truncates them.
    - Python [str] is [string]; the program runs under MicroPython,
      whose [re] works on bytes: [\d] is an ASCII digit and [$] is the
      end of the string.
    - [dict] objects are [gmap]; the [array] is a [list Z] read with
      [!!] and written with [<[ _ := _ ]>] behind an explicit bounds
      check (Python raises [IndexError] out of range).
    - Attributes of the [Automat] object that are created part-way
      through [__init__] are [option] fields, so that [hasattr] is
      [is_Some].
    - Exceptions and [sys.exit] are the error side of a state-and-error
      monad over the object; [print] calls are not modelled. *)

From Stdlib Require Import ZArith Lia Ascii String List.
From stdpp Require Import base option list gmap strings pretty.


(* ------------------------------------------------------------------ *)
(** ** The regular expression of [Seq.parse]                            *)
(* ------------------------------------------------------------------ *)

Module Re.

(** [\d] *)
Definition is_digit (c : ascii) : bool :=
  (48 <=? nat_of_ascii c)%nat && (nat_of_ascii c <=? 57)%nat.

(** [[01]] *)
Definition is_01 (c : ascii) : bool :=
  Ascii.eqb c "0" || Ascii.eqb c "1".

(** A literal piece of the pattern: the rest of the subject after it. *)
Fixpoint lit (p s : string) : option string :=
  match p with
  | EmptyString => Some s
  | String c p' =>
      match s with
      | String c' s' => if Ascii.eqb c c' then lit p' s' else None
      | EmptyString => None
      end
  end.

(** A capturing group around one character of a class: [([01])]. *)
Definition one (cls : ascii -> bool) (s : string) : option (string * string) :=
  match s with
  | String c s' => if cls c then Some (String c EmptyString, s') else None
  | EmptyString => None
  end.

(** Greedy [cls*]: the longest prefix in the class, and the rest. *)
Fixpoint star (cls : ascii -> bool) (s : string) : string * string :=
  match s with
  | String c s' =>
      if cls c then let '(g, r) := star cls s' in (String c g, r)
      else (EmptyString, s)
  | EmptyString => (EmptyString, EmptyString)
  end.

(** A capturing group around greedy [cls+]: [(\d+)].  In the pattern
    below each such group is followed by a literal underscore or by
    the end of the string, neither of which a digit can match, so the
    greedy choice is the only one a backtracking matcher can take. *)
Definition plus (cls : ascii -> bool) (s : string) : option (string * string) :=
  match star cls s with
  | (EmptyString, _) => None
  | (g, r) => Some (g, r)
  end.

(** [$] *)
Definition eol (s : string) : option unit :=
  match s with
  | EmptyString => Some tt
  | String _ _ => None
  end.

(** [re.match(r'^a([01])_s(\d+)_d([01])_v(\d+)$', s)], returning
    [match.groups()]. *)
Definition match_pattern (s : string) : option (string * string * string * string) :=
  s ← lit "a" s;
  '(g0, s) ← one is_01 s;
  s ← lit "_s" s;
  '(g1, s) ← plus is_digit s;
  s ← lit "_d" s;
  '(g2, s) ← one is_01 s;
  s ← lit "_v" s;
  '(g3, s) ← plus is_digit s;
  _ ← eol s;
  Some (g0, g1, g2, g3).

End Re.

(** Python's [int(s)] on a string of decimal digits: the digits are
    accumulated from the left.  It is only ever applied to groups
    captured by [\d+] or [[01]]. *)
Definition digit_of (c : ascii) : nat := nat_of_ascii c - 48.

Fixpoint int_from (acc : nat) (s : string) : nat :=
  match s with
  | EmptyString => acc
  | String c s' => int_from (10 * acc + digit_of c) s'
  end.

Definition int (s : string) : nat := int_from 0 s.

(* ------------------------------------------------------------------ *)
(** ** class Seq                                                        *)
(* ------------------------------------------------------------------ *)

Module Seq.

Record t := Seq { gcode_seq : string }.

(** The dictionary returned by [parse], with its four fixed keys
    ['action'], ['step'], ['dir'] and ['speed']. *)
Record dic := Dic { action : nat; step : nat; dir : nat; speed : nat }.

Definition parse (self : t) : option dic :=
  match Re.match_pattern (gcode_seq self) with
  | Some (g0, g1, g2, g3) =>
      Some {| action := int g0; step := int g1; dir := int g2; speed := int g3 |}
  | None => None
  end.

End Seq.

(* ------------------------------------------------------------------ *)
(** ** class Motor and its drivers                                      *)
(* ------------------------------------------------------------------ *)

Module Motor.

(** The three subclasses; they differ in the class attribute [MODE]. *)
Inductive driver := A4988 | TMC2208 | TMC2209.

(** The keys of the [MODE] dictionary. *)
Inductive mode := key_wake | key_sleep.

Definition MODE (cls : driver) (k : mode) : Z :=
  match cls, k with
  | A4988, key_wake => 0 | A4988, key_sleep => 1
  | TMC2208, key_wake => 0 | TMC2208, key_sleep => 1
  | TMC2209, key_wake => 1 | TMC2209, key_sleep => 0
  end.

Record t := Motor {
  cls : driver;
  _pin_dir : nat;
  _pin_step : nat;
  _pin_sleep : nat   (* the number of the board pin behind the Pin object *)
}.

(** The attribute assignments of [Motor.__init__]. *)
Definition new (c : driver) (id pin_sleep : nat) : t :=
  {| cls := c; _pin_dir := id * 2; _pin_step := id * 2 + 1; _pin_sleep := pin_sleep |}.

Definition pin_dir (self : t) : nat := _pin_dir self.
Definition pin_step (self : t) : nat := _pin_step self.
Definition pin_sleep (self : t) : nat := _pin_sleep self.

(** [Pin.value(v)] on the sleep pin. *)
Definition sleep (self : t) (pins : gmap nat Z) : gmap nat Z :=
  <[pin_sleep self := MODE (cls self) key_sleep]> pins.

Definition wake (self : t) (pins : gmap nat Z) : gmap nat Z :=
  <[pin_sleep self := MODE (cls self) key_wake]> pins.

(** [Motor.__init__]: the sleep pin is driven to the sleep level, then
    [self.sleep()] drives it again; the microstep pins are only
    declared as outputs. *)
Definition __init__ (c : driver) (id pin_sleep : nat) (pins : gmap nat Z)
  : t * gmap nat Z :=
  let self := new c id pin_sleep in
  let pins := <[pin_sleep := MODE c key_sleep]> pins in
  (self, sleep self pins).

Definition convert_step (self : t) (dir action : Z) : Z :=
  let word32b :=
    (Z.shiftl dir (Z.of_nat (pin_dir self))
     + Z.shiftl action (Z.of_nat (pin_step self))
     + Z.shiftl dir (Z.of_nat (16 + pin_dir self)))%Z in
  word32b.

End Motor.

(* ------------------------------------------------------------------ *)
(** ** class SM_16bits                                                  *)
(* ------------------------------------------------------------------ *)

Module SM_16bits.

(** The wrapped [rp2.StateMachine]: whether it is running, and every
    word pushed onto its TX FIFO so far, oldest first.  [put] of the
    library pushes the words of the array in index order and returns
    once all of them are written; the pace at which the PIO program
    drains the FIFO is not modelled. *)
Record t := SM { freq : Z; active : bool; tx : list Z }.

Definition start (self : t) : t :=
  {| freq := freq self; active := true; tx := tx self |}.

Definition stop (self : t) : t :=
  {| freq := freq self; active := false; tx := tx self |}.

Definition __init__ (f : Z) : t :=
  start {| freq := f; active := false; tx := [] |}.

Definition put (self : t) (ar : list Z) : t :=
  {| freq := freq self; active := active self; tx := tx self ++ ar |}.

End SM_16bits.

(* ------------------------------------------------------------------ *)
(** ** Exceptions and the object monad                                  *)
(* ------------------------------------------------------------------ *)

Inductive exn :=
| SystemExit (code : Z)
| KeyError
| IndexError
| AttributeError
| TypeError
| NameError.

Inductive res (A : Type) :=
| Ok (a : A)
| Raise (e : exn).
Arguments Ok {A} a.
Arguments Raise {A} e.

(** [str(i)] for a non-negative integer: its decimal digits. *)
Definition str (i : nat) : string := pretty i.

(** [range(n)] and [range(start, stop, step)] for non-negative
    arguments and a positive step. *)
Definition range (n : nat) : list nat := seq 0 n.

Definition range3 (start stop step : nat) : list nat :=
  (fun j => start + j * step) <$> seq 0 ((stop - start + (step - 1)) / step).

(* ------------------------------------------------------------------ *)
(** ** class Automat                                                    *)
(* ------------------------------------------------------------------ *)

(** What [json.load] finds behind the file name given to [read_gcode]. *)
Inductive gcode_file :=
| Unreadable                       (* [open] raises [OSError] *)
| BadTemplate                      (* one of the four keys is missing *)
| Template (DRIVER MODE : string) (FREQ_SM : Z)
           (GCODE_SEQ : gmap string (list string)).

Module Automat.

(** The attributes of the object, and the levels of the board pins
    that its motors drive.  The four attributes created after the
    first possible call of [exit] are optional. *)
Record t := Automat {
  _driver : string;
  _mode : string;
  _freq_sm : Z;
  _gcode_seq : gmap string (list string);
  _nb_motors : nat;
  _sm : option SM_16bits.t;
  _motors : option (list Motor.t);
  _seq16bits : option (list Z);
  _motors_len_seq : option (gmap nat nat);
  pins : gmap nat Z
}.

(** The object on entry to [__init__]. *)
Definition blank : t :=
  {| _driver := ""; _mode := ""; _freq_sm := 0; _gcode_seq := ∅;
     _nb_motors := 0; _sm := None; _motors := None; _seq16bits := None;
     _motors_len_seq := None; pins := ∅ |}.

Definition set_config (d m : string) (f : Z) (g : gmap string (list string))
  (o : t) : t :=
  {| _driver := d; _mode := m; _freq_sm := f; _gcode_seq := g;
     _nb_motors := _nb_motors o; _sm := _sm o; _motors := _motors o;
     _seq16bits := _seq16bits o; _motors_len_seq := _motors_len_seq o;
     pins := pins o |}.

Definition set_nb_motors (n : nat) (o : t) : t :=
  {| _driver := _driver o; _mode := _mode o; _freq_sm := _freq_sm o;
     _gcode_seq := _gcode_seq o;
     _nb_motors := n; _sm := _sm o; _motors := _motors o;
     _seq16bits := _seq16bits o; _motors_len_seq := _motors_len_seq o;
     pins := pins o |}.

Definition set_sm (s : SM_16bits.t) (o : t) : t :=
  {| _driver := _driver o; _mode := _mode o; _freq_sm := _freq_sm o;
     _gcode_seq := _gcode_seq o;
     _nb_motors := _nb_motors o; _sm := Some s; _motors := _motors o;
     _seq16bits := _seq16bits o; _motors_len_seq := _motors_len_seq o;
     pins := pins o |}.

Definition set_motors (ms : list Motor.t) (o : t) : t :=
  {| _driver := _driver o; _mode := _mode o; _freq_sm := _freq_sm o;
     _gcode_seq := _gcode_seq o;
     _nb_motors := _nb_motors o; _sm := _sm o; _motors := Some ms;
     _seq16bits := _seq16bits o; _motors_len_seq := _motors_len_seq o;
     pins := pins o |}.

Definition set_seq16bits (b : list Z) (o : t) : t :=
  {| _driver := _driver o; _mode := _mode o; _freq_sm := _freq_sm o;
     _gcode_seq := _gcode_seq o;
     _nb_motors := _nb_motors o; _sm := _sm o; _motors := _motors o;
     _seq16bits := Some b; _motors_len_seq := _motors_len_seq o;
     pins := pins o |}.

Definition set_motors_len_seq (c : gmap nat nat) (o : t) : t :=
  {| _driver := _driver o; _mode := _mode o; _freq_sm := _freq_sm o;
     _gcode_seq := _gcode_seq o;
     _nb_motors := _nb_motors o; _sm := _sm o; _motors := _motors o;
     _seq16bits := _seq16bits o; _motors_len_seq := Some c;
     pins := pins o |}.

Definition set_pins (p : gmap nat Z) (o : t) : t :=
  {| _driver := _driver o; _mode := _mode o; _freq_sm := _freq_sm o;
     _gcode_seq := _gcode_seq o;
     _nb_motors := _nb_motors o; _sm := _sm o; _motors := _motors o;
     _seq16bits := _seq16bits o; _motors_len_seq := _motors_len_seq o;
     pins := p |}.

(** *** The monad of methods *)

Definition M (A : Type) : Type := t -> res A * t.

Definition ret {A} (a : A) : M A := fun o => (Ok a, o).

Definition bind {A B} (m : M A) (k : A -> M B) : M B :=
  fun o =>
    match m o with
    | (Ok a, o') => k a o'
    | (Raise e, o') => (Raise e, o')
    end.

Definition raise {A} (e : exn) : M A := fun o => (Raise e, o).

Definition modify (f : t -> t) : M unit := fun o => (Ok tt, f o).

(** Reading an attribute that always exists. *)
Definition self_ {A} (f : t -> A) : M A := fun o => (Ok (f o), o).

(** Reading an attribute that may not exist yet. *)
Definition attr {A} (f : t -> option A) : M A :=
  fun o =>
    match f o with
    | Some a => (Ok a, o)
    | None => (Raise AttributeError, o)
    end.

Definition hasattr {A} (f : t -> option A) : M bool :=
  fun o => (Ok (if f o is Some _ then true else false), o).

Declare Scope py_scope.
Delimit Scope py_scope with py.
Notation "x <- m ;; k" := (bind m (fun x => k))
  (at level 100, m at next level, right associativity) : py_scope.
Notation "m ;; k" := (bind m (fun _ => k))
  (at level 100, right associativity) : py_scope.
Local Open Scope py_scope.

(** [for x in l: body] *)
Fixpoint for_ {A} (l : list A) (body : A -> M unit) : M unit :=
  match l with
  | [] => ret tt
  | x :: l' => body x ;; for_ l' body
  end.

(** [[f(i) for i in l]] *)
Fixpoint comprehension {A B} (l : list A) (f : A -> M B) : M (list B) :=
  match l with
  | [] => ret []
  | x :: l' => y <- f x ;; ys <- comprehension l' f ;; ret (y :: ys)
  end.

(** *** Subscripts *)

(** [self._motors[i]] *)
Definition motor (i : nat) : M Motor.t :=
  ms <- attr _motors ;;
  match ms !! i with
  | Some m => ret m
  | None => raise IndexError
  end.

(** [self._motors_len_seq[id_motor]] *)
Definition motors_len_seq (id_motor : nat) : M nat :=
  d <- attr _motors_len_seq ;;
  match d !! id_motor with
  | Some c => ret c
  | None => raise KeyError
  end.

(** [self._seq16bits.append(v)] *)
Definition append (v : Z) : M unit :=
  b <- attr _seq16bits ;;
  modify (set_seq16bits (b ++ [v])).

(** [self._seq16bits[i] |= v] *)
Definition ior_item (i : nat) (v : M Z) : M unit :=
  b <- attr _seq16bits ;;
  match b !! i with
  | Some w =>
      x <- v ;;
      modify (set_seq16bits (<[i := Z.lor w x]> b))
  | None => raise IndexError
  end.

(** *** Methods *)

Definition wake_motors : M unit :=
  n <- self_ _nb_motors ;;
  for_ (range n) (fun i =>
    m <- motor i ;;
    modify (fun o => set_pins (Motor.wake m (pins o)) o)).

Definition sleep_motors : M unit :=
  n <- self_ _nb_motors ;;
  for_ (range n) (fun i =>
    m <- motor i ;;
    modify (fun o => set_pins (Motor.sleep m (pins o)) o)).

Definition exit : M unit :=
  has_sm <- hasattr _sm ;;
  (if has_sm : bool
   then s <- attr _sm ;; modify (set_sm (SM_16bits.stop s))
   else ret tt) ;;
  has_motors <- hasattr _motors ;;
  (if has_motors : bool then sleep_motors else ret tt) ;;
  raise (SystemExit 1).

(** In both handlers [exit] raises; the [return] after them, which
    would find its names unbound, is never reached. *)
Definition read_gcode (gcode_file : gcode_file)
  : M (string * string * Z * gmap string (list string)) :=
  match gcode_file with
  | Unreadable => exit ;; raise NameError
  | BadTemplate => exit ;; raise NameError
  | Template driver mode freq_sm gcode_seq =>
      ret (driver, mode, freq_sm, gcode_seq)
  end.

Definition add_seq (id_motor : nat) (seq : Seq.t) : M unit :=
  let dic_seq := Seq.parse seq in
  (if dic_seq is None then exit else ret tt) ;;
  d <- (if dic_seq is Some d then ret d else raise TypeError) ;;
  let '(action, steps, dir, speed) :=
    (Seq.action d, Seq.step d, Seq.dir d, Seq.speed d) in
  let steps := steps * (1 + speed) in
  (* extend sequence if need be *)
  c <- motors_len_seq id_motor ;;
  b <- attr _seq16bits ;;
  (if length b <? steps + c
   then for_ (range steps) (fun i => append 0)
   else ret tt) ;;
  (* initialize direction & stop on all steps *)
  for_ (range steps) (fun i =>
    c <- motors_len_seq id_motor ;;
    ior_item (c + i)
      (m <- motor id_motor ;;
       ret (Motor.convert_step m (Z.of_nat dir) 0))) ;;
  (* set direction and action every "1+speed" steps *)
  for_ (range3 0 steps (1 + speed)) (fun i =>
    c <- motors_len_seq id_motor ;;
    ior_item (c + i)
      (m <- motor id_motor ;;
       ret (Motor.convert_step m (Z.of_nat dir) (Z.of_nat action)))) ;;
  (* extend _motors_len_seq of Motor id-motor *)
  c <- motors_len_seq id_motor ;;
  d <- attr _motors_len_seq ;;
  modify (set_motors_len_seq (<[id_motor := c + steps]> d)).

(** [self._sm.put(self._seq16bits)] *)
Definition sm_put : M unit :=
  s <- attr _sm ;;
  ar <- attr _seq16bits ;;
  modify (set_sm (SM_16bits.put s ar)).

Definition animate : M unit :=
  wake_motors ;;
  sm_put.

(** The loop runs until a [KeyboardInterrupt] arrives from outside;
    [interrupt] is the number of [put] calls completed by then. *)
Definition animate_infinite_loop (interrupt : nat) : M unit :=
  wake_motors ;;
  for_ (range interrupt) (fun _ => sm_put) ;;
  exit.

(** [[cls(id=i, pin_sleep=18, sm=self._sm) for i in range(self._nb_motors)]] *)
Definition new_motors (c : Motor.driver) : M (list Motor.t) :=
  n <- self_ _nb_motors ;;
  comprehension (range n) (fun i => fun o =>
    let '(m, p) := Motor.__init__ c i 18 (pins o) in
    (Ok m, set_pins p o)).

(** [__init__] up to the creation of the empty buffer and of the
    cursors. *)
Definition configure (gcode_file : gcode_file) : M unit :=
  cfg <- read_gcode gcode_file ;;
  let '(driver, mode, freq_sm, gcode_seq) := cfg in
  modify (set_config driver mode freq_sm gcode_seq) ;;
  g <- self_ _gcode_seq ;;
  modify (set_nb_motors
            (length (filter (fun gcode => 0 < length gcode)
                            ((map_to_list g).*2)))) ;;
  n <- self_ _nb_motors ;;
  (if 8 <? n then exit else ret tt) ;;
  (* start the state machine *)
  f <- self_ _freq_sm ;;
  modify (set_sm (SM_16bits.__init__ f)) ;;
  (* motor configuration *)
  d <- self_ _driver ;;
  (if bool_decide (d = "A4988")
   then ms <- new_motors Motor.A4988 ;; modify (set_motors ms)
   else if bool_decide (d = "TMC2208")
   then ms <- new_motors Motor.TMC2208 ;; modify (set_motors ms)
   else if bool_decide (d = "TMC2209")
   then ms <- new_motors Motor.TMC2209 ;; modify (set_motors ms)
   else exit) ;;
  modify (set_seq16bits []) ;;
  modify (set_motors_len_seq
            (list_to_map [(0,0); (1,0); (2,0); (3,0); (4,0); (5,0); (6,0); (7,0)])).

(** The loop that sets up the sequence to run. *)
Definition compile : M unit :=
  n <- self_ _nb_motors ;;
  for_ (range n) (fun i =>
    g <- self_ _gcode_seq ;;
    match g !! str i with
    | Some gcodes => for_ gcodes (fun gcode => add_seq i (Seq.Seq gcode))
    | None => raise KeyError
    end).

(** The dispatch on the replay mode. *)
Definition run (interrupt : nat) : M unit :=
  mode <- self_ _mode ;;
  if bool_decide (mode = "LOOP") then animate_infinite_loop interrupt
  else if bool_decide (mode = "ONE") then animate
  else exit.

(** [Automat.__init__], in its three phases. *)
Definition __init__ (gcode_file : gcode_file) (interrupt : nat) : M unit :=
  configure gcode_file ;;
  compile ;;
  run interrupt.

End Automat.

(* ------------------------------------------------------------------ *)
(** ** The instruction grammar, as the specification words it           *)
(* ------------------------------------------------------------------ *)

(** A non-empty string of ASCII digits. *)
Fixpoint all_digits (s : string) : Prop :=
  match s with
  | EmptyString => True
  | String c s' => Re.is_digit c = true ∧ all_digits s'
  end.

Definition digits (s : string) : Prop := s ≠ "" ∧ all_digits s.

Definition bit (b : bool) : string := if b then "1" else "0".

(** [a<0|1>_s<digits>_d<0|1>_v<digits>] *)
Definition instruction (a : bool) (s : string) (d : bool) (v : string) : string :=
  "a" +:+ bit a +:+ "_s" +:+ s +:+ "_d" +:+ bit d +:+ "_v" +:+ v.

Definition in_grammar (text : string) : Prop :=
  ∃ a s d v, digits s ∧ digits v ∧ text = instruction a s d v.

(** The decimal value of a digit string: each digit weighted by the
    power of ten of its position. *)
Fixpoint decimal (s : string) : nat :=
  match s with
  | EmptyString => 0
  | String c s' => digit_of c * 10 ^ String.length s' + decimal s'
  end.

(** What stops a greedy run of digits: the end of the string or a
    character that is not a digit. *)
Definition no_digit_ahead (r : string) : Prop :=
  match r with
  | EmptyString => True
  | String c _ => Re.is_digit c = false
  end.

(* ------------------------------------------------------------------ *)
(** ** Vocabulary of the timeline properties                            *)
(* ------------------------------------------------------------------ *)

(** The Timeline, a channel's write cursor, and the words enqueued so
    far, read off the object. *)
Definition timeline (o : Automat.t) : list Z :=
  default [] (Automat._seq16bits o).

Definition cursor (o : Automat.t) (id : nat) : nat :=
  default 0 (Automat._motors_len_seq o ≫= (.!! id)).

Definition enqueued (o : Automat.t) : list Z :=
  default [] (SM_16bits.tx <$> Automat._sm o).

(** The number of motors [__init__] finds in the [GCODE_SEQ] dictionary:
    its non-empty sequences. *)
Definition motors_found (g : gmap string (list string)) : nat :=
  length (filter (fun gcode => 0 < length gcode) ((map_to_list g).*2)).

(** The four bits of channel [id] in a pulse word: direction and step
    in phase A, then direction and step in phase B. *)
Definition channel_bits (id : nat) (w : Z) : bool * bool * bool * bool :=
  (Z.testbit w (Z.of_nat (2 * id)),
   Z.testbit w (Z.of_nat (2 * id + 1)),
   Z.testbit w (Z.of_nat (16 + 2 * id)),
   Z.testbit w (Z.of_nat (16 + 2 * id + 1))).

(** A word that fits the item type of [array("I")]. *)
Definition word32 (w : Z) : Prop := (0 ≤ w < 2 ^ 32)%Z.

(** Bitwise or on the four bits of a channel. *)
Definition or_bits (p q : bool * bool * bool * bool) : bool * bool * bool * bool :=
  let '(a, b, c, d) := p in
  let '(a', b', c', d') := q in
  (a || a', b || b', c || c', d || d').

(** The bits of channel [k] in slot [t] of the Timeline; a slot beyond
    its end carries nothing. *)
Definition slot_bits (o : Automat.t) (k t : nat) : bool * bool * bool * bool :=
  channel_bits k (default 0%Z (timeline o !! t)).

(** *** The states of the compile loop *)

(** The states the object goes through while [__init__] sets up the
    sequence to run: the state left by [configure], and the state after
    any successful [add_seq] for one of the configured motors. *)
Inductive compiling : Automat.t -> Prop :=
| compiling_configure (f : gcode_file) (o : Automat.t) :
    Automat.configure f Automat.blank = (Ok tt, o) ->
    compiling o
| compiling_add_seq (o o' : Automat.t) (id : nat) (seq : Seq.t) :
    compiling o ->
    id < Automat._nb_motors o ->
    Automat.add_seq id seq o = (Ok tt, o') ->
    compiling o'.

(** The attributes [add_seq] and [animate] rely on are in place: one
    motor object per configured motor, numbered from 0, at most eight of
    them; the state machine; the buffer; a cursor for each of the eight
    channels. *)
Definition ready (o : Automat.t) : Prop :=
  (∃ c, Automat._motors o
        = Some ((fun i => Motor.new c i 18) <$> range (Automat._nb_motors o)))
  ∧ Automat._nb_motors o ≤ 8
  ∧ is_Some (Automat._sm o)
  ∧ is_Some (Automat._seq16bits o)
  ∧ ∃ d, Automat._motors_len_seq o = Some d ∧ ∀ i, i < 8 -> is_Some (d !! i).

(** No write cursor is beyond the end of the Timeline. *)
Definition cursor_inv (o : Automat.t) : Prop :=
  ∀ id, cursor o id ≤ length (timeline o).

(** From its cursor on, a channel has not written anything yet. *)
Definition fresh_inv (o : Automat.t) : Prop :=
  ∀ id t w, id < 8 -> cursor o id ≤ t -> timeline o !! t = Some w ->
            channel_bits id w = (false, false, false, false).

(** The state [configure] leaves when it returns. *)
Definition configured (g : gmap string (list string)) (mode : string)
    (o : Automat.t) : Prop :=
  ready o ∧ timeline o = [] ∧ (∀ id, cursor o id = 0) ∧ enqueued o = []
  ∧ Automat._gcode_seq o = g ∧ Automat._mode o = mode.

(** *** What [add_seq] writes *)

(** [b[i] |= w] for every index [i] of a list. *)
Definition ior_all (w : Z) (idxs : list nat) (b : list Z) : list Z :=
  foldl (fun b i => alter (fun x => Z.lor x w) i b) b idxs.

(** The buffer [add_seq] leaves behind for motor [m] with cursor [c]:
    the growth step, then the two marking loops. *)
Definition merged (m : Motor.t) (d : Seq.dic) (c : nat) (b : list Z) : list Z :=
  let steps := Seq.step d * (1 + Seq.speed d) in
  let b1 := if length b <? steps + c then b ++ replicate steps 0%Z else b in
  let b2 := ior_all (Motor.convert_step m (Z.of_nat (Seq.dir d)) 0)
                    ((fun i => c + i) <$> range steps) b1 in
  ior_all (Motor.convert_step m (Z.of_nat (Seq.dir d)) (Z.of_nat (Seq.action d)))
          ((fun i => c + i) <$> range3 0 steps (1 + Seq.speed d)) b2.

(** The slots of a request at cursor [c] in which the step is pulsed:
    every [1+speed]-th one, from the cursor on. *)
Definition pulse_slot (d : Seq.dic) (c t : nat) : Prop :=
  c ≤ t < c + Seq.step d * (1 + Seq.speed d)
  ∧ (t - c) `mod` (1 + Seq.speed d) = 0.

(** The word [add_seq] leaves in slot [t], from the word [x] it found
    there (zero for a slot it appended). *)
Definition merged_word (m : Motor.t) (d : Seq.dic) (c t : nat) (x : Z) : Z :=
  let x1 :=
    if bool_decide (c ≤ t < c + Seq.step d * (1 + Seq.speed d))
    then Z.lor x (Motor.convert_step m (Z.of_nat (Seq.dir d)) 0)
    else x in
  if bool_decide (pulse_slot d c t)
  then Z.lor x1 (Motor.convert_step m (Z.of_nat (Seq.dir d))
                   (Z.of_nat (Seq.action d)))
  else x1.

(** The bits a request at cursor [c] gives its channel in slot [t]. *)
Definition request_bits (d : Seq.dic) (c t : nat) : bool * bool * bool * bool :=
  (bool_decide (Seq.dir d = 1),
   bool_decide (pulse_slot d c t) && bool_decide (Seq.action d = 1),
   bool_decide (Seq.dir d = 1),
   false).

(** *** Relations between two states *)

(** Between [o] and [o'], no slot of the Timeline was lost and no bit of
    a channel other than [id] was altered in a slot that existed. *)
Definition others_kept (id : nat) (o o' : Automat.t) : Prop :=
  ∀ t w, timeline o !! t = Some w ->
    ∃ w', timeline o' !! t = Some w'
          ∧ ∀ j, j < 8 -> j ≠ id -> channel_bits j w' = channel_bits j w.

(** Two states agree on channel [k]: same cursor, same bits in every
    slot. *)
Definition same_channel (k : nat) (o o' : Automat.t) : Prop :=
  cursor o k = cursor o' k ∧ ∀ t, slot_bits o k t = slot_bits o' k t.

(* ------------------------------------------------------------------ *)
(** ** Sample plans                                                     *)
(* ------------------------------------------------------------------ *)

(** Two channels, [a1_s10_d1_v0] and [a1_s5_d0_v1], and the state
    [configure] leaves for them. *)
Definition example_plan : gcode_file :=
  Template "A4988" "ONE" 400000
    (list_to_map [("0", ["a1_s10_d1_v0"]); ("1", ["a1_s5_d0_v1"])]).

Definition example_configured : Automat.t :=
  (Automat.configure example_plan Automat.blank).2.

(** A plan for nine motors. *)
Definition nine_motors : gmap string (list string) :=
  list_to_map
    [("0", ["a1_s1_d1_v0"]); ("1", ["a1_s1_d1_v0"]); ("2", ["a1_s1_d1_v0"]);
     ("3", ["a1_s1_d1_v0"]); ("4", ["a1_s1_d1_v0"]); ("5", ["a1_s1_d1_v0"]);
     ("6", ["a1_s1_d1_v0"]); ("7", ["a1_s1_d1_v0"]); ("8", ["a1_s1_d1_v0"])].

(** A plan whose second channel is longer than its first, and the same
    two sequences in the other order. *)
Definition longer_second_plan : gcode_file :=
  Template "A4988" "ONE" 400000
    (list_to_map [("0", ["a1_s4_d1_v0"]); ("1", ["a1_s6_d1_v0"])]).

Definition longer_first_plan : gcode_file :=
  Template "A4988" "ONE" 400000
    (list_to_map [("0", ["a1_s6_d1_v0"]); ("1", ["a1_s4_d1_v0"])]).


(* ------------------------------------------------------------------ *)
(** ** Microstepping                                                    *)
(* ------------------------------------------------------------------ *)

Module Microstep.

Import Automat.
Local Open Scope py_scope.

(** The class attribute [MICROSTEPS], a dictionary whose values are an
    integer or [None].  [TMC2209] does not override the one of [Motor]. *)
Definition MICROSTEPS (cls : Motor.driver) : gmap string (option Z) :=
  match cls with
  | Motor.A4988 | Motor.TMC2209 =>
      list_to_map [("full", Some 0%Z); ("1/2", Some 4%Z); ("1/4", Some 2%Z);
                   ("1/8", Some 6%Z); ("1/16", Some 7%Z); ("1/32", None)]
  | Motor.TMC2208 =>
      list_to_map [("full", None); ("1/2", Some 4%Z); ("1/4", Some 2%Z);
                   ("1/8", Some 0%Z); ("1/16", Some 6%Z); ("1/32", None)]
  end.

(** The board pins behind [_pin_MS1], [_pin_MS2] and [_pin_MS3], the
    same for every motor. *)
Definition pin_MS1 : nat := 19.
Definition pin_MS2 : nat := 20.
Definition pin_MS3 : nat := 21.

(** [Pin.value(x)] drives the pin high when [x] is true as a boolean. *)
Definition level (x : Z) : Z := if (x =? 0)%Z then 0%Z else 1%Z.

(** [Motor.set_microstep]: [ms & 0b100] on [None] raises [TypeError]
    before any pin is written. *)
Definition motor_set_microstep (self : Motor.t) (ms : option Z) : M unit :=
  match ms with
  | None => raise TypeError
  | Some ms =>
      modify (fun o => set_pins (<[pin_MS1 := level (Z.land ms 4)]> (pins o)) o) ;;
      modify (fun o => set_pins (<[pin_MS2 := level (Z.land ms 2)]> (pins o)) o) ;;
      modify (fun o => set_pins (<[pin_MS3 := level (Z.land ms 1)]> (pins o)) o)
  end.

(** [Automat.set_microstep] *)
Definition set_microstep (ms_str : string) : M unit :=
  m0 <- motor 0 ;;
  ms <- (match MICROSTEPS (Motor.cls m0) !! ms_str with
         | Some ms => ret ms
         | None => raise KeyError
         end) ;;
  n <- self_ _nb_motors ;;
  for_ (range n) (fun i =>
    m <- motor i ;;
    motor_set_microstep m ms).

End Microstep.

(* ------------------------------------------------------------------ *)
(** ** Vocabulary of the further properties                             *)
(* ------------------------------------------------------------------ *)

(** The motor objects of the [Automat]. *)
Definition motors (o : Automat.t) : list Motor.t :=
  default [] (Automat._motors o).

(** Every motor's sleep pin is at the sleep, respectively wake, level
    of its driver. *)
Definition asleep (o : Automat.t) : Prop :=
  ∀ m, m ∈ motors o ->
    Automat.pins o !! Motor.pin_sleep m
    = Some (Motor.MODE (Motor.cls m) Motor.key_sleep).

Definition awake (o : Automat.t) : Prop :=
  ∀ m, m ∈ motors o ->
    Automat.pins o !! Motor.pin_sleep m
    = Some (Motor.MODE (Motor.cls m) Motor.key_wake).

(** Whether the state machine runs, when there is one. *)
Definition sm_active (o : Automat.t) : option bool :=
  SM_16bits.active <$> Automat._sm o.

(** The driver names [__init__] accepts, with their classes. *)
Definition driver_class (d : string) : option Motor.driver :=
  if decide (d = "A4988") then Some Motor.A4988
  else if decide (d = "TMC2208") then Some Motor.TMC2208
  else if decide (d = "TMC2209") then Some Motor.TMC2209
  else None.

(** Every motor that [__init__] looks for has its sequence in the plan,
    and every instruction of it follows the grammar. *)
Definition plan_ok (g : gmap string (list string)) : Prop :=
  ∀ i, i < motors_found g ->
    ∃ gcodes, g !! str i = Some gcodes ∧ Forall in_grammar gcodes.

(** The sum of the eight write cursors. *)
Definition total_cursors (o : Automat.t) : nat :=
  sum_list (cursor o <$> range 8).

(** In a pulse word, phase B repeats the direction lines of phase A and
    has every step line low. *)
Definition releases (w : Z) : Prop :=
  ∀ j, j < 8 ->
    Z.testbit w (Z.of_nat (16 + 2 * j)) = Z.testbit w (Z.of_nat (2 * j))
    ∧ Z.testbit w (Z.of_nat (16 + 2 * j + 1)) = false.

(** A text for a request, its four fields written with [str]; the
    program has no such function, it is the inverse that [Seq.parse] is
    compared with. *)
Definition unparse (d : Seq.dic) : string :=
  "a" +:+ str (Seq.action d) +:+ "_s" +:+ str (Seq.step d)
  +:+ "_d" +:+ str (Seq.dir d) +:+ "_v" +:+ str (Seq.speed d).

(** Between [o] and [o'] nothing happened to the pins, the state
    machine or the motor objects. *)
Definition hardware_kept (o o' : Automat.t) : Prop :=
  Automat.pins o' = Automat.pins o
  ∧ Automat._sm o' = Automat._sm o
  ∧ Automat._motors o' = Automat._motors o.

(** The plans [configure] refuses. *)
Definition config_error (f : gcode_file) : Prop :=
  match f with
  | Unreadable | BadTemplate => True
  | Template d _ _ g => 8 < motors_found g ∨ driver_class d = None
  end.

(** The invariant of both loops of [compile], and what holds when they
    end by an exception. *)
Definition compile_inv (o0 o : Automat.t) : Prop :=
  compiling o ∧ hardware_kept o0 o
  ∧ Automat._nb_motors o = Automat._nb_motors o0
  ∧ Automat._gcode_seq o = Automat._gcode_seq o0
  ∧ Automat._mode o = Automat._mode o0.

Definition compile_exn (o0 : Automat.t) (e : exn) (o' : Automat.t) : Prop :=
  enqueued o' = []
  ∧ ((e = SystemExit 1 ∧ sm_active o' = Some false ∧ asleep o')
     ∨ (e = KeyError ∧ hardware_kept o0 o')).

(** Sample sequences: a complete plan for two motors, one with a hole
    at key ["1"], and one whose second motor has a malformed
    instruction. *)
Definition example_sequences : gmap string (list string) :=
  list_to_map [("0", ["a1_s10_d1_v0"]); ("1", ["a1_s5_d0_v1"])].

Definition missing_key_sequences : gmap string (list string) :=
  list_to_map [("0", ["a1_s10_d1_v0"]); ("2", ["a1_s5_d0_v1"])].

Definition malformed_sequences : gmap string (list string) :=
  list_to_map [("0", ["a1_s10_d1_v0"]); ("1", ["a1_s5_d2_v1"])].

(* ================================================================== *)
(** * Properties                                                        *)
(* ================================================================== *)

(** ** The program on its own examples *)

(** The two strings of [Seq.test]. *)
Example parse_fake : Seq.parse (Seq.Seq "fake") = None.
Proof. reflexivity. Qed.

Example parse_a1_s400_d1_v2 :
  Seq.parse (Seq.Seq "a1_s400_d1_v2")
  = Some {| Seq.action := 1; Seq.step := 400; Seq.dir := 1; Seq.speed := 2 |}.
Proof. by vm_compute. Qed.

Example range3_stride : range3 0 7 3 = [0; 3; 6] ∧ range3 0 6 3 = [0; 3].
Proof. by vm_compute. Qed.

Example str_digits : str 0 = "0" ∧ str 7 = "7" ∧ str 12 = "12".
Proof. by vm_compute. Qed.

(** Motor 0 forward and stepping at full speed, motor 1 backward and
    stepping every other slot: the words [__init__] compiles and
    enqueues. *)
Example example_plan_timeline :
  let r := Automat.__init__ example_plan 0 Automat.blank in
  r.1 = Ok tt
  ∧ timeline r.2
    = [65547; 65539; 65547; 65539; 65547; 65539; 65547; 65539; 65547; 65539]%Z
  ∧ enqueued r.2 = timeline r.2.
Proof. by vm_compute. Qed.

(** ** The parser *)

Section Parser.

Lemma lit_app (p s : string) : Re.lit p (p +:+ s) = Some s.
Proof.
  induction p as [|c p IH]; simpl; [done|].
  by rewrite Ascii.eqb_refl.
Qed.

Lemma lit_Some (p s r : string) : Re.lit p s = Some r → s = p +:+ r.
Proof.
  revert s. induction p as [|c p IH]; intros s; simpl.
  - by intros [= ->].
  - destruct s as [|c' s]; [done|].
    destruct (Ascii.eqb_spec c c') as [<-|]; [|done].
    intros H. by rewrite (IH _ H).
Qed.

Lemma one_bit (b : bool) (s : string) :
  Re.one Re.is_01 (bit b +:+ s) = Some (bit b, s).
Proof. by destruct b. Qed.

Lemma one_01_Some (s g r : string) :
  Re.one Re.is_01 s = Some (g, r) → ∃ b, g = bit b ∧ s = bit b +:+ r.
Proof.
  destruct s as [|c s]; simpl; [done|].
  unfold Re.is_01.
  destruct (Ascii.eqb_spec c "0") as [->|]; simpl.
  { intros [= <- <-]. by exists false. }
  destruct (Ascii.eqb_spec c "1") as [->|]; simpl; [|done].
  intros [= <- <-]. by exists true.
Qed.

Lemma star_app (g r : string) :
  all_digits g → no_digit_ahead r → Re.star Re.is_digit (g +:+ r) = (g, r).
Proof.
  induction g as [|c g IH]; simpl.
  - intros _. destruct r as [|c r]; simpl; [done|]. by intros ->.
  - intros [-> Hg] Hr. by rewrite IH.
Qed.

Lemma star_inv (s g r : string) :
  Re.star Re.is_digit s = (g, r) →
  s = g +:+ r ∧ all_digits g ∧ no_digit_ahead r.
Proof.
  revert g. induction s as [|c s IH]; intros g; simpl.
  - by intros [= <- <-].
  - destruct (Re.is_digit c) eqn:Hc.
    + destruct (Re.star Re.is_digit s) as [g' r'] eqn:Hs.
      intros [= <- <-]. destruct (IH _ eq_refl) as (-> & ? & ?). done.
    + by intros [= <- <-].
Qed.

Lemma plus_app (g r : string) :
  digits g → no_digit_ahead r → Re.plus Re.is_digit (g +:+ r) = Some (g, r).
Proof.
  intros [Hne Hg] Hr. unfold Re.plus. rewrite star_app by done.
  by destruct g.
Qed.

Lemma plus_Some (s g r : string) :
  Re.plus Re.is_digit s = Some (g, r) →
  s = g +:+ r ∧ digits g ∧ no_digit_ahead r.
Proof.
  unfold Re.plus. destruct (Re.star Re.is_digit s) as [g' r'] eqn:Hs.
  destruct (star_inv _ _ _ Hs) as (-> & Hg & Hr).
  destruct g' as [|c g']; [done|]. intros [= <- <-].
  split; [done|]. split; [|exact Hr]. split; [done|exact Hg].
Qed.

Lemma int_from_decimal (s : string) (acc : nat) :
  int_from acc s = acc * 10 ^ String.length s + decimal s.
Proof.
  revert acc. induction s as [|c s IH]; intros acc; simpl.
  - lia.
  - rewrite IH. lia.
Qed.

Lemma int_decimal (s : string) : int s = decimal s.
Proof. unfold int. by rewrite int_from_decimal. Qed.

Lemma int_bit (b : bool) : int (bit b) = Nat.b2n b.
Proof. by destruct b. Qed.

Lemma append_cons (c : ascii) (s r : string) :
  String c s +:+ r = String c (s +:+ r).
Proof. reflexivity. Qed.

Lemma append_empty_r (s : string) : s +:+ "" = s.
Proof. induction s as [|c s IH]; [done|]. rewrite append_cons. by f_equal. Qed.

Lemma match_pattern_instruction (a d : bool) (s v : string) :
  digits s → digits v →
  Re.match_pattern (instruction a s d v) = Some (bit a, s, bit d, v).
Proof.
  intros Hs Hv. unfold Re.match_pattern, instruction.
  assert (v = v +:+ "") as Hv0 by (symmetry; apply append_empty_r).
  rewrite Hv0 at 1.
  repeat first
    [ rewrite lit_app | rewrite one_bit | rewrite plus_app by done
    | progress cbn [mbind option_bind Re.eol] ].
  done.
Qed.

End Parser.

Lemma eol_Some (s : string) : Re.eol s = Some tt → s = "".
Proof. by destruct s. Qed.

Lemma match_pattern_Some (text g0 g1 g2 g3 : string) :
  Re.match_pattern text = Some (g0, g1, g2, g3) →
  ∃ a d, g0 = bit a ∧ g2 = bit d ∧ digits g1 ∧ digits g3
         ∧ text = instruction a g1 d g3.
Proof.
  unfold Re.match_pattern. intros H.
  destruct (Re.lit "a" text) as [s1|] eqn:E1; [|done].
  apply lit_Some in E1 as ->. cbn [mbind option_bind] in H.
  destruct (Re.one Re.is_01 s1) as [[h0 s2]|] eqn:E2; [|done].
  apply one_01_Some in E2 as (a & -> & ->). cbn [mbind option_bind] in H.
  destruct (Re.lit "_s" s2) as [s3|] eqn:E3; [|done].
  apply lit_Some in E3 as ->. cbn [mbind option_bind] in H.
  destruct (Re.plus Re.is_digit s3) as [[h1 s4]|] eqn:E4; [|done].
  apply plus_Some in E4 as (-> & Hg1 & _). cbn [mbind option_bind] in H.
  destruct (Re.lit "_d" s4) as [s5|] eqn:E5; [|done].
  apply lit_Some in E5 as ->. cbn [mbind option_bind] in H.
  destruct (Re.one Re.is_01 s5) as [[h2 s6]|] eqn:E6; [|done].
  apply one_01_Some in E6 as (d & -> & ->). cbn [mbind option_bind] in H.
  destruct (Re.lit "_v" s6) as [s7|] eqn:E7; [|done].
  apply lit_Some in E7 as ->. cbn [mbind option_bind] in H.
  destruct (Re.plus Re.is_digit s7) as [[h3 s8]|] eqn:E8; [|done].
  apply plus_Some in E8 as (-> & Hg3 & _). cbn [mbind option_bind] in H.
  destruct (Re.eol s8) as [[]|] eqn:E9; [|done].
  apply eol_Some in E9 as ->. cbn [mbind option_bind] in H.
  injection H as <- <- <- <-.
  exists a, d. rewrite append_empty_r. done.
Qed.

Lemma parse_None_iff (text : string) :
  Seq.parse (Seq.Seq text) = None ↔ ¬ in_grammar text.
Proof.
  unfold Seq.parse; simpl. split.
  - intros H (a & s & d & v & Hs & Hv & ->).
    by rewrite match_pattern_instruction in H.
  - intros H. destruct (Re.match_pattern text) as [[[[g0 g1] g2] g3]|] eqn:E; [|done].
    destruct H. apply match_pattern_Some in E as (a & d & _ & _ & ? & ? & ->).
    by exists a, g1, d, g3.
Qed.

(** ** Pulse words *)

Section Bits.

Local Open Scope Z_scope.

Lemma testbit_shiftl_01 (d k n : Z) :
  d = 0 ∨ d = 1 → 0 ≤ k →
  Z.testbit (Z.shiftl d k) n = (d =? 1) && (n =? k).
Proof.
  intros Hd Hk.
  destruct (Z.neg_nonneg_cases n) as [Hn | Hn].
  - rewrite Z.testbit_neg_r by done.
    destruct (Z.eqb_spec n k); [exfalso; lia | by rewrite andb_false_r].
  - rewrite Z.shiftl_spec by done.
    destruct Hd as [-> | ->]; simpl.
    + apply Z.bits_0.
    + destruct (Z.eqb_spec n k) as [-> | Hne].
      * by rewrite Z.sub_diag.
      * destruct (Z.neg_nonneg_cases (n - k)) as [Hlt | Hge].
        -- by apply Z.testbit_neg_r.
        -- apply Z.bits_above_log2; simpl; lia.
Qed.

Lemma add_disjoint_lor (a b : Z) :
  (∀ n, Z.testbit a n && Z.testbit b n = false) → a + b = Z.lor a b.
Proof.
  intros H.
  assert (Z.land a b = 0) as H0.
  { apply Z.bits_inj'. intros n _. by rewrite Z.land_spec, Z.bits_0. }
  by rewrite Z.add_nocarry_lxor, Z.lxor_lor.
Qed.

Lemma convert_step_testbit (c : Motor.driver) (id ps : nat) (dir action n : Z) :
dir = 0 ∨ dir = 1 → action = 0 ∨ action = 1 →
Z.testbit (Motor.convert_step (Motor.new c id ps) dir action) n
= (dir =? 1) && (n =? 2 * Z.of_nat id)
  || (action =? 1) && (n =? 2 * Z.of_nat id + 1)
  || (dir =? 1) && (n =? 16 + 2 * Z.of_nat id).
Proof.
intros Hd Ha. unfold Motor.convert_step, Motor.pin_dir, Motor.pin_step.
cbn [Motor.new Motor._pin_dir Motor._pin_step].
rewrite (add_disjoint_lor (Z.shiftl dir _)).
2:{ intros k. rewrite !testbit_shiftl_01 by lia.
    destruct (Z.eqb_spec k (Z.of_nat (id * 2))), (Z.eqb_spec k (Z.of_nat (id * 2 + 1)));
      rewrite ?andb_false_r; try done; exfalso; lia. }
rewrite add_disjoint_lor.
2:{ intros k. rewrite Z.lor_spec, !testbit_shiftl_01 by lia.
    destruct (Z.eqb_spec k (Z.of_nat (id * 2))), (Z.eqb_spec k (Z.of_nat (id * 2 + 1))),
      (Z.eqb_spec k (Z.of_nat (16 + id * 2)));
      rewrite ?andb_false_r; try done; exfalso; lia. }
rewrite !Z.lor_spec, !testbit_shiftl_01 by lia.
replace (Z.of_nat (id * 2)) with (2 * Z.of_nat id) by lia.
replace (Z.of_nat (id * 2 + 1)) with (2 * Z.of_nat id + 1) by lia.
replace (Z.of_nat (16 + id * 2)) with (16 + 2 * Z.of_nat id) by lia.
done.
Qed.

End Bits.

(** ** The object monad *)

Section Monad.

Import Automat.
Local Open Scope py_scope.

Context {A B : Type}.

Lemma bind_ret (a : A) (k : A → M B) (o : t) : bind (ret a) k o = k a o.
Proof. reflexivity. Qed.

Lemma bind_raise (e : exn) (k : A → M B) (o : t) :
  bind (raise e) k o = (Raise e, o).
Proof. reflexivity. Qed.

Lemma bind_modify (f : t → t) (k : unit → M B) (o : t) :
  bind (modify f) k o = k tt (f o).
Proof. reflexivity. Qed.

Lemma bind_self (f : t → A) (k : A → M B) (o : t) :
  bind (self_ f) k o = k (f o) o.
Proof. reflexivity. Qed.

Lemma bind_Ok (m : M A) (k : A → M B) (o o' : t) (a : A) :
  m o = (Ok a, o') → bind m k o = k a o'.
Proof. unfold bind. by intros ->. Qed.

Lemma bind_Raise (m : M A) (k : A → M B) (o o' : t) (e : exn) :
  m o = (Raise e, o') → bind m k o = (Raise e, o').
Proof. unfold bind. by intros ->. Qed.

Lemma bind_attr (f : t → option A) (k : A → M B) (o : t) (a : A) :
  f o = Some a → bind (attr f) k o = k a o.
Proof. unfold bind, attr. by intros ->. Qed.

End Monad.

Section Subscripts.

Import Automat.
Local Open Scope py_scope.

Context {B : Type}.

Lemma bind_motors_len_seq (id c : nat) (d : gmap nat nat) (k : nat → M B) (o : t) :
  _motors_len_seq o = Some d → d !! id = Some c →
  bind (motors_len_seq id) k o = k c o.
Proof.
  intros Hd Hc. unfold motors_len_seq. apply bind_Ok.
  rewrite (bind_attr _ _ _ _ Hd). by rewrite Hc.
Qed.

Lemma bind_motor (id : nat) (ms : list Motor.t) (m : Motor.t) (k : Motor.t → M B) (o : t) :
  _motors o = Some ms → ms !! id = Some m →
  bind (motor id) k o = k m o.
Proof.
  intros Hms Hm. unfold motor. apply bind_Ok.
  rewrite (bind_attr _ _ _ _ Hms). by rewrite Hm.
Qed.

End Subscripts.

Lemma set_seq16bits_id (o : Automat.t) (b : list Z) :
  Automat._seq16bits o = Some b → Automat.set_seq16bits b o = o.
Proof. destruct o; simpl. by intros ->. Qed.

Section Loops.

Import Automat.
Local Open Scope py_scope.

Lemma append_Ok (v : Z) (o : t) (b : list Z) :
  _seq16bits o = Some b → append v o = (Ok tt, set_seq16bits (b ++ [v]) o).
Proof. intros Hb. unfold append. by rewrite (bind_attr _ _ _ _ Hb). Qed.

Lemma for__append (l : list nat) (o : t) (b : list Z) :
  _seq16bits o = Some b →
  for_ l (fun _ => append 0) o
  = (Ok tt, set_seq16bits (b ++ replicate (length l) 0%Z) o).
Proof.
  revert o b. induction l as [|x l IH]; intros o b Hb; simpl.
  - by rewrite app_nil_r, set_seq16bits_id.
  - rewrite (bind_Ok _ _ _ _ _ (append_Ok 0 o b Hb)).
    rewrite (IH _ (b ++ [0%Z])) by done.
    by rewrite <- app_assoc.
Qed.

Lemma insert_alter_lookup (f : Z → Z) (b : list Z) (i : nat) (w : Z) :
  b !! i = Some w → <[i := f w]> b = alter f i b.
Proof.
  intros Hw. apply list_eq. intros j. destruct (decide (i = j)) as [<-|Hne].
  - rewrite list_lookup_insert_eq by (by eapply lookup_lt_Some).
    by rewrite list_lookup_alter_eq, Hw.
  - by rewrite list_lookup_insert_ne, list_lookup_alter_ne.
Qed.

Lemma ior_item_Ok (i : nat) (v : M Z) (o : t) (b : list Z) (x : Z) :
  _seq16bits o = Some b → i < length b → v o = (Ok x, o) →
  ior_item i v o
  = (Ok tt, set_seq16bits (alter (fun w => Z.lor w x) i b) o).
Proof.
  intros Hb Hi Hv. unfold ior_item. rewrite (bind_attr _ _ _ _ Hb).
  destruct (lookup_lt_is_Some_2 b i Hi) as [w Hw]. rewrite Hw.
  rewrite (bind_Ok _ _ _ _ _ Hv). unfold modify.
  by rewrite (insert_alter_lookup (fun w => Z.lor w x) b i w).
Qed.

(** The two marking loops of [add_seq], for any choice of the word. *)
Lemma for__ior_item (id c : nat) (m : Motor.t) (word : Motor.t → Z)
    (ms : list Motor.t) (d : gmap nat nat) (idxs : list nat) (o : t) (b : list Z) :
  _motors o = Some ms → ms !! id = Some m →
  _motors_len_seq o = Some d → d !! id = Some c →
  _seq16bits o = Some b →
  (∀ i, i ∈ idxs → c + i < length b) →
  for_ idxs (fun i =>
    c <- motors_len_seq id ;;
    ior_item (c + i) (m <- motor id ;; ret (word m))) o
  = (Ok tt, set_seq16bits (ior_all (word m) ((fun i => c + i) <$> idxs) b) o).
Proof.
  intros Hmo Hm Hdo Hc. revert o b Hmo Hdo.
  induction idxs as [|i idxs IH]; intros o b Hmo Hdo Hb Hin; simpl.
  - by rewrite set_seq16bits_id.
  - erewrite bind_Ok.
    2:{ rewrite (bind_motors_len_seq _ _ _ _ _ Hdo Hc).
        apply ior_item_Ok; [done | apply Hin; left |].
        by rewrite (bind_motor _ _ _ _ _ Hmo Hm). }
    rewrite (IH _ (alter (fun w => Z.lor w (word m)) (c + i) b)); try done.
    intros j Hj. rewrite length_alter. apply Hin. by right.
Qed.

End Loops.

(** ** Ranges *)

Lemma elem_of_range (n i : nat) : i ∈ range n ↔ i < n.
Proof. unfold range. rewrite elem_of_seq. lia. Qed.

Lemma length_range (n : nat) : length (range n) = n.
Proof. apply length_seq. Qed.

Lemma elem_of_range3 (start stop step x : nat) :
  0 < step →
  x ∈ range3 start stop step ↔ ∃ j, x = start + j * step ∧ x < stop.
Proof.
  intros Hstep. unfold range3. rewrite list_elem_of_fmap.
  set (n := stop - start + (step - 1)).
  assert (∀ j, j < n / step ↔ start + j * step < stop) as Hj.
  { intros j. pose proof (Nat.div_mod_eq n step) as Hdm.
    pose proof (Nat.mod_upper_bound n step ltac:(lia)) as Hmod.
    subst n. split; intros H; nia. }
  split.
  - intros (j & -> & Hin). apply elem_of_seq in Hin. exists j. split; [done|].
    apply Hj. lia.
  - intros (j & -> & Hlt). exists j. split; [done|]. apply elem_of_seq.
    apply Hj in Hlt. lia.
Qed.

(** The strided range of [add_seq]: one index per physical step. *)
Lemma range3_steps (s k : nat) :
  range3 0 (s * (1 + k)) (1 + k) = (fun j => j * (1 + k)) <$> range s.
Proof.
  unfold range3, range.
  replace ((s * (1 + k) - 0 + (1 + k - 1)) / (1 + k)) with s; [done|].
  apply Nat.div_unique with k; lia.
Qed.

(** ** [add_seq] on a request that parses *)

Section AddSeq.

Import Automat.
Local Open Scope py_scope.

Lemma length_ior_all (w : Z) (idxs : list nat) (b : list Z) :
  length (ior_all w idxs b) = length b.
Proof.
  unfold ior_all. revert b. induction idxs as [|i idxs IH]; intros b; simpl; [done|].
  by rewrite IH, length_alter.
Qed.

Lemma add_seq_Ok (id c : nat) (seq : Seq.t) (dic : Seq.dic) (o : t)
    (ms : list Motor.t) (m : Motor.t) (d : gmap nat nat) (b : list Z) :
  Seq.parse seq = Some dic →
  _motors o = Some ms → ms !! id = Some m →
  _motors_len_seq o = Some d → d !! id = Some c →
  _seq16bits o = Some b → c ≤ length b →
  add_seq id seq o
  = (Ok tt,
     set_motors_len_seq (<[id := c + Seq.step dic * (1 + Seq.speed dic)]> d)
       (set_seq16bits (merged m dic c b) o)).
Proof.
  intros Hp Hms Hm Hd Hc Hb Hle. unfold add_seq. rewrite Hp.
  rewrite !bind_ret. cbv beta iota zeta.
  rewrite (bind_motors_len_seq _ _ _ _ _ Hd Hc), (bind_attr _ _ _ _ Hb).
  set (steps := Seq.step dic * (1 + Seq.speed dic)).
  set (b1 := if length b <? steps + c then b ++ replicate steps 0%Z else b).
  assert (steps + c ≤ length b1) as Hb1.
  { subst b1. destruct (Nat.ltb_spec (length b) (steps + c)); [|done].
    rewrite length_app, length_replicate. lia. }
  erewrite (bind_Ok _ _ _ (set_seq16bits b1 o)).
  2:{ subst b1. destruct (length b <? steps + c).
      - rewrite (for__append _ _ _ Hb). by rewrite length_range.
      - unfold ret. by rewrite set_seq16bits_id. }
  erewrite bind_Ok.
  2:{ apply (for__ior_item id c m (fun m => Motor.convert_step m (Z.of_nat (Seq.dir dic)) 0) ms d);
        try done.
      intros i Hi%elem_of_range. lia. }
  erewrite bind_Ok.
  2:{ apply (for__ior_item id c m
               (fun m => Motor.convert_step m (Z.of_nat (Seq.dir dic))
                           (Z.of_nat (Seq.action dic))) ms d); try done.
      intros i Hi. apply elem_of_range3 in Hi as (j & -> & Hj); [|lia].
      rewrite length_ior_all. lia. }
  erewrite bind_motors_len_seq; [|done|done].
  erewrite bind_attr; [|done]. done.
Qed.

End AddSeq.

(** ** The merged buffer, slot by slot *)

Section Merged.

Local Open Scope Z_scope.

Lemma lookup_ior_all (w : Z) (idxs : list nat) (b : list Z) (t : nat) :
  ior_all w idxs b !! t
  = (fun x => if bool_decide (t ∈ idxs) then Z.lor x w else x) <$> b !! t.
Proof.
  unfold ior_all. revert b. induction idxs as [|i idxs IH]; intros b; simpl.
  - by destruct (b !! t).
  - rewrite IH. destruct (decide (i = t)) as [->|Hne].
    + rewrite list_lookup_alter_eq. destruct (b !! t) as [x|]; simpl; [|done].
      rewrite (bool_decide_eq_true_2 (t ∈ t :: idxs)) by left.
      case_bool_decide; [|done].
      by rewrite <- Z.lor_assoc, Z.lor_diag.
    + rewrite list_lookup_alter_ne by done.
      destruct (b !! t) as [x|]; simpl; [|done].
      rewrite (bool_decide_ext (t ∈ i :: idxs) (t ∈ idxs)); [done|].
      rewrite elem_of_cons. split; [intros [Heq|Hin]; [by subst | done] | by right].
Qed.

End Merged.

Lemma pulse_slot_iff (d : Seq.dic) (c t : nat) :
  pulse_slot d c t ↔ ∃ j, j < Seq.step d ∧ t = c + j * (1 + Seq.speed d).
Proof.
  unfold pulse_slot. split.
  - intros [Ht Hmod]. exists ((t - c) / (1 + Seq.speed d)).
    pose proof (Nat.div_mod_eq (t - c) (1 + Seq.speed d)) as Hdm.
    rewrite Hmod in Hdm. split; [|lia].
    apply Nat.Div0.div_lt_upper_bound. lia.
  - intros (j & Hj & ->). split.
    { split; [lia|]. apply Nat.add_lt_mono_l, Nat.mul_lt_mono_pos_r; lia. }
    replace (c + j * (1 + Seq.speed d) - c) with (j * (1 + Seq.speed d)) by lia.
    apply Nat.Div0.mod_mul.
Qed.


Lemma lookup_merged (m : Motor.t) (d : Seq.dic) (c : nat) (b : list Z) (t : nat) :
  merged m d c b !! t
  = merged_word m d c t
      <$> (if length b <? Seq.step d * (1 + Seq.speed d) + c
           then b ++ replicate (Seq.step d * (1 + Seq.speed d)) 0%Z
           else b) !! t.
Proof.
  unfold merged. cbv zeta. rewrite !lookup_ior_all.
  match goal with |- context [?l !! t] => destruct (l !! t) as [x|] eqn:Hx end;
    simpl; [|done].
  unfold merged_word. f_equal.
  rewrite (bool_decide_ext (t ∈ (λ i, c + i) <$> range (Seq.step d * (1 + Seq.speed d)))
             (c ≤ t < c + Seq.step d * (1 + Seq.speed d))).
  2:{ rewrite list_elem_of_fmap. split.
      - intros (i & -> & Hi%elem_of_range). lia.
      - intros Ht. exists (t - c). split; [lia|]. apply elem_of_range. lia. }
  rewrite (bool_decide_ext
             (t ∈ (λ i, c + i) <$> range3 0 (Seq.step d * (1 + Seq.speed d)) (1 + Seq.speed d))
             (pulse_slot d c t)); [done|].
  rewrite pulse_slot_iff, range3_steps, list_elem_of_fmap. split.
  - intros (i & -> & (j & -> & Hj%elem_of_range)%list_elem_of_fmap). by exists j.
  - intros (j & Hj & ->). exists (j * (1 + Seq.speed d)). split; [done|].
    apply list_elem_of_fmap. exists j. split; [done|]. by apply elem_of_range.
Qed.

Lemma length_merged (m : Motor.t) (d : Seq.dic) (c : nat) (b : list Z) :
  length (merged m d c b)
  = if length b <? Seq.step d * (1 + Seq.speed d) + c
    then length b + Seq.step d * (1 + Seq.speed d)
    else length b.
Proof.
  unfold merged. cbv zeta. rewrite !length_ior_all.
  destruct (length b <? _); [|done]. by rewrite length_app, length_replicate.
Qed.

(** ** Channel bits of the words of [add_seq] *)

Lemma channel_bits_lor (j : nat) (x y : Z) :
  channel_bits j (Z.lor x y) = or_bits (channel_bits j x) (channel_bits j y).
Proof. unfold channel_bits, or_bits. by rewrite !Z.lor_spec. Qed.

Lemma channel_bits_0 (j : nat) : channel_bits j 0 = (false, false, false, false).
Proof. unfold channel_bits. by rewrite !Z.bits_0. Qed.

Lemma channel_bits_convert_step (c : Motor.driver) (id ps j dir action : nat) :
  id < 8 → j < 8 → dir ≤ 1 → action ≤ 1 →
  channel_bits j (Motor.convert_step (Motor.new c id ps) (Z.of_nat dir) (Z.of_nat action))
  = if decide (j = id)
    then (bool_decide (dir = 1), bool_decide (action = 1), bool_decide (dir = 1), false)
    else (false, false, false, false).
Proof.
  intros Hid Hj Hd Ha. unfold channel_bits.
  rewrite !convert_step_testbit by lia.
  assert ((Z.of_nat dir =? 1)%Z = bool_decide (dir = 1)) as ->.
  { case_bool_decide; [subst; done | apply Z.eqb_neq; lia]. }
  assert ((Z.of_nat action =? 1)%Z = bool_decide (action = 1)) as ->.
  { case_bool_decide; [subst; done | apply Z.eqb_neq; lia]. }
  destruct (decide (j = id)) as [->|Hne].
  - repeat match goal with
      | |- context [(?a =? ?b)%Z] =>
          destruct (Z.eqb_spec a b); try (exfalso; lia)
      end.
    by rewrite !andb_true_r, !andb_false_r, !orb_false_r.
  - repeat match goal with
      | |- context [(?a =? ?b)%Z] =>
          destruct (Z.eqb_spec a b); try (exfalso; lia)
      end.
    by rewrite !andb_false_r.
Qed.

Lemma parse_Some_01 (seq : Seq.t) (d : Seq.dic) :
  Seq.parse seq = Some d → Seq.action d ≤ 1 ∧ Seq.dir d ≤ 1.
Proof.
  unfold Seq.parse.
  destruct (Re.match_pattern (Seq.gcode_seq seq)) as [[[[g0 g1] g2] g3]|] eqn:E; [|done].
  apply match_pattern_Some in E as (a & b & -> & -> & _).
  intros [= <-]; simpl. rewrite !int_bit. by destruct a, b; simpl; lia.
Qed.

Lemma merged_word_outside (m : Motor.t) (d : Seq.dic) (c t : nat) (x : Z) :
  ¬ (c ≤ t < c + Seq.step d * (1 + Seq.speed d)) → merged_word m d c t x = x.
Proof.
  intros Ht. unfold merged_word.
  rewrite (bool_decide_eq_false_2 (pulse_slot d c t)).
  2:{ unfold pulse_slot. by intros [? _]. }
  by rewrite bool_decide_eq_false_2.
Qed.

Lemma channel_bits_merged_word_other (cls : Motor.driver) (id ps j : nat)
    (d : Seq.dic) (c t : nat) (x : Z) :
  id < 8 → j < 8 → j ≠ id → Seq.action d ≤ 1 → Seq.dir d ≤ 1 →
  channel_bits j (merged_word (Motor.new cls id ps) d c t x) = channel_bits j x.
Proof.
  intros Hid Hj Hne Ha Hd. unfold merged_word.
  pose proof (channel_bits_convert_step cls id ps j (Seq.dir d) 0 Hid Hj Hd
                ltac:(lia)) as H0.
  pose proof (channel_bits_convert_step cls id ps j (Seq.dir d) (Seq.action d)
                Hid Hj Hd Ha) as H1.
  change (Z.of_nat 0) with 0%Z in H0.
  rewrite decide_False in H0, H1 by done.
  repeat case_bool_decide; rewrite ?channel_bits_lor, ?H0, ?H1;
    destruct (channel_bits j x) as [[[? ?] ?] ?]; simpl;
    by rewrite ?orb_false_r.
Qed.

Lemma channel_bits_merged_word_own (cls : Motor.driver) (id ps : nat)
    (d : Seq.dic) (c t : nat) (x : Z) :
  id < 8 → Seq.action d ≤ 1 → Seq.dir d ≤ 1 →
  channel_bits id x = (false, false, false, false) →
  c ≤ t < c + Seq.step d * (1 + Seq.speed d) →
  channel_bits id (merged_word (Motor.new cls id ps) d c t x)
  = (bool_decide (Seq.dir d = 1),
     bool_decide (pulse_slot d c t) && bool_decide (Seq.action d = 1),
     bool_decide (Seq.dir d = 1),
     false).
Proof.
  intros Hid Ha Hd Hx Ht. unfold merged_word.
  pose proof (channel_bits_convert_step cls id ps id (Seq.dir d) 0 Hid Hid Hd
                ltac:(lia)) as H0.
  pose proof (channel_bits_convert_step cls id ps id (Seq.dir d) (Seq.action d)
                Hid Hid Hd Ha) as H1.
  change (Z.of_nat 0) with 0%Z in H0.
  rewrite decide_True in H0, H1 by done.
  rewrite (bool_decide_eq_true_2 _ Ht).
  destruct (bool_decide (pulse_slot d c t));
    rewrite ?channel_bits_lor, ?H0, ?H1, Hx;
    by destruct (bool_decide (Seq.dir d = 1)), (bool_decide (Seq.action d = 1)).
Qed.

(** ** [exit], and the loops over the motors *)

Section Exit.

Import Automat.
Local Open Scope py_scope.

Lemma set_pins_id (o : t) : set_pins (pins o) o = o.
Proof. by destruct o. Qed.

Lemma for__motors_pins (f : Motor.t → gmap nat Z → gmap nat Z)
    (ms : list Motor.t) (l : list nat) (o : t) :
  _motors o = Some ms → (∀ i, i ∈ l → i < length ms) →
  ∃ p, for_ l (fun i =>
         m <- motor i ;; modify (fun o => set_pins (f m (pins o)) o)) o
       = (Ok tt, set_pins p o).
Proof.
  revert o. induction l as [|i l IH]; intros o Hms Hl; simpl.
  - exists (pins o). by rewrite set_pins_id.
  - destruct (lookup_lt_is_Some_2 ms i) as [m Hm]; [apply Hl; left|].
    destruct (IH (set_pins (f m (pins o)) o)) as [p Hp]; [done | |].
    { intros j Hj. apply Hl. by right. }
    exists p. erewrite bind_Ok.
    2:{ by rewrite (bind_motor _ _ _ _ _ Hms Hm). }
    by rewrite Hp.
Qed.

Lemma sleep_motors_Ok (ms : list Motor.t) (o : t) :
  _motors o = Some ms → _nb_motors o ≤ length ms →
  ∃ p, sleep_motors o = (Ok tt, set_pins p o).
Proof.
  intros Hms Hn. unfold sleep_motors. rewrite bind_self.
  apply (for__motors_pins Motor.sleep ms); [done|].
  intros i Hi%elem_of_range. lia.
Qed.

Lemma wake_motors_Ok (ms : list Motor.t) (o : t) :
  _motors o = Some ms → _nb_motors o ≤ length ms →
  ∃ p, wake_motors o = (Ok tt, set_pins p o).
Proof.
  intros Hms Hn. unfold wake_motors. rewrite bind_self.
  apply (for__motors_pins Motor.wake ms); [done|].
  intros i Hi%elem_of_range. lia.
Qed.

(** [exit] before the state machine exists. *)
Lemma exit_early (o : t) :
  _sm o = None → _motors o = None → exit o = (Raise (SystemExit 1), o).
Proof.
  intros Hsm Hms. unfold exit, hasattr, bind, ret, raise. by rewrite Hsm, Hms.
Qed.

(** [exit] between the start of the state machine and the creation of
    the motors. *)
Lemma exit_no_motors (o : t) (s : SM_16bits.t) :
  _sm o = Some s → _motors o = None →
  exit o = (Raise (SystemExit 1), set_sm (SM_16bits.stop s) o).
Proof.
  intros Hsm Hms. unfold exit, hasattr, attr, modify, bind, ret, raise.
  repeat (progress (rewrite ?Hsm, ?Hms; simpl)). done.
Qed.

(** [exit] once everything is set up. *)
Lemma exit_ready (o : t) (s : SM_16bits.t) (ms : list Motor.t) :
  _sm o = Some s → _motors o = Some ms → _nb_motors o ≤ length ms →
  ∃ p, exit o = (Raise (SystemExit 1), set_pins p (set_sm (SM_16bits.stop s) o)).
Proof.
  intros Hsm Hms Hn.
  destruct (sleep_motors_Ok ms (set_sm (SM_16bits.stop s) o)) as [p Hp];
    [done..|].
  exists p. unfold exit, hasattr, attr, modify, bind, ret, raise.
  repeat (progress (rewrite ?Hsm, ?Hms; simpl)). by rewrite Hp.
Qed.

Lemma new_motors_Ok (c : Motor.driver) (o : t) :
  ∃ p, new_motors c o
       = (Ok ((fun i => Motor.new c i 18) <$> range (_nb_motors o)), set_pins p o).
Proof.
  unfold new_motors. rewrite bind_self.
  generalize (range (_nb_motors o)) as l. intros l. revert o.
  induction l as [|i l IH]; intros o; simpl.
  - exists (pins o). by rewrite set_pins_id.
  - unfold bind at 1. simpl.
    destruct (IH (set_pins (Motor.sleep (Motor.new c i 18)
                              (<[18 := Motor.MODE c Motor.key_sleep]> (pins o))) o))
      as [p Hp].
    exists p. erewrite bind_Ok; [|exact Hp]. done.
Qed.

End Exit.

(** ** [configure] *)

Section Configure.

Import Automat.
Local Open Scope py_scope.

Lemma zero_cursors_lookup (i : nat) :
  (list_to_map [(0,0); (1,0); (2,0); (3,0); (4,0); (5,0); (6,0); (7,0)]
     : gmap nat nat) !! i
  = if decide (i < 8) then Some 0 else None.
Proof.
  do 8 (destruct i as [|i]; [reflexivity|]).
  rewrite decide_False by lia. simpl.
  rewrite !lookup_insert_ne by lia. apply lookup_empty.
Qed.

Lemma configure_tail (c : Motor.driver) (o : t) (s : SM_16bits.t) :
  _sm o = Some s → SM_16bits.tx s = [] → _nb_motors o ≤ 8 →
  ∃ o',
    (ms <- new_motors c ;; modify (set_motors ms) ;;
     modify (set_seq16bits []) ;;
     modify (set_motors_len_seq
               (list_to_map [(0,0); (1,0); (2,0); (3,0); (4,0); (5,0); (6,0); (7,0)]))) o
    = (Ok tt, o')
    ∧ configured (_gcode_seq o) (_mode o) o' ∧ _nb_motors o' = _nb_motors o.
Proof.
  intros Hsm Htx Hn. destruct (new_motors_Ok c o) as [p Hp].
  eexists. split.
  { erewrite bind_Ok; [|exact Hp]. rewrite !bind_modify. reflexivity. }
  split; [|done]. repeat split; simpl.
  - by exists c.
  - done.
  - by rewrite Hsm.
  - done.
  - eexists. split; [done|]. intros i Hi. rewrite zero_cursors_lookup.
    by rewrite decide_True.
  - intros id. unfold cursor; simpl. rewrite zero_cursors_lookup.
    by case_decide.
  - unfold enqueued; simpl. rewrite Hsm; simpl. by rewrite Htx.
Qed.

Lemma configure_spec (f : gcode_file) (r : res unit) (o : t) :
  configure f blank = (r, o) →
  (r = Raise (SystemExit 1) ∧ _seq16bits o = None ∧ enqueued o = [])
  ∨ (r = Ok tt ∧ ∃ d m q g, f = Template d m q g ∧ configured g m o
     ∧ _nb_motors o = length (filter (fun gcode => 0 < length gcode)
                                     ((map_to_list g).*2))).
Proof.
  destruct f as [| |d m q g]; unfold configure, read_gcode.
  - rewrite (bind_Raise _ _ _ blank (SystemExit 1)).
    2:{ by rewrite (bind_Raise _ _ _ _ _ (exit_early blank eq_refl eq_refl)). }
    intros [= <- <-]. by left.
  - rewrite (bind_Raise _ _ _ blank (SystemExit 1)).
    2:{ by rewrite (bind_Raise _ _ _ _ _ (exit_early blank eq_refl eq_refl)). }
    intros [= <- <-]. by left.
  - rewrite bind_ret, bind_modify, bind_self, bind_modify, bind_self.
    change (_gcode_seq (set_config d m q g blank)) with g.
    set (nb := length (filter (fun gcode => 0 < length gcode) ((map_to_list g).*2))).
    set (o1 := set_nb_motors nb (set_config d m q g blank)).
    change (_nb_motors o1) with nb.
    destruct (Nat.ltb_spec 8 nb) as [Hnb|Hnb]; cbv iota.
    { rewrite (bind_Raise _ _ _ _ _ (exit_early o1 eq_refl eq_refl)).
      intros [= <- <-]. by left. }
    rewrite bind_ret, bind_self, bind_modify, bind_self.
    set (o2 := set_sm _ o1).
    change (_driver o2) with d.
    assert (∀ c, ∃ o',
      (x <- (ms <- new_motors c;; modify (set_motors ms));;
       _ <- modify (set_seq16bits []);;
       modify (set_motors_len_seq
         (list_to_map [(0,0); (1,0); (2,0); (3,0); (4,0); (5,0); (6,0); (7,0)]))) o2
      = (Ok tt, o') ∧ configured g m o' ∧ _nb_motors o' = nb) as Hok.
    { intros c. destruct (configure_tail c o2 _ eq_refl eq_refl Hnb)
        as (o' & Ho' & Hc & Hn).
      exists o'. split; [|done]. rewrite <- Ho'. unfold bind.
      by destruct (new_motors c o2) as [[?|?] ?]. }
    repeat case_bool_decide; cbv iota.
    + destruct (Hok Motor.A4988) as (o' & -> & ? & ?). intros [= <- <-].
      right. split; [done|]. by exists d, m, q, g.
    + destruct (Hok Motor.TMC2208) as (o' & -> & ? & ?). intros [= <- <-].
      right. split; [done|]. by exists d, m, q, g.
    + destruct (Hok Motor.TMC2209) as (o' & -> & ? & ?). intros [= <- <-].
      right. split; [done|]. by exists d, m, q, g.
    + rewrite (bind_Raise _ _ _ _ _ (exit_no_motors o2 _ eq_refl eq_refl)).
      intros [= <- <-]. by left.
Qed.

End Configure.

(** ** One [add_seq] from a state of the compile loop *)

Section Step.

Import Automat.
Local Open Scope py_scope.

Lemma lookup_grown (b : list Z) (n c t : nat) (x : Z) :
  (if length b <? n + c then b ++ replicate n 0%Z else b) !! t = Some x →
  b !! t = Some x ∨ (length b ≤ t ∧ x = 0%Z).
Proof.
  destruct (length b <? n + c); [|by left].
  destruct (decide (t < length b)) as [Hlt|Hge].
  - rewrite lookup_app_l by done. by left.
  - rewrite lookup_app_r by lia. intros [-> _]%lookup_replicate. right. lia.
Qed.

Lemma lookup_grown_old (b : list Z) (n c t : nat) (x : Z) :
  b !! t = Some x →
  (if length b <? n + c then b ++ replicate n 0%Z else b) !! t = Some x.
Proof.
  intros Hx. destruct (length b <? n + c); [|done].
  apply lookup_app_l_Some. done.
Qed.

Lemma length_grown (b : list Z) (n c : nat) :
  c ≤ length b →
  n + c ≤ length (if length b <? n + c then b ++ replicate n 0%Z else b).
Proof.
  intros Hc. destruct (Nat.ltb_spec (length b) (n + c)); [|done].
  rewrite length_app, length_replicate. lia.
Qed.

Lemma ready_motor (o : t) (id : nat) :
  ready o → id < _nb_motors o →
  ∃ cls ms, _motors o = Some ms ∧ ms !! id = Some (Motor.new cls id 18)
            ∧ length ms = _nb_motors o.
Proof.
  intros ([cls Hms] & _) Hid. exists cls. eexists. split; [exact Hms|]. split.
  - rewrite list_lookup_fmap. unfold range. by rewrite lookup_seq_lt.
  - by rewrite length_fmap, length_range.
Qed.

Lemma add_seq_ready (o : t) (id : nat) (seq : Seq.t) :
  ready o → cursor_inv o → id < _nb_motors o →
  (∃ dic cls d b,
      Seq.parse seq = Some dic
      ∧ _motors_len_seq o = Some d ∧ _seq16bits o = Some b
      ∧ add_seq id seq o
        = (Ok tt,
           set_motors_len_seq
             (<[id := cursor o id + Seq.step dic * (1 + Seq.speed dic)]> d)
             (set_seq16bits (merged (Motor.new cls id 18) dic (cursor o id) b) o)))
  ∨ (∃ p s,
      Seq.parse seq = None ∧ _sm o = Some s
      ∧ add_seq id seq o
        = (Raise (SystemExit 1), set_pins p (set_sm (SM_16bits.stop s) o))).
Proof.
  intros Hr Hci Hid.
  destruct (ready_motor o id Hr Hid) as (cls & ms & Hms & Hm & Hlen).
  destruct Hr as (_ & Hnb & [s Hs] & [b Hb] & d & Hd & Hkeys).
  destruct (Hkeys id ltac:(lia)) as [c Hc].
  assert (cursor o id = c) as Hcur by (unfold cursor; by rewrite Hd; simpl; rewrite Hc).
  destruct (Seq.parse seq) as [dic|] eqn:Hp.
  - left. exists dic, cls, d, b. repeat split; try done.
    rewrite Hcur. apply (add_seq_Ok id c seq dic o ms); try done.
    specialize (Hci id). unfold timeline in Hci. rewrite Hb in Hci. simpl in Hci. lia.
  - right. destruct (exit_ready o s ms Hs Hms ltac:(lia)) as [p Hp'].
    exists p, s. repeat split; try done.
    unfold add_seq. rewrite Hp. by rewrite (bind_Raise _ _ _ _ _ Hp').
Qed.

End Step.

(** ** The invariants of the compile loop *)

Section Invariants.

Import Automat.

(** The state after a successful [add_seq], in terms of the state before. *)
Lemma cursor_after (o : t) (d : gmap nat nat) (b' : list Z) (id c j : nat) :
  _motors_len_seq o = Some d →
  cursor (set_motors_len_seq (<[id := c]> d) (set_seq16bits b' o)) j
  = if decide (j = id) then c else cursor o j.
Proof.
  intros Hd. unfold cursor; simpl. rewrite Hd; simpl.
  case_decide as Hj.
  - subst. by rewrite lookup_insert_eq.
  - by rewrite lookup_insert_ne.
Qed.

Lemma ready_after (o : t) (d : gmap nat nat) (b' : list Z) (id c : nat) :
  ready o → _motors_len_seq o = Some d →
  ready (set_motors_len_seq (<[id := c]> d) (set_seq16bits b' o)).
Proof.
  intros (Hms & Hnb & Hsm & _ & d' & Hd' & Hkeys) Hd.
  rewrite Hd in Hd'. injection Hd' as <-.
  repeat split; simpl; try done.
  eexists. split; [done|]. intros i Hi.
  destruct (decide (i = id)) as [->|Hne].
  - by rewrite lookup_insert_eq.
  - rewrite lookup_insert_ne by done. by apply Hkeys.
Qed.

Lemma inv_after (o : t) (d : gmap nat nat) (b : list Z) (cls : Motor.driver)
    (dic : Seq.dic) (id : nat) :
  ready o → cursor_inv o → fresh_inv o → id < _nb_motors o →
  _motors_len_seq o = Some d → _seq16bits o = Some b →
  Seq.action dic ≤ 1 → Seq.dir dic ≤ 1 →
  let o' := set_motors_len_seq
              (<[id := cursor o id + Seq.step dic * (1 + Seq.speed dic)]> d)
              (set_seq16bits (merged (Motor.new cls id 18) dic (cursor o id) b) o) in
  cursor_inv o' ∧ fresh_inv o'.
Proof.
  intros Hr Hci Hfi Hid Hd Hb Ha Hdir o'.
  assert (id < 8) as Hid8 by (destruct Hr as (_ & ? & _); lia).
  assert (timeline o = b) as Htl by (unfold timeline; by rewrite Hb).
  assert (timeline o' = merged (Motor.new cls id 18) dic (cursor o id) b) as Htl'
    by done.
  assert (∀ j, cursor o' j
               = if decide (j = id)
                 then cursor o id + Seq.step dic * (1 + Seq.speed dic)
                 else cursor o j) as Hcur.
  { intros j. subst o'. by apply cursor_after. }
  pose proof (Hci id) as Hc. rewrite Htl in Hc.
  split.
  - intros j. rewrite Hcur, Htl', length_merged.
    specialize (Hci j). rewrite Htl in Hci.
    destruct (Nat.ltb_spec (length b)
                (Seq.step dic * (1 + Seq.speed dic) + cursor o id));
      case_decide; lia.
  - intros j t w Hj Ht. rewrite Htl', lookup_merged. rewrite Hcur in Ht.
    destruct (_ !! t) as [x|] eqn:Hx; [|done]. simpl. intros [= <-].
    assert (cursor o j ≤ t → channel_bits j x = (false, false, false, false))
      as Hfresh.
    { intros Hjt. apply lookup_grown in Hx as [Hx|[_ ->]].
      - apply (Hfi j t); [done..|]. by rewrite Htl.
      - apply channel_bits_0. }
    destruct (decide (j = id)) as [->|Hne].
    + rewrite merged_word_outside by lia. apply Hfresh. lia.
    + rewrite channel_bits_merged_word_other by done. by apply Hfresh.
Qed.

Lemma compiling_inv (o : t) :
  compiling o → ready o ∧ cursor_inv o ∧ fresh_inv o ∧ enqueued o = [].
Proof.
  induction 1 as [f o Hcfg | o o' id seq _ (Hr & Hci & Hfi & Henq) Hid Hadd].
  - apply configure_spec in Hcfg as [(? & _)|(_ & d & m & q & g & _ & Hc & _)];
      [done|].
    destruct Hc as (Hr & Htl & Hcur & Henq & _).
    split; [done|]. split; [|split; [|done]].
    + intros id. rewrite Hcur. lia.
    + intros id t w _ _. by rewrite Htl.
  - destruct (add_seq_ready o id seq Hr Hci Hid)
      as [(dic & cls & d & b & Hp & Hd & Hb & Heq)|(p & s & _ & _ & Heq)];
      rewrite Heq in Hadd; [|done].
    injection Hadd as <-.
    destruct (parse_Some_01 _ _ Hp) as [Ha Hdir].
    destruct (inv_after o d b cls dic id Hr Hci Hfi Hid Hd Hb Ha Hdir) as [? ?].
    split; [by apply ready_after|]. done.
Qed.

End Invariants.

(** ** The requests of one channel *)

Section Channel.

Import Automat.
Local Open Scope py_scope.

Lemma others_kept_refl (id : nat) (o : t) : others_kept id o o.
Proof. intros t w Hw. by exists w. Qed.

Lemma others_kept_trans (id : nat) (o1 o2 o3 : t) :
  others_kept id o1 o2 → others_kept id o2 o3 → others_kept id o1 o3.
Proof.
  intros H12 H23 t w Hw.
  destruct (H12 t w Hw) as (w2 & Hw2 & Hb2).
  destruct (H23 t w2 Hw2) as (w3 & Hw3 & Hb3).
  exists w3. split; [done|]. intros j Hj Hne. by rewrite Hb3, Hb2.
Qed.

Lemma parse_Some_in_grammar (text : string) (d : Seq.dic) :
  Seq.parse (Seq.Seq text) = Some d → in_grammar text.
Proof.
  unfold Seq.parse; simpl.
  destruct (Re.match_pattern text) as [[[[g0 g1] g2] g3]|] eqn:E; [|done].
  intros _. apply match_pattern_Some in E as (a & b & _ & _ & ? & ? & ->).
  by exists a, g1, b, g3.
Qed.

(** What one call of [add_seq] does in the compile loop. *)
Lemma add_seq_step (o : t) (id : nat) (seq : Seq.t) :
  compiling o → id < _nb_motors o →
  ∃ r o',
    add_seq id seq o = (r, o')
    ∧ enqueued o' = [] ∧ _gcode_seq o' = _gcode_seq o
    ∧ _nb_motors o' = _nb_motors o ∧ _mode o' = _mode o
    ∧ others_kept id o o'
    ∧ ((r = Ok tt ∧ compiling o' ∧ in_grammar (Seq.gcode_seq seq))
       ∨ (r = Raise (SystemExit 1) ∧ ¬ in_grammar (Seq.gcode_seq seq)
          ∧ timeline o' = timeline o)).
Proof.
  intros Hc Hid. destruct (compiling_inv o Hc) as (Hr & Hci & Hfi & Henq).
  destruct (add_seq_ready o id seq Hr Hci Hid)
    as [(dic & cls & d & b & Hp & Hd & Hb & Heq)|(p & s & Hp & Hs & Heq)];
    eexists _, _; (split; [exact Heq|]).
  - repeat (split; [done|]). split.
    + intros t w Hw. unfold timeline in *. rewrite Hb in Hw. simpl in *.
      rewrite lookup_merged, (lookup_grown_old _ _ _ _ _ Hw). simpl.
      eexists. split; [done|]. intros j Hj Hne.
      destruct (parse_Some_01 _ _ Hp) as [Ha Hdir].
      destruct Hr as (_ & Hnb & _).
      apply channel_bits_merged_word_other; [lia|done..].
    + left. split; [done|]. split.
      * by apply (compiling_add_seq o _ id seq).
      * destruct seq as [text]. by apply (parse_Some_in_grammar text dic).
  - split.
    { unfold enqueued in *; simpl. rewrite Hs in Henq. done. }
    repeat (split; [done|]). split; [intros t w Hw; by exists w|].
    right. split; [done|]. split; [|done].
    destruct seq as [text]. by apply parse_None_iff.
Qed.

(** What the inner loop of [compile] does for one channel. *)
Lemma add_seqs_spec (id : nat) (gcodes : list string) (o : t) :
  compiling o → id < _nb_motors o →
  ∃ r o',
    for_ gcodes (fun gcode => add_seq id (Seq.Seq gcode)) o = (r, o')
    ∧ enqueued o' = [] ∧ _gcode_seq o' = _gcode_seq o
    ∧ _nb_motors o' = _nb_motors o ∧ _mode o' = _mode o
    ∧ others_kept id o o'
    ∧ ((r = Ok tt ∧ compiling o' ∧ Forall in_grammar gcodes)
       ∨ (r = Raise (SystemExit 1) ∧ ¬ Forall in_grammar gcodes)).
Proof.
  revert o. induction gcodes as [|g gcodes IH]; intros o Hc Hid; simpl.
  - exists (Ok tt), o. destruct (compiling_inv o Hc) as (_ & _ & _ & Henq).
    repeat (split; [done|]). split; [apply others_kept_refl|]. by left.
  - destruct (add_seq_step o id (Seq.Seq g) Hc Hid)
      as (r1 & o1 & Heq & Henq & Hg & Hn & Hm & Hk & Hres).
    destruct Hres as [(-> & Hc1 & Hin)|(-> & Hbad & _)].
    + destruct (IH o1 Hc1 ltac:(lia))
        as (r & o' & Heq' & Henq' & Hg' & Hn' & Hm' & Hk' & Hres').
      exists r, o'. rewrite (bind_Ok _ _ _ _ _ Heq).
      split; [done|]. split; [done|]. split; [congruence|].
      split; [congruence|]. split; [congruence|].
      split; [by eapply others_kept_trans|].
      destruct Hres' as [(-> & ? & ?)|(-> & Hbad)].
      * left. split; [done|]. split; [done|]. by constructor.
      * right. split; [done|]. intros HF. apply Hbad. by inversion HF.
    + exists (Raise (SystemExit 1)), o1. rewrite (bind_Raise _ _ _ _ _ Heq).
      repeat (split; [done|]). right. split; [done|].
      intros HF. apply Hbad. by inversion HF.
Qed.

End Channel.

(** ** The compile loop *)

Section Compile.

Import Automat.
Local Open Scope py_scope.

Lemma compile_loop (l : list nat) (o : t) :
  compiling o → (∀ i, i ∈ l → i < _nb_motors o) →
  ∃ r o',
    for_ l (fun i =>
      g <- self_ _gcode_seq ;;
      match g !! str i with
      | Some gcodes => for_ gcodes (fun gcode => add_seq i (Seq.Seq gcode))
      | None => raise KeyError
      end) o = (r, o')
    ∧ enqueued o' = [] ∧ _gcode_seq o' = _gcode_seq o
    ∧ _nb_motors o' = _nb_motors o ∧ _mode o' = _mode o
    ∧ ((r = Ok tt ∧ compiling o'
        ∧ ∀ i, i ∈ l → ∃ gcodes, _gcode_seq o !! str i = Some gcodes
                                 ∧ Forall in_grammar gcodes)
       ∨ (r = Raise (SystemExit 1)
          ∧ ∃ i gcodes, i ∈ l ∧ _gcode_seq o !! str i = Some gcodes
                        ∧ ¬ Forall in_grammar gcodes)
       ∨ (r = Raise KeyError ∧ ∃ i, i ∈ l ∧ _gcode_seq o !! str i = None)).
Proof.
  revert o. induction l as [|i l IH]; intros o Hc Hl; simpl.
  - exists (Ok tt), o. destruct (compiling_inv o Hc) as (_ & _ & _ & Henq).
    repeat (split; [done|]). left. split; [done|]. split; [done|].
    intros i Hi. by apply elem_of_nil in Hi.
  - assert (i < _nb_motors o) as Hi by (apply Hl; left).
    destruct (_gcode_seq o !! str i) as [gcodes|] eqn:Hg.
    2:{ exists (Raise KeyError), o.
        erewrite bind_Raise; [|by rewrite bind_self, Hg].
        destruct (compiling_inv o Hc) as (_ & _ & _ & Henq).
        repeat (split; [done|]). right; right. split; [done|].
        exists i. split; [left|done]. }
    destruct (add_seqs_spec i gcodes o Hc Hi)
      as (r1 & o1 & Heq & Henq & Hg1 & Hn1 & Hm1 & _ & Hres).
    destruct Hres as [(-> & Hc1 & Hgood)|(-> & Hbad)].
    + destruct (IH o1 Hc1) as (r & o' & Heq' & Henq' & Hg' & Hn' & Hm' & Hres').
      { intros j Hj. rewrite Hn1. apply Hl. by right. }
      exists r, o'. erewrite bind_Ok; [|by rewrite bind_self, Hg].
      split; [done|]. split; [done|]. split; [congruence|].
      split; [congruence|]. split; [congruence|].
      rewrite Hg1 in Hres'.
      destruct Hres' as [(-> & ? & Hall)|[(-> & j & gs & ? & ? & ?)|(-> & j & ? & ?)]].
      * left. split; [done|]. split; [done|].
        intros j [->|Hj]%elem_of_cons; [by exists gcodes | by apply Hall].
      * right; left. split; [done|]. exists j, gs. split; [by right|done].
      * right; right. split; [done|]. exists j. split; [by right|done].
    + exists (Raise (SystemExit 1)), o1.
      erewrite bind_Raise; [|by rewrite bind_self, Hg].
      repeat (split; [done|]). right; left. split; [done|].
      exists i, gcodes. split; [left|done].
Qed.

Lemma compile_spec (o : t) :
  compiling o →
  ∃ r o',
    compile o = (r, o')
    ∧ enqueued o' = [] ∧ _nb_motors o' = _nb_motors o ∧ _mode o' = _mode o
    ∧ ((r = Ok tt ∧ compiling o'
        ∧ ∀ i, i < _nb_motors o →
               ∃ gcodes, _gcode_seq o !! str i = Some gcodes
                         ∧ Forall in_grammar gcodes)
       ∨ (r = Raise (SystemExit 1)
          ∧ ∃ i gcodes, i < _nb_motors o
                        ∧ _gcode_seq o !! str i = Some gcodes
                        ∧ ¬ Forall in_grammar gcodes)
       ∨ (r = Raise KeyError
          ∧ ∃ i, i < _nb_motors o ∧ _gcode_seq o !! str i = None)).
Proof.
  intros Hc. unfold compile. rewrite bind_self.
  destruct (compile_loop (range (_nb_motors o)) o Hc)
    as (r & o' & Heq & Henq & _ & Hn & Hm & Hres).
  { by intros i Hi%elem_of_range. }
  exists r, o'. repeat (split; [done|]).
  destruct Hres as [(-> & ? & Hall)|[(-> & j & gs & Hj & ? & ?)|(-> & j & Hj & ?)]].
  - left. split; [done|]. split; [done|]. intros i Hi. by apply Hall, elem_of_range.
  - right; left. split; [done|]. exists j, gs. by apply elem_of_range in Hj.
  - right; right. split; [done|]. exists j. by apply elem_of_range in Hj.
Qed.

End Compile.

(** ** Channels are merged independently of one another *)

Section Order.

Import Automat.
Local Open Scope py_scope.

(** The effect of one request on the bits of every channel. *)
Lemma add_seq_view (o : t) (id : nat) (seq : Seq.t) (d : Seq.dic) :
  compiling o → id < _nb_motors o → Seq.parse seq = Some d →
  ∃ o', add_seq id seq o = (Ok tt, o')
    ∧ (∀ k, cursor o' k
            = if decide (k = id)
              then cursor o id + Seq.step d * (1 + Seq.speed d)
              else cursor o k)
    ∧ ∀ k t, k < 8 →
        slot_bits o' k t
        = if decide (k = id ∧ cursor o id ≤ t
                     < cursor o id + Seq.step d * (1 + Seq.speed d))
          then request_bits d (cursor o id) t
          else slot_bits o k t.
Proof.
  intros Hc Hid Hp. destruct (compiling_inv o Hc) as (Hr & Hci & Hfi & _).
  destruct (add_seq_ready o id seq Hr Hci Hid)
    as [(dic & cls & m & b & Hp' & Hm & Hb & Heq)|(p & s & Hp' & _)];
    [|congruence].
  assert (dic = d) as -> by congruence.
  eexists. split; [exact Heq|]. split.
  { intros k. by apply cursor_after. }
  intros k t Hk.
  assert (timeline o = b) as Htl by (unfold timeline; by rewrite Hb).
  pose proof (Hci id) as Hcb. rewrite Htl in Hcb.
  destruct (parse_Some_01 _ _ Hp) as [Ha Hdir].
  assert (id < 8) as Hid8 by (destruct Hr as (_ & ? & _); lia).
  unfold slot_bits at 1. unfold timeline at 1. simpl. rewrite lookup_merged.
  pose proof (length_grown b (Seq.step d * (1 + Seq.speed d)) (cursor o id) Hcb)
    as Hlen.
  destruct (_ !! t) as [x|] eqn:Hx; simpl.
  - assert (default 0%Z (timeline o !! t) = x) as Hdef.
    { rewrite Htl. apply lookup_grown in Hx as [->|[Hge ->]]; [done|].
      by rewrite lookup_ge_None_2. }
    assert (cursor o k ≤ t → channel_bits k x = (false, false, false, false))
      as Hfresh.
    { intros Hkt. rewrite <- Hdef. destruct (timeline o !! t) as [y|] eqn:Hy.
      - by apply (Hfi k t).
      - apply channel_bits_0. }
    case_decide as Hin.
    + destruct Hin as [-> Hin].
      apply channel_bits_merged_word_own; try done. apply Hfresh. lia.
    + unfold slot_bits. rewrite Hdef.
      destruct (decide (k = id)) as [->|Hne].
      * rewrite merged_word_outside; [done|]. intros ?. by apply Hin.
      * by apply channel_bits_merged_word_other.
  - apply lookup_ge_None_1 in Hx.
    rewrite decide_False by lia.
    unfold slot_bits. rewrite Htl, lookup_ge_None_2; [done|].
    destruct (length b <? _); [|done]. rewrite length_app in Hx. lia.
Qed.

Lemma bind_Ok_inv {A B : Type} (m : M A) (k : A → M B) (o o' : t) (b : B) :
  bind m k o = (Ok b, o') → ∃ a o1, m o = (Ok a, o1) ∧ k a o1 = (Ok b, o').
Proof.
  unfold bind. destruct (m o) as [[a|e] o1]; [|done]. intros H. by exists a, o1.
Qed.

(** A successful [add_seq] in the compile loop comes from a request
    that parsed. *)
Lemma add_seq_Ok_inv (o o' : t) (id : nat) (seq : Seq.t) :
  compiling o → id < _nb_motors o → add_seq id seq o = (Ok tt, o') →
  compiling o' ∧ _nb_motors o' = _nb_motors o ∧ ∃ d, Seq.parse seq = Some d.
Proof.
  intros Hc Hid Heq. split; [by eapply compiling_add_seq|].
  destruct (add_seq_step o id seq Hc Hid) as (r & o1 & Heq1 & _ & _ & Hn & _).
  rewrite Heq in Heq1. injection Heq1 as <- <-. split; [done|].
  destruct (Seq.parse seq) as [d|] eqn:Hp; [by exists d|].
  unfold add_seq in Heq. rewrite Hp in Heq.
  apply bind_Ok_inv in Heq as (? & ? & Hex & _).
  destruct (compiling_inv o Hc) as (Hr & _).
  destruct (ready_motor o id Hr Hid) as (cls & ms & Hms & _ & Hlen).
  destruct Hr as (_ & _ & [s Hs] & _).
  destruct (exit_ready o s ms Hs Hms ltac:(lia)) as [p Hp'].
  congruence.
Qed.

Lemma same_channel_refl (k : nat) (o : t) : same_channel k o o.
Proof. by split. Qed.

Lemma same_channel_sym (k : nat) (o o' : t) :
  same_channel k o o' → same_channel k o' o.
Proof. intros [? ?]. by split. Qed.

Lemma same_channel_trans (k : nat) (o1 o2 o3 : t) :
  same_channel k o1 o2 → same_channel k o2 o3 → same_channel k o1 o3.
Proof. intros [? H12] [? H23]. split; [congruence|]. intros t. by rewrite H12. Qed.

(** The requests of one channel leave every other channel as it was. *)
Lemma add_seqs_other (id : nat) (gcodes : list string) (o o' : t) :
  compiling o → id < _nb_motors o →
  for_ gcodes (fun gcode => add_seq id (Seq.Seq gcode)) o = (Ok tt, o') →
  compiling o' ∧ _nb_motors o' = _nb_motors o
  ∧ ∀ k, k < 8 → k ≠ id → same_channel k o o'.
Proof.
  revert o. induction gcodes as [|g gcodes IH]; intros o Hc Hid; simpl.
  - intros [= <-]. split; [done|]. split; [done|]. intros. apply same_channel_refl.
  - intros ([] & o1 & Heq & Hrest)%bind_Ok_inv.
    destruct (add_seq_Ok_inv o o1 id _ Hc Hid Heq) as (Hc1 & Hn1 & d & Hp).
    destruct (IH o1 Hc1 ltac:(lia) Hrest) as (Hc' & Hn' & Hsame).
    split; [done|]. split; [congruence|]. intros k Hk Hne.
    eapply same_channel_trans; [|by apply Hsame].
    destruct (add_seq_view o id _ d Hc Hid Hp) as (o1' & Heq' & Hcur & Hbits).
    rewrite Heq in Heq'. injection Heq' as <-. split.
    + by rewrite Hcur, decide_False.
    + intros t. rewrite Hbits by done. rewrite decide_False; [done|].
      by intros [? _].
Qed.

(** What the requests of a channel do to its own bits depends on
    nothing but that channel. *)
Lemma add_seqs_own (id : nat) (gcodes : list string) (o1 o2 o1' : t) :
  compiling o1 → compiling o2 →
  id < _nb_motors o1 → id < _nb_motors o2 →
  same_channel id o1 o2 →
  for_ gcodes (fun gcode => add_seq id (Seq.Seq gcode)) o1 = (Ok tt, o1') →
  ∃ o2', for_ gcodes (fun gcode => add_seq id (Seq.Seq gcode)) o2 = (Ok tt, o2')
         ∧ same_channel id o1' o2'.
Proof.
  revert o1 o2. induction gcodes as [|g gcodes IH];
    intros o1 o2 Hc1 Hc2 Hid1 Hid2 Hsame; simpl.
  - intros [= <-]. by exists o2.
  - intros ([] & p1 & Heq1 & Hrest)%bind_Ok_inv.
    destruct (add_seq_Ok_inv o1 p1 id _ Hc1 Hid1 Heq1) as (Hcp1 & Hn1 & d & Hp).
    destruct (add_seq_view o1 id _ d Hc1 Hid1 Hp) as (q1 & Heq1' & Hcur1 & Hb1).
    rewrite Heq1 in Heq1'. injection Heq1' as <-.
    destruct (add_seq_view o2 id _ d Hc2 Hid2 Hp) as (p2 & Heq2 & Hcur2 & Hb2).
    destruct (add_seq_Ok_inv o2 p2 id _ Hc2 Hid2 Heq2) as (Hcp2 & Hn2 & _).
    assert (id < 8) as Hid8.
    { destruct (compiling_inv o1 Hc1) as ((_ & ? & _) & _). lia. }
    destruct Hsame as [Hcs Hbs].
    destruct (IH p1 p2 Hcp1 Hcp2 ltac:(lia) ltac:(lia)) as (o2' & Heq' & Hs');
      [|exact Hrest|].
    { split.
      - by rewrite Hcur1, Hcur2, !decide_True, Hcs.
      - intros t. rewrite Hb1, Hb2, Hcs, Hbs by done. done. }
    exists o2'. by rewrite (bind_Ok _ _ _ _ _ Heq2).
Qed.

(** Merging channel [i] and then channel [j] gives every channel the
    same cursor and the same bits as merging [j] and then [i]. *)
Lemma merge_order (o oi oij : t) (i j : nat) (gi gj : list string) :
  compiling o → i < _nb_motors o → j < _nb_motors o → i ≠ j →
  for_ gi (fun gcode => add_seq i (Seq.Seq gcode)) o = (Ok tt, oi) →
  for_ gj (fun gcode => add_seq j (Seq.Seq gcode)) oi = (Ok tt, oij) →
  ∃ oj oji,
    for_ gj (fun gcode => add_seq j (Seq.Seq gcode)) o = (Ok tt, oj)
    ∧ for_ gi (fun gcode => add_seq i (Seq.Seq gcode)) oj = (Ok tt, oji)
    ∧ ∀ k, k < 8 → same_channel k oij oji.
Proof.
  intros Hc Hi Hj Hne Hgi Hgj.
  assert (i < 8 ∧ j < 8) as [Hi8 Hj8].
  { destruct (compiling_inv o Hc) as ((_ & ? & _) & _). lia. }
  destruct (add_seqs_other i gi o oi Hc Hi Hgi) as (Hci & Hni & Hoi).
  destruct (add_seqs_other j gj oi oij Hci ltac:(lia) Hgj) as (Hcij & Hnij & Hoij).
  destruct (add_seqs_own j gj oi o oij Hci Hc ltac:(lia) Hj) as (oj & Hgj' & Hsj);
    [by apply same_channel_sym, Hoi | exact Hgj |].
  destruct (add_seqs_other j gj o oj Hc Hj Hgj') as (Hcj & Hnj & Hoj).
  destruct (add_seqs_own i gi o oj oi Hc Hcj Hi ltac:(lia)) as (oji & Hgi' & Hsi);
    [by apply Hoj | exact Hgi |].
  destruct (add_seqs_other i gi oj oji Hcj ltac:(lia) Hgi') as (_ & _ & Hoji).
  exists oj, oji. split; [done|]. split; [done|]. intros k Hk.
  destruct (decide (k = i)) as [->|Hki]; [|destruct (decide (k = j)) as [->|Hkj]].
  - eapply same_channel_trans; [|exact Hsi].
    by apply same_channel_sym, Hoij.
  - eapply same_channel_trans; [exact Hsj|]. by apply Hoji.
  - eapply same_channel_trans; [by apply same_channel_sym, Hoij|].
    eapply same_channel_trans; [by apply same_channel_sym, Hoi|].
    eapply same_channel_trans; [by apply Hoj|]. by apply Hoji.
Qed.

End Order.

(** ** The words fit the [array("I")] *)

Section Words.

Local Open Scope Z_scope.

Lemma word32_lor (x y : Z) : word32 x → word32 y → word32 (Z.lor x y).
Proof.
  unfold word32. intros [Hx0 Hx] [Hy0 Hy].
  assert (0 ≤ Z.lor x y) as H0 by (by apply Z.lor_nonneg).
  split; [done|].
  destruct (decide (Z.lor x y = 0)) as [->|Hne]; [done|].
  apply Z.log2_lt_pow2; [lia|]. rewrite Z.log2_lor by done.
  apply Z.max_lub_lt.
  - destruct (decide (x = 0)) as [->|?]; [done|]. apply Z.log2_lt_pow2; lia.
  - destruct (decide (y = 0)) as [->|?]; [done|]. apply Z.log2_lt_pow2; lia.
Qed.

Lemma word32_convert_step (cls : Motor.driver) (id ps dir action : nat) :
  (id < 8)%nat → (dir ≤ 1)%nat → (action ≤ 1)%nat →
  word32 (Motor.convert_step (Motor.new cls id ps) (Z.of_nat dir) (Z.of_nat action)).
Proof.
  intros Hid Hd Ha. unfold word32, Motor.convert_step, Motor.pin_dir, Motor.pin_step.
  cbn [Motor.new Motor._pin_dir Motor._pin_step].
  assert (dir = 0 ∨ dir = 1)%nat as [-> | ->] by lia;
    assert (action = 0 ∨ action = 1)%nat as [-> | ->] by lia;
    do 8 (destruct id as [|id]; [by vm_compute|]); lia.
Qed.

Lemma word32_merged_word (cls : Motor.driver) (id ps : nat) (d : Seq.dic)
    (c t : nat) (x : Z) :
  (id < 8)%nat → (Seq.action d ≤ 1)%nat → (Seq.dir d ≤ 1)%nat →
  word32 x → word32 (merged_word (Motor.new cls id ps) d c t x).
Proof.
  intros Hid Ha Hd Hx. unfold merged_word.
  pose proof (word32_convert_step cls id ps (Seq.dir d) 0 Hid Hd ltac:(lia)) as H0.
  pose proof (word32_convert_step cls id ps (Seq.dir d) (Seq.action d) Hid Hd Ha) as H1.
  change (Z.of_nat 0) with 0 in H0.
  repeat case_bool_decide; auto using word32_lor.
Qed.

Lemma compiling_word32 (o : Automat.t) :
  compiling o → Forall word32 (timeline o).
Proof.
  induction 1 as [f o Hcfg | o o' id seq Hc IH Hid Hadd].
  - apply configure_spec in Hcfg as [(? & _)|(_ & d & m & q & g & _ & Hcd & _)];
      [done|].
    destruct Hcd as (_ & -> & _). constructor.
  - destruct (compiling_inv o Hc) as (Hr & Hci & _).
    destruct (add_seq_ready o id seq Hr Hci Hid)
      as [(dic & cls & d & b & Hp & Hd & Hb & Heq)|(p & s & _ & _ & Heq)];
      rewrite Heq in Hadd; [|done].
    injection Hadd as <-.
    destruct (parse_Some_01 _ _ Hp) as [Ha Hdir].
    assert (id < 8)%nat as Hid8 by (destruct Hr as (_ & ? & _); lia).
    unfold timeline in *; simpl. rewrite Hb in IH; simpl in IH.
    apply Forall_lookup. intros t w. rewrite lookup_merged.
    destruct (_ !! t) as [x|] eqn:Hx; [|done]. simpl. intros [= <-].
    apply word32_merged_word; try done.
    apply lookup_grown in Hx as [Hx|[_ ->]]; [|done].
    by eapply Forall_lookup_1.
Qed.

End Words.

(* ================================================================== *)
(** * Main results                                                      *)
(* ================================================================== *)

(** C1: merging one request with action "move", [s] steps and speed
    factor [k] for a channel whose cursor is [c] asserts the channel's
    step bit, in phase A, at exactly the slots [c + j*(1+k)] for [j < s]
    among the slots [c .. c + s*(1+k) - 1]; every slot of that range
    carries the direction bit of the request in both phases, and the
    phase-B step bit is clear. *)
Theorem add_seq_pulse_slots (o : Automat.t) (id : nat) (seq : Seq.t) (d : Seq.dic) :
  compiling o → id < Automat._nb_motors o →
  Seq.parse seq = Some d → Seq.action d = 1 →
  ∃ o', Automat.add_seq id seq o = (Ok tt, o')
    ∧ ∀ t, cursor o id ≤ t < cursor o id + Seq.step d * (1 + Seq.speed d) →
        ∃ w, timeline o' !! t = Some w
          ∧ (Z.testbit w (Z.of_nat (2 * id + 1)) = true
             ↔ ∃ j, j < Seq.step d ∧ t = cursor o id + j * (1 + Seq.speed d))
          ∧ Z.testbit w (Z.of_nat (2 * id)) = bool_decide (Seq.dir d = 1)
          ∧ Z.testbit w (Z.of_nat (16 + 2 * id)) = bool_decide (Seq.dir d = 1)
          ∧ Z.testbit w (Z.of_nat (16 + 2 * id + 1)) = false.
Proof.
  intros Hc Hid Hp Hact. destruct (compiling_inv o Hc) as (Hr & Hci & Hfi & _).
  destruct (add_seq_ready o id seq Hr Hci Hid)
    as [(dic & cls & m & b & Hp' & Hm & Hb & Heq)|(p & s & Hp' & _)];
    [|congruence].
  assert (dic = d) as -> by congruence.
  eexists. split; [exact Heq|]. intros t Ht.
  assert (timeline o = b) as Htl by (unfold timeline; by rewrite Hb).
  pose proof (Hci id) as Hcb. rewrite Htl in Hcb.
  unfold timeline; simpl. rewrite lookup_merged.
  pose proof (length_grown b (Seq.step d * (1 + Seq.speed d)) (cursor o id) Hcb) as Hlen.
  match type of Hlen with _ ≤ length ?b1 =>
    destruct (lookup_lt_is_Some_2 b1 t ltac:(lia)) as [x Hx] end.
  rewrite Hx; simpl. eexists. split; [done|].
  destruct (parse_Some_01 _ _ Hp) as [Ha Hdir].
  assert (id < 8) as Hid8 by (destruct Hr as (_ & ? & _); lia).
  assert (channel_bits id x = (false, false, false, false)) as Hx0.
  { apply lookup_grown in Hx as [Hx|[_ ->]]; [|apply channel_bits_0].
    apply (Hfi id t); [done|lia|]. by rewrite Htl. }
  pose proof (channel_bits_merged_word_own cls id 18 d (cursor o id) t x
                Hid8 Ha Hdir Hx0 Ht) as Hbits.
  unfold channel_bits in Hbits. injection Hbits as -> -> -> ->.
  rewrite (bool_decide_eq_true_2 (Seq.action d = 1)) by done.
  rewrite andb_true_r, bool_decide_eq_true, pulse_slot_iff. done.
Qed.

Lemma add_seq_pulse_slots_witness :
  ∃ o', Automat.add_seq 1 (Seq.Seq "a1_s5_d0_v1") example_configured = (Ok tt, o')
    ∧ ∀ t, cursor example_configured 1 ≤ t < cursor example_configured 1 + 5 * (1 + 1) →
        ∃ w, timeline o' !! t = Some w
          ∧ (Z.testbit w (Z.of_nat (2 * 1 + 1)) = true
             ↔ ∃ j, j < 5 ∧ t = cursor example_configured 1 + j * (1 + 1))
          ∧ Z.testbit w (Z.of_nat (2 * 1)) = bool_decide (0 = 1)
          ∧ Z.testbit w (Z.of_nat (16 + 2 * 1)) = bool_decide (0 = 1)
          ∧ Z.testbit w (Z.of_nat (16 + 2 * 1 + 1)) = false.
Proof.
  apply (add_seq_pulse_slots example_configured 1 (Seq.Seq "a1_s5_d0_v1")
           {| Seq.action := 1; Seq.step := 5; Seq.dir := 0; Seq.speed := 1 |}).
  - apply (compiling_configure example_plan). vm_compute. reflexivity.
  - vm_compute. lia.
  - vm_compute. reflexivity.
  - reflexivity.
Defined.

(** C2: the Timeline can end up longer than the longest channel.  For
    the plan whose channel 0 takes 4 slots and whose channel 1 takes 6,
    [__init__] completes with the cursors at 4 and 6 and a Timeline of
    10 slots, the last 4 of them empty: when channel 1 did not fit in
    the 4 existing slots, [add_seq] appended 6 new ones instead of the 2
    that were missing.  With the two sequences exchanged the Timeline
    has the 6 slots of the longest channel. *)
Theorem timeline_overshoots_longest_channel :
  let r := Automat.__init__ longer_second_plan 0 Automat.blank in
  let r' := Automat.__init__ longer_first_plan 0 Automat.blank in
  r.1 = Ok tt
  ∧ Automat._nb_motors r.2 = 2
  ∧ cursor r.2 0 = 4
  ∧ cursor r.2 1 = 6
  ∧ length (timeline r.2) = 10
  ∧ drop 6 (timeline r.2) = [0; 0; 0; 0]%Z
  ∧ r'.1 = Ok tt
  ∧ cursor r'.2 0 = 6
  ∧ cursor r'.2 1 = 4
  ∧ length (timeline r'.2) = 6.
Proof. by vm_compute. Qed.

(** C3: for a channel [id] in [0,7] and direction and action in {0,1},
    the pulse word of [convert_step] depends on nothing but the channel,
    the direction and the action; it fits in 32 bits; its direction bit
    [2*id] equals the direction in phase A and, at [16+2*id], in phase
    B; its step bit [2*id+1] equals the action in phase A; the phase-B
    step bit [16+2*id+1] is 0; and every other bit is 0. *)
Theorem convert_step_word (cls : Motor.driver) (id pin_sleep : nat) (dir action : Z) :
  id ≤ 7 → (dir = 0 ∨ dir = 1)%Z → (action = 0 ∨ action = 1)%Z →
  let w := Motor.convert_step (Motor.new cls id pin_sleep) dir action in
  let dirBit := (2 * Z.of_nat id)%Z in
  let stepBit := (2 * Z.of_nat id + 1)%Z in
  (∀ cls' pin_sleep',
     Motor.convert_step (Motor.new cls' id pin_sleep') dir action = w)
  ∧ (0 ≤ w < 2 ^ 32)%Z
  ∧ Z.testbit w dirBit = (dir =? 1)%Z
  ∧ Z.testbit w (16 + dirBit) = (dir =? 1)%Z
  ∧ Z.testbit w stepBit = (action =? 1)%Z
  ∧ Z.testbit w (16 + stepBit) = false
  ∧ ∀ n, n ≠ dirBit → n ≠ stepBit → n ≠ (16 + dirBit)%Z → Z.testbit w n = false.
Proof.
  intros Hid Hd Ha w dirBit stepBit.
  split; [done|]. split.
  { subst w. unfold Motor.convert_step, Motor.pin_dir, Motor.pin_step.
    cbn [Motor.new Motor._pin_dir Motor._pin_step].
    do 8 (destruct id as [|id]; [destruct Hd as [-> | ->], Ha as [-> | ->]; by vm_compute|]).
    lia. }
  subst w dirBit stepBit.
  repeat split; try (intros n H1 H2 H3); rewrite convert_step_testbit by done;
    repeat match goal with
      | |- context [(?a =? ?b)%Z] =>
          lazymatch a with
          | dir => fail | action => fail
          | _ => destruct (Z.eqb_spec a b); try (exfalso; lia)
          end
      end;
    by rewrite ?andb_true_r, ?andb_false_r, ?orb_false_r.
Qed.

Lemma convert_step_word_witness :
  let w := Motor.convert_step (Motor.new Motor.TMC2209 3 18) 1 1 in
  let dirBit := (2 * Z.of_nat 3)%Z in
  let stepBit := (2 * Z.of_nat 3 + 1)%Z in
  (∀ cls' pin_sleep',
     Motor.convert_step (Motor.new cls' 3 pin_sleep') 1 1 = w)
  ∧ (0 ≤ w < 2 ^ 32)%Z
  ∧ Z.testbit w dirBit = (1 =? 1)%Z
  ∧ Z.testbit w (16 + dirBit) = (1 =? 1)%Z
  ∧ Z.testbit w stepBit = (1 =? 1)%Z
  ∧ Z.testbit w (16 + stepBit) = false
  ∧ ∀ n, n ≠ dirBit → n ≠ stepBit → n ≠ (16 + dirBit)%Z → Z.testbit w n = false.
Proof.
  apply (convert_step_word Motor.TMC2209 3 18 1 1); [lia | by right | by right].
Defined.

(** C4: merging the requests of channel [id] loses no slot of the
    Timeline and, in every slot that existed before the merge, leaves
    the four bits [2*j], [2*j+1], [16+2*j] and [16+2*j+1] of every other
    channel [j] as they were.  Hence the order of two channels does not
    matter: when the merge of [id] and then of [j] succeeds, so does the
    merge of [j] and then of [id], and both leave every channel with
    the same cursor and the same four bits in every slot. *)
Theorem merge_keeps_other_channels (o : Automat.t) (id : nat) (gcodes : list string) :
  compiling o → id < Automat._nb_motors o →
  ∃ r o',
    Automat.for_ gcodes (fun gcode => Automat.add_seq id (Seq.Seq gcode)) o = (r, o')
    ∧ (∀ t w, timeline o !! t = Some w →
        ∃ w', timeline o' !! t = Some w'
          ∧ ∀ j, j < 8 → j ≠ id →
              Z.testbit w' (Z.of_nat (2 * j)) = Z.testbit w (Z.of_nat (2 * j))
              ∧ Z.testbit w' (Z.of_nat (2 * j + 1)) = Z.testbit w (Z.of_nat (2 * j + 1))
              ∧ Z.testbit w' (Z.of_nat (16 + 2 * j)) = Z.testbit w (Z.of_nat (16 + 2 * j))
              ∧ Z.testbit w' (Z.of_nat (16 + 2 * j + 1))
                = Z.testbit w (Z.of_nat (16 + 2 * j + 1)))
    ∧ (∀ j gcodes' o'',
         j < Automat._nb_motors o → j ≠ id → r = Ok tt →
         Automat.for_ gcodes' (fun gcode => Automat.add_seq j (Seq.Seq gcode)) o'
         = (Ok tt, o'') →
         ∃ oj oji,
           Automat.for_ gcodes' (fun gcode => Automat.add_seq j (Seq.Seq gcode)) o
           = (Ok tt, oj)
           ∧ Automat.for_ gcodes (fun gcode => Automat.add_seq id (Seq.Seq gcode)) oj
             = (Ok tt, oji)
           ∧ ∀ k, k < 8 →
               cursor o'' k = cursor oji k
               ∧ ∀ t, slot_bits o'' k t = slot_bits oji k t).
Proof.
  intros Hc Hid.
  destruct (add_seqs_spec id gcodes o Hc Hid) as (r & o' & Heq & _ & _ & _ & _ & Hk & _).
  exists r, o'. split; [done|]. split.
  - intros t w Hw.
    destruct (Hk t w Hw) as (w' & Hw' & Hbits).
    exists w'. split; [done|]. intros j Hj Hne.
    specialize (Hbits j Hj Hne). unfold channel_bits in Hbits.
    injection Hbits as H1 H2 H3 H4. repeat split; assumption.
  - intros j gcodes' o'' Hj Hne -> Hj'.
    destruct (merge_order o o' o'' id j gcodes gcodes' Hc Hid Hj ltac:(done) Heq Hj')
      as (oj & oji & ? & ? & Hsame).
    exists oj, oji. split; [done|]. split; [done|]. intros k Hk8. by apply Hsame.
Qed.

Lemma merge_keeps_other_channels_witness :
  ∃ r o',
    Automat.for_ ["a1_s5_d0_v1"] (fun gcode => Automat.add_seq 1 (Seq.Seq gcode))
      example_configured = (r, o')
    ∧ (∀ t w, timeline example_configured !! t = Some w →
        ∃ w', timeline o' !! t = Some w'
          ∧ ∀ j, j < 8 → j ≠ 1 →
              Z.testbit w' (Z.of_nat (2 * j)) = Z.testbit w (Z.of_nat (2 * j))
              ∧ Z.testbit w' (Z.of_nat (2 * j + 1)) = Z.testbit w (Z.of_nat (2 * j + 1))
              ∧ Z.testbit w' (Z.of_nat (16 + 2 * j)) = Z.testbit w (Z.of_nat (16 + 2 * j))
              ∧ Z.testbit w' (Z.of_nat (16 + 2 * j + 1))
                = Z.testbit w (Z.of_nat (16 + 2 * j + 1)))
    ∧ (∀ j gcodes' o'',
         j < Automat._nb_motors example_configured → j ≠ 1 → r = Ok tt →
         Automat.for_ gcodes' (fun gcode => Automat.add_seq j (Seq.Seq gcode)) o'
         = (Ok tt, o'') →
         ∃ oj oji,
           Automat.for_ gcodes' (fun gcode => Automat.add_seq j (Seq.Seq gcode))
             example_configured
           = (Ok tt, oj)
           ∧ Automat.for_ ["a1_s5_d0_v1"]
               (fun gcode => Automat.add_seq 1 (Seq.Seq gcode)) oj
             = (Ok tt, oji)
           ∧ ∀ k, k < 8 →
               cursor o'' k = cursor oji k
               ∧ ∀ t, slot_bits o'' k t = slot_bits oji k t).
Proof.
  apply (merge_keeps_other_channels example_configured 1 ["a1_s5_d0_v1"]).
  - apply (compiling_configure example_plan). vm_compute. reflexivity.
  - vm_compute. lia.
Defined.

(** C5: a request occupies [steps * (1 + speed)] time slots: [add_seq]
    advances the cursor of its channel by exactly that amount, leaves
    the other cursors alone and leaves every slot outside
    [cursor .. cursor + steps*(1+speed) - 1] as it was; 200 steps at
    speed 0 advance the cursor by 200, and 200 steps at speed 3 by 800. *)
Theorem add_seq_expanded_steps (o : Automat.t) (id : nat) (seq : Seq.t) (d : Seq.dic) :
  compiling o → id < Automat._nb_motors o → Seq.parse seq = Some d →
  ∃ o', Automat.add_seq id seq o = (Ok tt, o')
    ∧ cursor o' id = cursor o id + Seq.step d * (1 + Seq.speed d)
    ∧ (∀ j, j ≠ id → cursor o' j = cursor o j)
    ∧ (∀ t, cursor o id ≤ t < cursor o id + Seq.step d * (1 + Seq.speed d) →
            is_Some (timeline o' !! t))
    ∧ (∀ t w, ¬ (cursor o id ≤ t < cursor o id + Seq.step d * (1 + Seq.speed d)) →
              timeline o !! t = Some w → timeline o' !! t = Some w)
    ∧ (Seq.step d = 200 → Seq.speed d = 0 → cursor o' id = cursor o id + 200)
    ∧ (Seq.step d = 200 → Seq.speed d = 3 → cursor o' id = cursor o id + 800).
Proof.
  intros Hc Hid Hp. destruct (compiling_inv o Hc) as (Hr & Hci & Hfi & _).
  destruct (add_seq_ready o id seq Hr Hci Hid)
    as [(dic & cls & m & b & Hp' & Hm & Hb & Heq)|(p & s & Hp' & _)];
    [|congruence].
  assert (dic = d) as -> by congruence.
  eexists. split; [exact Heq|].
  assert (timeline o = b) as Htl by (unfold timeline; by rewrite Hb).
  pose proof (Hci id) as Hcb. rewrite Htl in Hcb.
  assert (∀ j, cursor (Automat.set_motors_len_seq
                         (<[id := cursor o id + Seq.step d * (1 + Seq.speed d)]> m)
                         (Automat.set_seq16bits
                            (merged (Motor.new cls id 18) d (cursor o id) b) o)) j
               = if decide (j = id)
                 then cursor o id + Seq.step d * (1 + Seq.speed d)
                 else cursor o j) as Hcur.
  { intros j. by apply cursor_after. }
  split; [by rewrite Hcur, decide_True|].
  split; [by intros j Hj; rewrite Hcur, decide_False|].
  split.
  { intros t Ht. unfold timeline; simpl. apply lookup_lt_is_Some_2.
    rewrite length_merged.
    destruct (Nat.ltb_spec (length b)
                (Seq.step d * (1 + Seq.speed d) + cursor o id)); lia. }
  split.
  { intros t w Ht Hw. unfold timeline; simpl. rewrite Htl in Hw.
    rewrite lookup_merged, (lookup_grown_old _ _ _ _ _ Hw). simpl.
    by rewrite merged_word_outside. }
  split; intros Hs Hk; rewrite Hcur, decide_True, Hs, Hk by done; lia.
Qed.

Lemma add_seq_expanded_steps_witness :
  ∃ o', Automat.add_seq 0 (Seq.Seq "a1_s200_d1_v3") example_configured = (Ok tt, o')
    ∧ cursor o' 0 = cursor example_configured 0 + 200 * (1 + 3)
    ∧ (∀ j, j ≠ 0 → cursor o' j = cursor example_configured j)
    ∧ (∀ t, cursor example_configured 0 ≤ t
              < cursor example_configured 0 + 200 * (1 + 3) →
            is_Some (timeline o' !! t))
    ∧ (∀ t w, ¬ (cursor example_configured 0 ≤ t
                   < cursor example_configured 0 + 200 * (1 + 3)) →
              timeline example_configured !! t = Some w →
              timeline o' !! t = Some w)
    ∧ (200 = 200 → 3 = 0 → cursor o' 0 = cursor example_configured 0 + 200)
    ∧ (200 = 200 → 3 = 3 → cursor o' 0 = cursor example_configured 0 + 800).
Proof.
  apply (add_seq_expanded_steps example_configured 0 (Seq.Seq "a1_s200_d1_v3")
           {| Seq.action := 1; Seq.step := 200; Seq.dir := 1; Seq.speed := 3 |}).
  - apply (compiling_configure example_plan). vm_compute. reflexivity.
  - vm_compute. lia.
  - vm_compute. reflexivity.
Defined.

(** C6: an instruction that follows the grammar
    [a<0|1>_s<digits>_d<0|1>_v<digits>] parses, and the four fields of
    the result are the textual ones: the action and direction flags, and
    the decimal values of the two digit strings, whatever their size. *)
Theorem parse_instruction (a d : bool) (s v : string) :
  digits s → digits v →
  Seq.parse (Seq.Seq (instruction a s d v))
  = Some {| Seq.action := Nat.b2n a; Seq.step := decimal s;
            Seq.dir := Nat.b2n d; Seq.speed := decimal v |}.
Proof.
  intros Hs Hv. unfold Seq.parse; simpl.
  rewrite match_pattern_instruction by done.
  by rewrite !int_bit, !int_decimal.
Qed.

Lemma parse_instruction_witness :
  Seq.parse (Seq.Seq (instruction true "00400" false "12"))
  = Some {| Seq.action := Nat.b2n true; Seq.step := decimal "00400";
            Seq.dir := Nat.b2n false; Seq.speed := decimal "12" |}.
Proof.
  apply (parse_instruction true false "00400" "12");
    (split; [discriminate | by vm_compute]).
Defined.

(** C7: a text outside the grammar yields no request at all: [parse]
    returns [None].  The caller treats it as fatal: [add_seq] then
    leaves through [exit] with status 1, the Timeline untouched and the
    state machine stopped; and a plan in which some motor's sequence
    contains such a text never gets as far as a replay: [__init__] ends
    with exit status 1 (or, when the key of a motor is missing from the
    plan, with the [KeyError] of that lookup) and no word was ever
    enqueued. *)
Theorem parse_failure_is_fatal (text : string) :
  ¬ in_grammar text →
  Seq.parse (Seq.Seq text) = None
  ∧ (∀ o id, compiling o → id < Automat._nb_motors o →
       ∃ o', Automat.add_seq id (Seq.Seq text) o = (Raise (SystemExit 1), o')
         ∧ timeline o' = timeline o
         ∧ (∀ j, cursor o' j = cursor o j)
         ∧ enqueued o' = []
         ∧ SM_16bits.active <$> Automat._sm o' = Some false)
  ∧ (∀ driver mode freq g interrupt i gcodes,
       i < motors_found g → g !! str i = Some gcodes → text ∈ gcodes →
       ∃ e o', Automat.__init__ (Template driver mode freq g) interrupt Automat.blank
               = (Raise e, o')
         ∧ (e = SystemExit 1
            ∨ (e = KeyError ∧ ∃ j, j < motors_found g ∧ g !! str j = None))
         ∧ enqueued o' = []).
Proof.
  intros Hbad. assert (Seq.parse (Seq.Seq text) = None) as Hp
    by (by apply parse_None_iff).
  split; [done|]. split.
  - intros o id Hc Hid. destruct (compiling_inv o Hc) as (Hr & Hci & _ & Henq).
    destruct (add_seq_ready o id (Seq.Seq text) Hr Hci Hid)
      as [(dic & _ & _ & _ & Hp' & _)|(p & s & _ & Hs & Heq)]; [congruence|].
    eexists. split; [exact Heq|]. repeat split; try done.
    unfold enqueued in *; simpl. by rewrite Hs in Henq.
  - intros driver mode freq g interrupt i gcodes Hi Hg Hin.
    unfold Automat.__init__.
    destruct (Automat.configure (Template driver mode freq g) Automat.blank)
      as [r1 o1] eqn:Hcfg.
    pose proof (configure_spec _ _ _ Hcfg)
      as [(-> & _ & Henq)|(-> & d & m & q & g' & [= <- <- <- <-] & Hcd & Hn)].
    { exists (SystemExit 1), o1. rewrite (bind_Raise _ _ _ _ _ Hcfg). auto. }
    destruct Hcd as (_ & _ & _ & _ & Hg1 & _).
    assert (compiling o1) as Hc1 by (by eapply compiling_configure).
    destruct (compile_spec o1 Hc1) as (r & o2 & Hcomp & Henq & _ & _ & Hres).
    rewrite (bind_Ok _ _ _ _ _ Hcfg).
    fold (motors_found g) in Hn.
    destruct Hres as [(-> & _ & Hall)|[(-> & _)|(-> & j & Hj & Hnone)]].
    + exfalso. rewrite Hg1 in Hall.
      destruct (Hall i ltac:(lia)) as (gcodes' & Hg' & Hgood).
      assert (gcodes' = gcodes) as -> by congruence.
      rewrite Forall_forall in Hgood. by apply Hbad, Hgood.
    + exists (SystemExit 1), o2. rewrite (bind_Raise _ _ _ _ _ Hcomp). auto.
    + exists KeyError, o2. rewrite (bind_Raise _ _ _ _ _ Hcomp).
      split; [done|]. split; [|done]. right. split; [done|].
      exists j. split; [lia | by rewrite <- Hg1].
Qed.

Lemma parse_failure_is_fatal_witness :
  Seq.parse (Seq.Seq "fake") = None
  ∧ (∀ o id, compiling o → id < Automat._nb_motors o →
       ∃ o', Automat.add_seq id (Seq.Seq "fake") o = (Raise (SystemExit 1), o')
         ∧ timeline o' = timeline o
         ∧ (∀ j, cursor o' j = cursor o j)
         ∧ enqueued o' = []
         ∧ SM_16bits.active <$> Automat._sm o' = Some false)
  ∧ (∀ driver mode freq g interrupt i gcodes,
       i < motors_found g → g !! str i = Some gcodes → "fake" ∈ gcodes →
       ∃ e o', Automat.__init__ (Template driver mode freq g) interrupt Automat.blank
               = (Raise e, o')
         ∧ (e = SystemExit 1
            ∨ (e = KeyError ∧ ∃ j, j < motors_found g ∧ g !! str j = None))
         ∧ enqueued o' = []).
Proof.
  apply (parse_failure_is_fatal "fake").
  intros Hin. apply parse_None_iff in Hin; [done|]. reflexivity.
Defined.

(** C8: with more than eight motors in the plan, [__init__] stops at the
    check of the motor count: it exits with status 1 before the state
    machine, the motors, the Timeline and the cursors are created, so
    that nothing is merged and nothing is enqueued. *)
Theorem too_many_motors_exit (driver mode : string) (freq : Z)
    (g : gmap string (list string)) (interrupt : nat) :
  8 < motors_found g →
  ∃ o', Automat.__init__ (Template driver mode freq g) interrupt Automat.blank
        = (Raise (SystemExit 1), o')
    ∧ (1 ≠ 0)%Z
    ∧ Automat._sm o' = None ∧ Automat._motors o' = None
    ∧ Automat._seq16bits o' = None ∧ Automat._motors_len_seq o' = None
    ∧ enqueued o' = [].
Proof.
  intros Hnb.
  exists (Automat.set_nb_motors (motors_found g)
            (Automat.set_config driver mode freq g Automat.blank)).
  split; [|done].
  unfold Automat.__init__. apply bind_Raise.
  unfold Automat.configure, Automat.read_gcode.
  rewrite bind_ret, bind_modify, bind_self, bind_modify, bind_self.
  change (Automat._gcode_seq (Automat.set_config _ _ _ g _)) with g.
  fold (motors_found g).
  change (Automat._nb_motors (Automat.set_nb_motors (motors_found g) _))
    with (motors_found g).
  destruct (Nat.ltb_spec 8 (motors_found g)) as [_|?]; [|lia].
  by rewrite (bind_Raise _ _ _ _ _
               (exit_early (Automat.set_nb_motors (motors_found g)
                              (Automat.set_config driver mode freq g Automat.blank))
                  eq_refl eq_refl)).
Qed.

Lemma too_many_motors_exit_witness :
  ∃ o', Automat.__init__ (Template "A4988" "ONE" 400000 nine_motors) 0 Automat.blank
        = (Raise (SystemExit 1), o')
    ∧ (1 ≠ 0)%Z
    ∧ Automat._sm o' = None ∧ Automat._motors o' = None
    ∧ Automat._seq16bits o' = None ∧ Automat._motors_len_seq o' = None
    ∧ enqueued o' = [].
Proof.
  apply (too_many_motors_exit "A4988" "ONE" 400000 nine_motors 0).
  vm_compute. lia.
Defined.

(** C9: one replay wakes the motors and hands the Timeline to the state
    machine: the words enqueued by [animate] are the words of the
    Timeline, all of them and in slot order, after whatever was enqueued
    before, and the Timeline itself is unchanged. *)
Theorem animate_enqueues_timeline (o : Automat.t) :
  ready o →
  ∃ o', Automat.animate o = (Ok tt, o')
    ∧ enqueued o' = enqueued o ++ timeline o
    ∧ length (enqueued o') = length (enqueued o) + length (timeline o)
    ∧ timeline o' = timeline o.
Proof.
  intros Hr. pose proof Hr as ([cls Hms] & Hnb & [s Hs] & [b Hb] & _).
  destruct (wake_motors_Ok _ o Hms) as [p Hp].
  { by rewrite length_fmap, length_range. }
  eexists. unfold Automat.animate. split.
  { rewrite (bind_Ok _ _ _ _ _ Hp). unfold Automat.sm_put.
    erewrite bind_attr; [|exact Hs]. erewrite bind_attr; [|exact Hb].
    reflexivity. }
  unfold enqueued, timeline; simpl. rewrite Hs, Hb; simpl.
  by rewrite length_app.
Qed.

Lemma animate_enqueues_timeline_witness :
  ∃ o', Automat.animate
          (Automat.add_seq 0 (Seq.Seq "a1_s10_d1_v0") example_configured).2
        = (Ok tt, o')
    ∧ enqueued o'
      = enqueued (Automat.add_seq 0 (Seq.Seq "a1_s10_d1_v0") example_configured).2
        ++ timeline (Automat.add_seq 0 (Seq.Seq "a1_s10_d1_v0") example_configured).2
    ∧ length (enqueued o')
      = length (enqueued (Automat.add_seq 0 (Seq.Seq "a1_s10_d1_v0") example_configured).2)
        + length (timeline (Automat.add_seq 0 (Seq.Seq "a1_s10_d1_v0") example_configured).2)
    ∧ timeline o'
      = timeline (Automat.add_seq 0 (Seq.Seq "a1_s10_d1_v0") example_configured).2.
Proof.
  apply (animate_enqueues_timeline
           (Automat.add_seq 0 (Seq.Seq "a1_s10_d1_v0") example_configured).2).
  apply compiling_inv.
  apply (compiling_add_seq example_configured _ 0 (Seq.Seq "a1_s10_d1_v0")).
  - apply (compiling_configure example_plan). vm_compute. reflexivity.
  - vm_compute. lia.
  - by vm_compute.
Defined.

(** C10: in every state of the compile loop no write cursor exceeds the
    length of the Timeline, and a call of [add_seq] keeps it so: it
    never raises [IndexError], and for a request that parses the growth
    step makes room for all the slots it writes: the last index
    [cursor + steps*(1+speed) - 1] is inside the new Timeline, whose
    length bounds every cursor again. *)
Theorem add_seq_in_bounds (o : Automat.t) (id : nat) (seq : Seq.t) :
  compiling o → id < Automat._nb_motors o →
  (∀ j, cursor o j ≤ length (timeline o))
  ∧ ∃ r o', Automat.add_seq id seq o = (r, o')
      ∧ r ≠ Raise IndexError
      ∧ ∀ d, Seq.parse seq = Some d →
          r = Ok tt
          ∧ cursor o id + Seq.step d * (1 + Seq.speed d) ≤ length (timeline o')
          ∧ length (timeline o')
            = (if length (timeline o) <? Seq.step d * (1 + Seq.speed d) + cursor o id
               then length (timeline o) + Seq.step d * (1 + Seq.speed d)
               else length (timeline o))
          ∧ ∀ j, cursor o' j ≤ length (timeline o').
Proof.
  intros Hc Hid. destruct (compiling_inv o Hc) as (Hr & Hci & Hfi & _).
  split; [exact Hci|].
  destruct (add_seq_ready o id seq Hr Hci Hid)
    as [(dic & cls & m & b & Hp & Hm & Hb & Heq)|(p & s & Hp & _ & Heq)];
    eexists _, _; (split; [exact Heq|]); (split; [done|]);
    intros d Hd; [|congruence].
  assert (dic = d) as -> by congruence.
  assert (compiling
            (Automat.set_motors_len_seq
               (<[id := cursor o id + Seq.step d * (1 + Seq.speed d)]> m)
               (Automat.set_seq16bits
                  (merged (Motor.new cls id 18) d (cursor o id) b) o))) as Hc'
    by (by eapply compiling_add_seq).
  destruct (compiling_inv _ Hc') as (_ & Hci' & _).
  assert (timeline o = b) as -> by (unfold timeline; by rewrite Hb).
  split; [done|]. split.
  { specialize (Hci' id). rewrite cursor_after in Hci' by done.
    by rewrite decide_True in Hci'. }
  split; [|exact Hci'].
  unfold timeline; simpl. apply length_merged.
Qed.

Lemma add_seq_in_bounds_witness :
  (∀ j, cursor example_configured j ≤ length (timeline example_configured))
  ∧ ∃ r o', Automat.add_seq 1 (Seq.Seq "a1_s5_d0_v1") example_configured = (r, o')
      ∧ r ≠ Raise IndexError
      ∧ ∀ d, Seq.parse (Seq.Seq "a1_s5_d0_v1") = Some d →
          r = Ok tt
          ∧ cursor example_configured 1 + Seq.step d * (1 + Seq.speed d)
            ≤ length (timeline o')
          ∧ length (timeline o')
            = (if length (timeline example_configured)
                    <? Seq.step d * (1 + Seq.speed d) + cursor example_configured 1
               then length (timeline example_configured)
                    + Seq.step d * (1 + Seq.speed d)
               else length (timeline example_configured))
          ∧ ∀ j, cursor o' j ≤ length (timeline o').
Proof.
  apply (add_seq_in_bounds example_configured 1 (Seq.Seq "a1_s5_d0_v1")).
  - apply (compiling_configure example_plan). vm_compute. reflexivity.
  - vm_compute. lia.
Defined.

(* ================================================================== *)
(** * Further properties                                                *)
(* ================================================================== *)

(** ** Pulse words of different motors *)

Section Disjoint.

Local Open Scope Z_scope.

(** X1: the pulse words of two different motors have no bit in common,
    whatever the directions and actions, so that adding them and
    or-ing them is the same. *)
Theorem convert_step_disjoint (c c' : Motor.driver) (i j ps ps' : nat)
    (dir action dir' action' : Z) :
  (i ≤ 7)%nat → (j ≤ 7)%nat → i ≠ j →
  dir = 0 ∨ dir = 1 → action = 0 ∨ action = 1 →
  dir' = 0 ∨ dir' = 1 → action' = 0 ∨ action' = 1 →
  let w := Motor.convert_step (Motor.new c i ps) dir action in
  let w' := Motor.convert_step (Motor.new c' j ps') dir' action' in
  Z.land w w' = 0 ∧ w + w' = Z.lor w w'.
Proof.
  intros Hi Hj Hne Hd Ha Hd' Ha' w w'.
  assert (∀ n, Z.testbit w n && Z.testbit w' n = false) as Hbits.
  { intros n. subst w w'. rewrite !convert_step_testbit by done.
    repeat match goal with
      | |- context [(n =? ?b)] => destruct (Z.eqb_spec n b)
      end; rewrite ?andb_false_r, ?orb_false_r; try done; exfalso; lia. }
  split; [|by apply add_disjoint_lor].
  apply Z.bits_inj'. intros n _. by rewrite Z.land_spec, Z.bits_0.
Qed.

Lemma convert_step_disjoint_witness :
  let w := Motor.convert_step (Motor.new Motor.A4988 0 18) 1 1 in
  let w' := Motor.convert_step (Motor.new Motor.A4988 7 18) 1 1 in
  Z.land w w' = 0 ∧ w + w' = Z.lor w w'.
Proof.
  apply (convert_step_disjoint Motor.A4988 Motor.A4988 0 7 18 18 1 1 1 1);
    first [lia | by right].
Defined.

End Disjoint.

(** ** More on [add_seq] *)

Section MoreAddSeq.

Import Automat.

(** X2: a request with action "stop" holds its channel still: in every
    slot of its range the step bit is clear in both phases, and the
    direction bit of both phases is the direction of the request. *)
Theorem add_seq_stop_request (o : t) (id : nat) (seq : Seq.t) (d : Seq.dic) :
  compiling o → id < _nb_motors o →
  Seq.parse seq = Some d → Seq.action d = 0 →
  ∃ o', add_seq id seq o = (Ok tt, o')
    ∧ ∀ t, cursor o id ≤ t < cursor o id + Seq.step d * (1 + Seq.speed d) →
        ∃ w, timeline o' !! t = Some w
          ∧ Z.testbit w (Z.of_nat (2 * id + 1)) = false
          ∧ Z.testbit w (Z.of_nat (16 + 2 * id + 1)) = false
          ∧ Z.testbit w (Z.of_nat (2 * id)) = bool_decide (Seq.dir d = 1)
          ∧ Z.testbit w (Z.of_nat (16 + 2 * id)) = bool_decide (Seq.dir d = 1).
Proof.
  intros Hc Hid Hp Hact.
  destruct (add_seq_view o id seq d Hc Hid Hp) as (o' & Heq & _ & Hbits).
  exists o'. split; [done|]. intros t Ht.
  assert (id < 8) as Hid8.
  { destruct (compiling_inv o Hc) as ((_ & ? & _) & _). lia. }
  specialize (Hbits id t Hid8). rewrite decide_True in Hbits by done.
  assert (is_Some (timeline o' !! t)) as [w Hw].
  { destruct (add_seq_Ok_inv o o' id seq Hc Hid Heq) as (Hc' & _).
    destruct (compiling_inv o' Hc') as (_ & Hci' & _).
    apply lookup_lt_is_Some_2. specialize (Hci' id).
    destruct (add_seq_view o id seq d Hc Hid Hp) as (o2 & Heq2 & Hcur & _).
    rewrite Heq in Heq2. injection Heq2 as <-.
    rewrite Hcur, decide_True in Hci' by done. lia. }
  exists w. split; [done|].
  unfold slot_bits, request_bits, channel_bits in Hbits. rewrite Hw in Hbits.
  simpl in Hbits. injection Hbits as H1 H2 H3 H4.
  rewrite Hact in H2. rewrite andb_false_r in H2. repeat split; assumption.
Qed.

Lemma add_seq_stop_request_witness :
  ∃ o', add_seq 0 (Seq.Seq "a0_s3_d1_v2") example_configured = (Ok tt, o')
    ∧ ∀ t, cursor example_configured 0 ≤ t < cursor example_configured 0 + 3 * (1 + 2) →
        ∃ w, timeline o' !! t = Some w
          ∧ Z.testbit w (Z.of_nat (2 * 0 + 1)) = false
          ∧ Z.testbit w (Z.of_nat (16 + 2 * 0 + 1)) = false
          ∧ Z.testbit w (Z.of_nat (2 * 0)) = bool_decide (1 = 1)
          ∧ Z.testbit w (Z.of_nat (16 + 2 * 0)) = bool_decide (1 = 1).
Proof.
  apply (add_seq_stop_request example_configured 0 (Seq.Seq "a0_s3_d1_v2")
           {| Seq.action := 0; Seq.step := 3; Seq.dir := 1; Seq.speed := 2 |}).
  - apply (compiling_configure example_plan). vm_compute. reflexivity.
  - vm_compute. lia.
  - vm_compute. reflexivity.
  - reflexivity.
Defined.

Lemma set_motors_len_seq_id (o : t) (d : gmap nat nat) :
  _motors_len_seq o = Some d → set_motors_len_seq d o = o.
Proof. destruct o; simpl. by intros ->. Qed.

(** X3: a request of zero steps changes nothing at all: [add_seq]
    returns and the object is as it was. *)
Theorem add_seq_zero_steps (o : t) (id : nat) (seq : Seq.t) (d : Seq.dic) :
  compiling o → id < _nb_motors o →
  Seq.parse seq = Some d → Seq.step d = 0 →
  add_seq id seq o = (Ok tt, o).
Proof.
  intros Hc Hid Hp Hs. destruct (compiling_inv o Hc) as (Hr & Hci & _).
  destruct (add_seq_ready o id seq Hr Hci Hid)
    as [(dic & cls & m & b & Hp' & Hm & Hb & Heq)|(p & s & Hp' & _)];
    [|congruence].
  assert (dic = d) as -> by congruence.
  rewrite Heq. f_equal.
  assert (merged (Motor.new cls id 18) d (cursor o id) b = b) as ->.
  { unfold merged. rewrite Hs, range3_steps. cbv zeta.
    change (range (0 * (1 + Seq.speed d))) with (@nil nat).
    change (range 0) with (@nil nat). cbn [fmap list_fmap ior_all foldl].
    change (replicate (0 * (1 + Seq.speed d)) 0%Z) with (@nil Z).
    destruct (length b <? _); [apply app_nil_r | done]. }
  rewrite Hs, Nat.mul_0_l, Nat.add_0_r.
  rewrite set_seq16bits_id by done.
  rewrite insert_id; [by apply set_motors_len_seq_id|].
  unfold cursor. rewrite Hm; simpl.
  destruct Hr as (_ & Hnb & _ & _ & d' & Hd' & Hkeys).
  assert (d' = m) as -> by congruence.
  destruct (Hkeys id ltac:(lia)) as [c ->]. done.
Qed.

Lemma add_seq_zero_steps_witness :
  add_seq 1 (Seq.Seq "a1_s0_d1_v5") example_configured
  = (Ok tt, example_configured).
Proof.
  apply (add_seq_zero_steps example_configured 1 (Seq.Seq "a1_s0_d1_v5")
           {| Seq.action := 1; Seq.step := 0; Seq.dir := 1; Seq.speed := 5 |}).
  - apply (compiling_configure example_plan). vm_compute. reflexivity.
  - vm_compute. lia.
  - vm_compute. reflexivity.
  - reflexivity.
Defined.

End MoreAddSeq.

(** ** Invariants of the Timeline *)

Section TimelineInvariants.

Import Automat.

Lemma releases_channel_bits (w : Z) :
  releases w
  ↔ ∀ j, j < 8 → ∃ a b, channel_bits j w = (a, b, a, false).
Proof.
  unfold releases, channel_bits. split; intros H j Hj.
  - destruct (H j Hj) as [-> ->]. by eexists _, _.
  - destruct (H j Hj) as (a & b & [= H1 H2 H3 H4]).
    split; [etrans; [exact H3 | symmetry; exact H1] | exact H4].
Qed.

Lemma releases_lor (x y : Z) : releases x → releases y → releases (Z.lor x y).
Proof.
  intros Hx Hy j Hj. destruct (Hx j Hj) as [Hx1 Hx2], (Hy j Hj) as [Hy1 Hy2].
  by rewrite !Z.lor_spec, Hx1, Hx2, Hy1, Hy2.
Qed.

Lemma releases_0 : releases 0.
Proof. intros j _. by rewrite !Z.bits_0. Qed.

Lemma releases_convert_step (cls : Motor.driver) (id ps dir action : nat) :
  id < 8 → dir ≤ 1 → action ≤ 1 →
  releases (Motor.convert_step (Motor.new cls id ps) (Z.of_nat dir) (Z.of_nat action)).
Proof.
  intros Hid Hd Ha. apply releases_channel_bits. intros j Hj.
  rewrite channel_bits_convert_step by done. case_decide; by eexists _, _.
Qed.

Lemma releases_merged_word (cls : Motor.driver) (id ps : nat) (d : Seq.dic)
    (c t : nat) (x : Z) :
  id < 8 → Seq.action d ≤ 1 → Seq.dir d ≤ 1 →
  releases x → releases (merged_word (Motor.new cls id ps) d c t x).
Proof.
  intros Hid Ha Hd Hx. unfold merged_word.
  pose proof (releases_convert_step cls id ps (Seq.dir d) 0 Hid Hd ltac:(lia)) as H0.
  pose proof (releases_convert_step cls id ps (Seq.dir d) (Seq.action d) Hid Hd Ha) as H1.
  change (Z.of_nat 0) with 0%Z in H0.
  repeat case_bool_decide; auto using releases_lor.
Qed.

Lemma compiling_releases (o : t) : compiling o → Forall releases (timeline o).
Proof.
  induction 1 as [f o Hcfg | o o' id seq Hc IH Hid Hadd].
  - apply configure_spec in Hcfg as [(? & _)|(_ & d & m & q & g & _ & Hcd & _)];
      [done|].
    destruct Hcd as (_ & -> & _). constructor.
  - destruct (compiling_inv o Hc) as (Hr & Hci & _).
    destruct (add_seq_ready o id seq Hr Hci Hid)
      as [(dic & cls & d & b & Hp & Hd & Hb & Heq)|(p & s & _ & _ & Heq)];
      rewrite Heq in Hadd; [|done].
    injection Hadd as <-.
    destruct (parse_Some_01 _ _ Hp) as [Ha Hdir].
    assert (id < 8) as Hid8 by (destruct Hr as (_ & ? & _); lia).
    unfold timeline in *; simpl. rewrite Hb in IH; simpl in IH.
    apply Forall_lookup. intros t w. rewrite lookup_merged.
    destruct (_ !! t) as [x|] eqn:Hx; [|done]. simpl. intros [= <-].
    apply releases_merged_word; try done.
    apply lookup_grown in Hx as [Hx|[_ ->]]; [|apply releases_0].
    by eapply Forall_lookup_1.
Qed.

(** X4: every word of the Timeline, at any point of the compilation,
    fits the unsigned 32-bit items of the array, repeats in phase B the
    direction lines of phase A, and has every step line low in phase B:
    a pulse raised in the first half of a slot is always released in
    its second half. *)
Theorem timeline_words_release (o : t) (t : nat) (w : Z) :
  compiling o → timeline o !! t = Some w →
  (0 ≤ w < 2 ^ 32)%Z
  ∧ ∀ j, j < 8 →
      Z.testbit w (Z.of_nat (16 + 2 * j)) = Z.testbit w (Z.of_nat (2 * j))
      ∧ Z.testbit w (Z.of_nat (16 + 2 * j + 1)) = false.
Proof.
  intros Hc Hw. split.
  - by apply (Forall_lookup_1 _ _ _ _ (compiling_word32 o Hc) Hw).
  - by apply (Forall_lookup_1 _ _ _ _ (compiling_releases o Hc) Hw).
Qed.

Lemma timeline_words_release_witness :
  (0 ≤ 65547 < 2 ^ 32)%Z
  ∧ ∀ j, j < 8 →
      Z.testbit 65547 (Z.of_nat (16 + 2 * j)) = Z.testbit 65547 (Z.of_nat (2 * j))
      ∧ Z.testbit 65547 (Z.of_nat (16 + 2 * j + 1)) = false.
Proof.
  apply (timeline_words_release
           (compile example_configured).2 0 65547).
  - apply (compiling_add_seq
             (add_seq 0 (Seq.Seq "a1_s10_d1_v0") example_configured).2
             _ 1 (Seq.Seq "a1_s5_d0_v1")).
    + apply (compiling_add_seq example_configured _ 0 (Seq.Seq "a1_s10_d1_v0")).
      * apply (compiling_configure example_plan). vm_compute. reflexivity.
      * vm_compute. lia.
      * vm_compute. reflexivity.
    + vm_compute. lia.
    + vm_compute. reflexivity.
  - vm_compute. reflexivity.
Defined.

Lemma total_cursors_unfold (o : t) :
  total_cursors o
  = cursor o 0 + cursor o 1 + cursor o 2 + cursor o 3
    + cursor o 4 + cursor o 5 + cursor o 6 + cursor o 7.
Proof. unfold total_cursors. simpl. lia. Qed.

Lemma compiling_length_le_total (o : t) :
  compiling o → length (timeline o) ≤ total_cursors o.
Proof.
  induction 1 as [f o Hcfg | o o' id seq Hc IH Hid Hadd].
  - apply configure_spec in Hcfg as [(? & _)|(_ & d & m & q & g & _ & Hcd & _)];
      [done|].
    destruct Hcd as (_ & -> & _). simpl. lia.
  - destruct (compiling_inv o Hc) as (Hr & Hci & _).
    destruct (add_seq_ready o id seq Hr Hci Hid)
      as [(dic & cls & d & b & Hp & Hd & Hb & Heq)|(p & s & _ & _ & Heq)];
      rewrite Heq in Hadd; [|done].
    injection Hadd as <-.
    assert (id < 8) as Hid8 by (destruct Hr as (_ & ? & _); lia).
    assert (timeline o = b) as Htl by (unfold timeline; by rewrite Hb).
    rewrite Htl in IH.
    rewrite !total_cursors_unfold in *.
    rewrite !cursor_after by done.
    unfold timeline; simpl. rewrite length_merged.
    destruct (Nat.ltb_spec (length b)
                (Seq.step dic * (1 + Seq.speed dic) + cursor o id));
      do 8 (destruct id as [|id]; [simpl; lia|]); lia.
Qed.

(** X5: the length of the Timeline lies between the largest write
    cursor and the sum of the eight write cursors; it is therefore the
    cursor of a channel when no other channel has been merged. *)
Theorem timeline_length_bounds (o : t) (id : nat) :
  compiling o →
  cursor o id ≤ length (timeline o)
  ∧ length (timeline o) ≤ total_cursors o
  ∧ ((∀ k, k ≠ id → cursor o k = 0) → length (timeline o) = cursor o id).
Proof.
  intros Hc. destruct (compiling_inv o Hc) as (_ & Hci & _).
  pose proof (compiling_length_le_total o Hc) as Hle.
  split; [apply Hci|]. split; [done|]. intros Hz.
  apply Nat.le_antisymm; [|apply Hci].
  rewrite total_cursors_unfold in Hle.
  destruct (decide (id < 8)) as [Hid|Hid].
  - do 8 (destruct id as [|id];
          [rewrite ?(Hz 0), ?(Hz 1), ?(Hz 2), ?(Hz 3), ?(Hz 4), ?(Hz 5),
             ?(Hz 6), ?(Hz 7) in Hle by lia; lia|]).
    lia.
  - rewrite !Hz in Hle by lia. lia.
Qed.

Lemma timeline_length_bounds_witness :
  cursor (compile example_configured).2 1
  ≤ length (timeline (compile example_configured).2)
  ∧ length (timeline (compile example_configured).2)
    ≤ total_cursors (compile example_configured).2
  ∧ ((∀ k, k ≠ 1 → cursor (compile example_configured).2 k = 0) →
     length (timeline (compile example_configured).2)
     = cursor (compile example_configured).2 1).
Proof.
  apply (timeline_length_bounds (compile example_configured).2 1).
  apply (compiling_add_seq
           (add_seq 0 (Seq.Seq "a1_s10_d1_v0") example_configured).2
           _ 1 (Seq.Seq "a1_s5_d0_v1")).
  - apply (compiling_add_seq example_configured _ 0 (Seq.Seq "a1_s10_d1_v0")).
    + apply (compiling_configure example_plan). vm_compute. reflexivity.
    + vm_compute. lia.
    + vm_compute. reflexivity.
  - vm_compute. lia.
  - vm_compute. reflexivity.
Defined.

End TimelineInvariants.

(** ** The motors' sleep pin and the state machine *)

Section Hardware.

Import Automat.
Local Open Scope py_scope.

Lemma for__motors_pin18 (v : Z) (f : Motor.t → gmap nat Z → gmap nat Z)
    (ms : list Motor.t) (l : list nat) (o : t) :
  _motors o = Some ms → (∀ i, i ∈ l → i < length ms) →
  (∀ m p, m ∈ ms → f m p = <[18 := v]> p) →
  for_ l (fun i =>
    m <- motor i ;; modify (fun o => set_pins (f m (pins o)) o)) o
  = (Ok tt, match l with
            | [] => o
            | _ :: _ => set_pins (<[18 := v]> (pins o)) o
            end).
Proof.
  intros Hms Hl Hf. revert o Hms.
  induction l as [|i l IH]; intros o Hms; [done|]. simpl.
  destruct (lookup_lt_is_Some_2 ms i) as [m Hm]; [apply Hl; left|].
  erewrite bind_Ok.
  2:{ by rewrite (bind_motor _ _ _ _ _ Hms Hm). }
  rewrite Hf by (by eapply list_elem_of_lookup_2).
  rewrite IH; [|intros j Hj; apply Hl; by right|done].
  destruct l; [done|]. simpl. by rewrite insert_insert_eq.
Qed.

(** The motors of a ready object, with their common class. *)
Lemma ready_motors (o : t) :
  ready o →
  ∃ c, _motors o = Some ((fun i => Motor.new c i 18) <$> range (_nb_motors o))
       ∧ motors o = (fun i => Motor.new c i 18) <$> range (_nb_motors o)
       ∧ ∀ m, m ∈ motors o → Motor.cls m = c ∧ Motor.pin_sleep m = 18.
Proof.
  intros ([c Hms] & _). exists c. split; [done|].
  unfold motors. rewrite Hms. split; [done|].
  intros m (i & -> & _)%list_elem_of_fmap. done.
Qed.

Lemma pins_loop_ready (key : Motor.mode) (f : Motor.t → gmap nat Z → gmap nat Z)
    (o : t) :
  ready o →
  (∀ m p, f m p = <[Motor.pin_sleep m := Motor.MODE (Motor.cls m) key]> p) →
  ∃ o',
    for_ (range (_nb_motors o)) (fun i =>
      m <- motor i ;; modify (fun o => set_pins (f m (pins o)) o)) o
    = (Ok tt, o')
    ∧ (∀ m, m ∈ motors o' →
         pins o' !! Motor.pin_sleep m = Some (Motor.MODE (Motor.cls m) key))
    ∧ (∀ p, p ≠ 18 → pins o' !! p = pins o !! p)
    ∧ _sm o' = _sm o ∧ _motors o' = _motors o ∧ _seq16bits o' = _seq16bits o
    ∧ _motors_len_seq o' = _motors_len_seq o ∧ _nb_motors o' = _nb_motors o
    ∧ _mode o' = _mode o ∧ _gcode_seq o' = _gcode_seq o ∧ _driver o' = _driver o.
Proof.
  intros Hr Hf. destruct (ready_motors o Hr) as (c & Hms & Hmo & Hall).
  eexists. split.
  { apply (for__motors_pin18 (Motor.MODE c key) f _ _ o Hms).
    - intros i Hi%elem_of_range. by rewrite length_fmap, length_range.
    - intros m p Hm. rewrite Hf.
      destruct (Hall m) as [-> ->]; [by rewrite Hmo|done]. }
  destruct (range (_nb_motors o)) as [|i l] eqn:Hl.
  - repeat split; try done. intros m. rewrite Hmo. by intros ?%elem_of_nil.
  - repeat split; try done.
    + intros m Hm. destruct (Hall m Hm) as [-> ->]. simpl.
      by rewrite lookup_insert_eq.
    + intros p Hp. simpl. by rewrite lookup_insert_ne.
Qed.

End Hardware.

Section ExitAndReplay.

Import Automat.
Local Open Scope py_scope.

Lemma ready_set_sm (o : t) (s : SM_16bits.t) : ready o → ready (set_sm s o).
Proof.
  intros (Hms & Hnb & _ & Hb & Hd). repeat split; try done; by eexists.
Qed.

Lemma ready_set_pins (o : t) (p : gmap nat Z) : ready o → ready (set_pins p o).
Proof. intros (Hms & Hnb & Hs & Hb & Hd). by repeat split. Qed.

(** [exit] in a state where everything is set up. *)
Lemma exit_ready_state (o : t) :
  ready o →
  ∃ o' s,
    exit o = (Raise (SystemExit 1), o')
    ∧ _sm o = Some s ∧ _sm o' = Some (SM_16bits.stop s)
    ∧ asleep o'
    ∧ (∀ p, p ≠ 18 → pins o' !! p = pins o !! p)
    ∧ _motors o' = _motors o ∧ _seq16bits o' = _seq16bits o
    ∧ _motors_len_seq o' = _motors_len_seq o ∧ _nb_motors o' = _nb_motors o.
Proof.
  intros Hr. pose proof Hr as ([c Hms] & _ & [s Hs] & _).
  destruct (pins_loop_ready Motor.key_sleep Motor.sleep (set_sm (SM_16bits.stop s) o))
    as (o' & Hloop & Hasleep & Hpins & Hsm & Hm & Hb & Hd & Hn & _);
    [by apply ready_set_sm | done |].
  exists o', s. split.
  { unfold exit. rewrite (bind_Ok _ _ _ o true) by (unfold hasattr; by rewrite Hs).
    erewrite bind_Ok; [|by rewrite (bind_attr _ _ _ _ Hs)].
    rewrite (bind_Ok _ _ _ (set_sm (SM_16bits.stop s) o) true)
      by (unfold hasattr; simpl; by rewrite Hms).
    erewrite bind_Ok; [done|]. unfold sleep_motors. by rewrite bind_self. }
  by repeat split.
Qed.

(** X6: once the motors and the state machine exist, [exit] stops the
    state machine, drives the sleep pin of every motor to the sleep
    level of its driver, and ends the program with status 1; the
    Timeline, the cursors, the words already enqueued and the other
    pins are left alone. *)
Theorem exit_stops_and_sleeps (o : t) :
  ready o →
  ∃ o', exit o = (Raise (SystemExit 1), o')
    ∧ sm_active o' = Some false
    ∧ asleep o'
    ∧ (∀ p, p ≠ 18 → pins o' !! p = pins o !! p)
    ∧ timeline o' = timeline o
    ∧ enqueued o' = enqueued o
    ∧ ∀ k, cursor o' k = cursor o k.
Proof.
  intros Hr.
  destruct (exit_ready_state o Hr)
    as (o' & s & Heq & Hs & Hs' & Hasleep & Hpins & _ & Hb & Hd & _).
  exists o'. split; [done|].
  unfold sm_active, timeline, enqueued, cursor. rewrite Hs', Hs, Hb, Hd.
  by repeat split.
Qed.

Lemma exit_stops_and_sleeps_witness :
  ∃ o', exit example_configured = (Raise (SystemExit 1), o')
    ∧ sm_active o' = Some false
    ∧ asleep o'
    ∧ (∀ p, p ≠ 18 → pins o' !! p = pins example_configured !! p)
    ∧ timeline o' = timeline example_configured
    ∧ enqueued o' = enqueued example_configured
    ∧ ∀ k, cursor o' k = cursor example_configured k.
Proof.
  apply (exit_stops_and_sleeps example_configured).
  apply compiling_inv.
  apply (compiling_configure example_plan). vm_compute. reflexivity.
Defined.

(** [wake_motors] in a state where everything is set up. *)
Lemma wake_motors_ready (o : t) :
  ready o →
  ∃ o', wake_motors o = (Ok tt, o')
    ∧ awake o'
    ∧ (∀ p, p ≠ 18 → pins o' !! p = pins o !! p)
    ∧ _sm o' = _sm o ∧ _motors o' = _motors o ∧ _seq16bits o' = _seq16bits o
    ∧ _motors_len_seq o' = _motors_len_seq o ∧ _nb_motors o' = _nb_motors o.
Proof.
  intros Hr.
  destruct (pins_loop_ready Motor.key_wake Motor.wake o Hr)
    as (o' & Hloop & Hawake & Hpins & Hsm & Hm & Hb & Hd & Hn & _); [done|].
  exists o'. split; [|done]. unfold wake_motors. by rewrite bind_self.
Qed.

Lemma ready_kept (o o' : t) :
  ready o →
  _sm o' = _sm o → _motors o' = _motors o → _seq16bits o' = _seq16bits o →
  _motors_len_seq o' = _motors_len_seq o → _nb_motors o' = _nb_motors o →
  ready o'.
Proof. unfold ready. by intros Hr -> -> -> -> ->. Qed.

(** [sm_put] any number of times. *)
Lemma for__sm_put (n : nat) (o : t) (s : SM_16bits.t) (b : list Z) :
  _sm o = Some s → _seq16bits o = Some b →
  for_ (range n) (fun _ => sm_put) o
  = (Ok tt,
     match n with
     | 0 => o
     | S _ => set_sm {| SM_16bits.freq := SM_16bits.freq s;
                        SM_16bits.active := SM_16bits.active s;
                        SM_16bits.tx := SM_16bits.tx s ++ concat (replicate n b) |} o
     end).
Proof.
  unfold range. generalize 0 as k. revert o s.
  induction n as [|n IH]; intros o s k Hs Hb; [done|]. simpl.
  erewrite bind_Ok.
  2:{ unfold sm_put. rewrite (bind_attr _ _ _ _ Hs), (bind_attr _ _ _ _ Hb).
      reflexivity. }
  rewrite (IH _ (SM_16bits.put s b)) by done.
  destruct n as [|n]; simpl.
  - by rewrite app_nil_r.
  - by rewrite <- app_assoc.
Qed.

(** [animate_infinite_loop] in a state where everything is set up. *)
Lemma animate_infinite_loop_ready (n : nat) (o : t) :
  ready o →
  ∃ o', animate_infinite_loop n o = (Raise (SystemExit 1), o')
    ∧ enqueued o' = enqueued o ++ concat (replicate n (timeline o))
    ∧ timeline o' = timeline o
    ∧ sm_active o' = Some false
    ∧ asleep o'.
Proof.
  intros Hr.
  destruct (wake_motors_ready o Hr)
    as (o1 & Hwake & _ & _ & Hsm1 & Hm1 & Hb1 & Hd1 & Hn1).
  pose proof (ready_kept o o1 Hr Hsm1 Hm1 Hb1 Hd1 Hn1) as Hr1.
  pose proof Hr as (_ & _ & [s Hs] & [b Hb] & _).
  assert (_sm o1 = Some s) as Hs1 by congruence.
  assert (_seq16bits o1 = Some b) as Hbo1 by congruence.
  pose proof (for__sm_put n o1 s b Hs1 Hbo1) as Hputs.
  set (o2 := match n with
             | 0 => o1
             | S _ => set_sm {| SM_16bits.freq := SM_16bits.freq s;
                                SM_16bits.active := SM_16bits.active s;
                                SM_16bits.tx := SM_16bits.tx s ++ concat (replicate n b) |} o1
             end) in *.
  assert (ready o2) as Hr2 by (subst o2; destruct n; [done | by apply ready_set_sm]).
  assert (enqueued o2 = enqueued o ++ concat (replicate n b)
          ∧ _seq16bits o2 = Some b) as [Henq2 Hb2].
  { subst o2. unfold enqueued. destruct n; simpl.
    - rewrite Hs1, Hs. simpl. by rewrite app_nil_r.
    - by rewrite Hs. }
  destruct (exit_ready_state o2 Hr2)
    as (o' & s2 & Hexit & Hs2 & Hs' & Hasleep & _ & _ & Hb' & _).
  exists o'. split.
  { unfold animate_infinite_loop.
    rewrite (bind_Ok _ _ _ _ _ Hwake), (bind_Ok _ _ _ _ _ Hputs). exact Hexit. }
  assert (timeline o = b) as -> by (unfold timeline; by rewrite Hb).
  split; [|split; [|split]]; try done.
  - rewrite <- Henq2. unfold enqueued. by rewrite Hs', Hs2.
  - unfold timeline. by rewrite Hb', Hb2.
  - unfold sm_active. by rewrite Hs'.
Qed.

(** X7: the endless replay, interrupted after [n] rounds, has enqueued
    the whole Timeline [n] times over, in order, and then leaves through
    [exit]: state machine stopped, motors asleep, status 1. *)
Theorem animate_infinite_loop_rounds (n : nat) (o : t) :
  ready o →
  ∃ o', animate_infinite_loop n o = (Raise (SystemExit 1), o')
    ∧ enqueued o' = enqueued o ++ concat (replicate n (timeline o))
    ∧ timeline o' = timeline o
    ∧ sm_active o' = Some false
    ∧ asleep o'.
Proof. apply animate_infinite_loop_ready. Qed.

Lemma animate_infinite_loop_rounds_witness :
  ∃ o', animate_infinite_loop 3 (compile example_configured).2
        = (Raise (SystemExit 1), o')
    ∧ enqueued o'
      = enqueued (compile example_configured).2
        ++ concat (replicate 3 (timeline (compile example_configured).2))
    ∧ timeline o' = timeline (compile example_configured).2
    ∧ sm_active o' = Some false
    ∧ asleep o'.
Proof.
  apply (animate_infinite_loop_rounds 3 (compile example_configured).2).
  apply compiling_inv.
  apply (compiling_add_seq
           (add_seq 0 (Seq.Seq "a1_s10_d1_v0") example_configured).2
           _ 1 (Seq.Seq "a1_s5_d0_v1")).
  - apply (compiling_add_seq example_configured _ 0 (Seq.Seq "a1_s10_d1_v0")).
    + apply (compiling_configure example_plan). vm_compute. reflexivity.
    + vm_compute. lia.
    + vm_compute. reflexivity.
  - vm_compute. lia.
  - vm_compute. reflexivity.
Defined.

(** [animate] in a state where everything is set up. *)
Lemma animate_ready (o : t) :
  ready o →
  ∃ o' s b, animate o = (Ok tt, o')
    ∧ _sm o = Some s ∧ _seq16bits o = Some b
    ∧ _sm o' = Some (SM_16bits.put s b)
    ∧ awake o'
    ∧ (∀ p, p ≠ 18 → pins o' !! p = pins o !! p)
    ∧ _motors o' = _motors o ∧ _seq16bits o' = _seq16bits o
    ∧ _motors_len_seq o' = _motors_len_seq o ∧ _nb_motors o' = _nb_motors o.
Proof.
  intros Hr.
  destruct (wake_motors_ready o Hr)
    as (o1 & Hwake & Hawake & Hpins & Hsm1 & Hm1 & Hb1 & Hd1 & Hn1).
  pose proof Hr as (_ & _ & [s Hs] & [b Hb] & _).
  exists (set_sm (SM_16bits.put s b) o1), s, b. split.
  { unfold animate. rewrite (bind_Ok _ _ _ _ _ Hwake). unfold sm_put.
    erewrite bind_attr; [|by rewrite Hsm1].
    erewrite bind_attr; [|by rewrite Hb1]. done. }
  by repeat split.
Qed.

(** X8: after one replay the motors are awake and stay so: [animate]
    drives the sleep pin of every motor to the wake level of its driver
    and returns without putting them back to sleep or stopping the
    state machine. *)
Theorem animate_leaves_motors_awake (o : t) :
  ready o →
  ∃ o', animate o = (Ok tt, o')
    ∧ awake o'
    ∧ sm_active o' = sm_active o
    ∧ (∀ p, p ≠ 18 → pins o' !! p = pins o !! p)
    ∧ ∀ k, cursor o' k = cursor o k.
Proof.
  intros Hr.
  destruct (animate_ready o Hr)
    as (o' & s & b & Heq & Hs & Hb & Hs' & Hawake & Hpins & _ & _ & Hd & _).
  exists o'. split; [done|]. unfold sm_active, cursor. rewrite Hs', Hs, Hd.
  by repeat split.
Qed.

Lemma animate_leaves_motors_awake_witness :
  ∃ o', animate example_configured = (Ok tt, o')
    ∧ awake o'
    ∧ sm_active o' = sm_active example_configured
    ∧ (∀ p, p ≠ 18 → pins o' !! p = pins example_configured !! p)
    ∧ ∀ k, cursor o' k = cursor example_configured k.
Proof.
  apply (animate_leaves_motors_awake example_configured).
  apply compiling_inv.
  apply (compiling_configure example_plan). vm_compute. reflexivity.
Defined.

End ExitAndReplay.

(** ** [configure], outcome by outcome *)

Section ConfigureOutcomes.

Import Automat.
Local Open Scope py_scope.

Lemma new_motors_pins (c : Motor.driver) (o : t) :
  ∃ p, new_motors c o
       = (Ok ((fun i => Motor.new c i 18) <$> range (_nb_motors o)), set_pins p o)
       ∧ (0 < _nb_motors o → p !! 18 = Some (Motor.MODE c Motor.key_sleep))
       ∧ ∀ q, q ≠ 18 → p !! q = pins o !! q.
Proof.
  unfold new_motors. rewrite bind_self.
  assert (∀ l o, ∃ p,
    comprehension l (fun i => fun o =>
      let '(m, p) := Motor.__init__ c i 18 (pins o) in (Ok m, set_pins p o)) o
    = (Ok ((fun i => Motor.new c i 18) <$> l), set_pins p o)
    ∧ (l ≠ [] ∨ pins o !! 18 = Some (Motor.MODE c Motor.key_sleep) →
       p !! 18 = Some (Motor.MODE c Motor.key_sleep))
    ∧ ∀ q, q ≠ 18 → p !! q = pins o !! q) as Hgen.
  { clear o. induction l as [|i l IH]; intros o; simpl.
    - exists (pins o). rewrite set_pins_id. split; [done|].
      split; [by intros [?|?]|done].
    - unfold bind at 1. simpl.
      destruct (IH (set_pins (Motor.sleep (Motor.new c i 18)
                                (<[18 := Motor.MODE c Motor.key_sleep]> (pins o))) o))
        as (p & Hp & H18 & Hq).
      exists p. split; [by erewrite bind_Ok; [|exact Hp]|]. split.
      + intros _. apply H18. right. simpl. unfold Motor.sleep. simpl.
        by rewrite lookup_insert_eq.
      + intros q Hne. rewrite Hq by done. simpl. unfold Motor.sleep. simpl.
        by rewrite !lookup_insert_ne. }
  destruct (Hgen (range (_nb_motors o)) o) as (p & Hp & H18 & Hq).
  exists p. split; [done|]. split; [|done].
  intros Hn. apply H18. left. unfold range. destruct (_nb_motors o); [lia|done].
Qed.

(** [configure] past the check of the motor count. *)
Lemma configure_steps (d m : string) (q : Z) (g : gmap string (list string)) :
  motors_found g ≤ 8 →
  configure (Template d m q g) blank
  = ((if bool_decide (d = "A4988")
      then ms <- new_motors Motor.A4988 ;; modify (set_motors ms)
      else if bool_decide (d = "TMC2208")
      then ms <- new_motors Motor.TMC2208 ;; modify (set_motors ms)
      else if bool_decide (d = "TMC2209")
      then ms <- new_motors Motor.TMC2209 ;; modify (set_motors ms)
      else exit) ;;
     modify (set_seq16bits []) ;;
     modify (set_motors_len_seq
               (list_to_map [(0,0); (1,0); (2,0); (3,0); (4,0); (5,0); (6,0); (7,0)])))
      (set_sm (SM_16bits.__init__ q)
         (set_nb_motors (motors_found g) (set_config d m q g blank))).
Proof.
  intros Hnb. unfold configure, read_gcode.
  rewrite bind_ret, bind_modify, bind_self, bind_modify, bind_self.
  change (_gcode_seq (set_config d m q g blank)) with g.
  fold (motors_found g).
  change (_nb_motors (set_nb_motors (motors_found g) _)) with (motors_found g).
  destruct (Nat.ltb_spec 8 (motors_found g)) as [?|_]; [lia|].
  by rewrite bind_ret, bind_self, bind_modify, bind_self.
Qed.

Lemma configure_valid (d m : string) (q : Z) (g : gmap string (list string))
    (c : Motor.driver) :
  driver_class d = Some c → motors_found g ≤ 8 →
  ∃ o, configure (Template d m q g) blank = (Ok tt, o)
    ∧ configured g m o
    ∧ _nb_motors o = motors_found g
    ∧ motors o = (fun i => Motor.new c i 18) <$> range (motors_found g)
    ∧ sm_active o = Some true
    ∧ asleep o.
Proof.
  intros Hd Hnb. rewrite configure_steps by done.
  set (o2 := set_sm _ _).
  destruct (new_motors_pins c o2) as (p & Hp & H18 & _).
  exists (set_motors_len_seq
            (list_to_map [(0,0); (1,0); (2,0); (3,0); (4,0); (5,0); (6,0); (7,0)])
            (set_seq16bits []
               (set_motors ((fun i => Motor.new c i 18) <$> range (motors_found g))
                  (set_pins p o2)))).
  split.
  { unfold driver_class in Hd.
    repeat case_decide; simplify_eq;
      repeat case_bool_decide; try done; cbv iota;
      (erewrite bind_Ok; [|erewrite bind_Ok; [|exact Hp]; reflexivity]);
      by rewrite !bind_modify. }
  split; [|split; [done|split; [done|split; [done|]]]].
  - split; [|split; [done|split; [|done]]].
    + repeat split; simpl; try done.
      * by exists c.
      * eexists. split; [done|]. intros i Hi. rewrite zero_cursors_lookup.
        by rewrite decide_True.
    + intros id. unfold cursor; simpl. rewrite zero_cursors_lookup.
      by case_decide.
  - intros m' Hm'. unfold motors in Hm'. simpl in Hm'.
    apply list_elem_of_fmap in Hm' as (i & -> & Hi%elem_of_range). simpl.
    apply H18. simpl. lia.
Qed.

Lemma configure_invalid (d m : string) (q : Z) (g : gmap string (list string)) :
  driver_class d = None → motors_found g ≤ 8 →
  ∃ o, configure (Template d m q g) blank = (Raise (SystemExit 1), o)
    ∧ sm_active o = Some false
    ∧ _motors o = None ∧ _seq16bits o = None ∧ _motors_len_seq o = None
    ∧ enqueued o = [] ∧ pins o = ∅.
Proof.
  intros Hd Hnb. rewrite configure_steps by done.
  set (o2 := set_sm _ _).
  exists (set_sm (SM_16bits.stop (SM_16bits.__init__ q)) o2). split; [|done].
  unfold driver_class in Hd. repeat case_decide; simplify_eq.
  repeat case_bool_decide; try done; cbv iota;
    by rewrite (bind_Raise _ _ _ _ _ (exit_no_motors o2 _ eq_refl eq_refl)).
Qed.

End ConfigureOutcomes.

(** ** The compile loop and the hardware *)

Section CompileHardware.

Import Automat.
Local Open Scope py_scope.

(** A loop keeps an invariant as long as it goes on, and establishes
    the postcondition of the exception that ends it. *)
Lemma for__inv {A : Type} (l : list A) (body : A → M unit)
    (I : t → Prop) (Q : exn → t → Prop) (o : t) (r : res unit) (o' : t) :
  (∀ x o r o', x ∈ l → I o → body x o = (r, o') →
     match r with Ok _ => I o' | Raise e => Q e o' end) →
  I o → for_ l body o = (r, o') →
  match r with Ok _ => I o' | Raise e => Q e o' end.
Proof.
  revert o. induction l as [|x l IH]; intros o Hbody HI; simpl.
  - by intros [= <- <-].
  - unfold bind. destruct (body x o) as [[[]|e] o1] eqn:Hx.
    + apply IH.
      * intros y ????. apply Hbody. by right.
      * apply (Hbody x o (Ok tt) o1); [left|done..].
    + intros [= <- <-]. apply (Hbody x o (Raise e) o1); [left|done..].
Qed.

Lemma asleep_kept (o o' : t) : hardware_kept o o' → asleep o → asleep o'.
Proof.
  intros (Hp & _ & Hm) Ha m. unfold motors. rewrite Hm, Hp. apply Ha.
Qed.

Lemma add_seq_hw (o0 o : t) (id : nat) (seq : Seq.t) (r : res unit) (o' : t) :
  id < _nb_motors o0 → compile_inv o0 o → add_seq id seq o = (r, o') →
  match r with Ok _ => compile_inv o0 o' | Raise e => compile_exn o0 e o' end.
Proof.
  intros Hid (Hc & (Hp & Hs & Hm) & Hn & Hg & Hmo) Heq.
  destruct (compiling_inv o Hc) as (Hr & Hci & _ & Henq).
  destruct (add_seq_ready o id seq Hr Hci ltac:(lia))
    as [(dic & cls & d & b & Hp' & Hd & Hb & Heq')|(p & s & Hp' & Hs' & _)].
  - rewrite Heq' in Heq. injection Heq as <- <-.
    split; [by eapply (compiling_add_seq o _ id seq); [|lia|]|]. done.
  - destruct (exit_ready_state o Hr)
      as (o2 & s2 & Hexit & Hs2 & Hs2' & Hasleep & _).
    unfold add_seq in Heq. rewrite Hp' in Heq.
    rewrite (bind_Raise _ _ _ _ _ Hexit) in Heq. injection Heq as <- <-.
    split.
    + unfold enqueued in *. rewrite Hs2'. rewrite Hs2 in Henq. done.
    + left. split; [done|]. split; [|done]. unfold sm_active. by rewrite Hs2'.
Qed.

Lemma compile_hw (o : t) (r : res unit) (o' : t) :
  compiling o → compile o = (r, o') →
  match r with Ok _ => compile_inv o o' | Raise e => compile_exn o e o' end.
Proof.
  intros Hc. unfold compile. rewrite bind_self.
  apply (for__inv _ _ (compile_inv o) (compile_exn o)); [|done].
  intros i o1 r1 o1' Hi%elem_of_range HI. rewrite bind_self.
  destruct (_gcode_seq o1 !! str i) as [gcodes|].
  - apply (for__inv _ _ (compile_inv o) (compile_exn o)); [|done].
    intros g o2 r2 o2' _. by apply add_seq_hw.
  - intros [= <- <-]. destruct HI as (Hc1 & Hk & _).
    destruct (compiling_inv o1 Hc1) as (_ & _ & _ & Henq).
    split; [done|]. by right.
Qed.

End CompileHardware.

(** ** [__init__], outcome by outcome *)

Section InitOutcomes.

Import Automat.
Local Open Scope py_scope.

Lemma configure_too_many (d m : string) (q : Z) (g : gmap string (list string)) :
  8 < motors_found g →
  configure (Template d m q g) blank
  = (Raise (SystemExit 1), set_nb_motors (motors_found g) (set_config d m q g blank)).
Proof.
  intros Hnb. unfold configure, read_gcode.
  rewrite bind_ret, bind_modify, bind_self, bind_modify, bind_self.
  change (_gcode_seq (set_config d m q g blank)) with g.
  fold (motors_found g).
  change (_nb_motors (set_nb_motors (motors_found g) _)) with (motors_found g).
  destruct (Nat.ltb_spec 8 (motors_found g)) as [_|?]; [|lia].
  by rewrite (bind_Raise _ _ _ _ _
               (exit_early (set_nb_motors (motors_found g)
                              (set_config d m q g blank)) eq_refl eq_refl)).
Qed.

Lemma configure_error (f : gcode_file) :
  config_error f →
  ∃ o, configure f blank = (Raise (SystemExit 1), o)
    ∧ sm_active o ≠ Some true ∧ motors o = [] ∧ enqueued o = []
    ∧ timeline o = [].
Proof.
  destruct f as [| |d m q g]; simpl.
  - intros _. exists blank. split; [|done]. unfold configure, read_gcode.
    apply bind_Raise. by rewrite (bind_Raise _ _ _ _ _ (exit_early blank eq_refl eq_refl)).
  - intros _. exists blank. split; [|done]. unfold configure, read_gcode.
    apply bind_Raise. by rewrite (bind_Raise _ _ _ _ _ (exit_early blank eq_refl eq_refl)).
  - intros [Hnb|Hd].
    + eexists. split; [by apply configure_too_many|]. done.
    + destruct (decide (8 < motors_found g)) as [Hnb|Hnb].
      { eexists. split; [by apply configure_too_many|]. done. }
      destruct (configure_invalid d m q g Hd ltac:(lia))
        as (o & Heq & Hs & Hm & Hb & _ & Henq & _).
      exists o. split; [done|]. unfold motors, timeline. rewrite Hm, Hb, Hs.
      by repeat split.
Qed.

(** What [__init__] does, for every plan. *)
Lemma init_cases (f : gcode_file) (n : nat) :
  ∃ r o', __init__ f n blank = (r, o')
    ∧ ((config_error f ∧ r = Raise (SystemExit 1)
        ∧ sm_active o' ≠ Some true ∧ motors o' = [] ∧ enqueued o' = []
        ∧ timeline o' = [])
       ∨ ∃ d m q g c,
           f = Template d m q g ∧ driver_class d = Some c
           ∧ motors_found g ≤ 8
           ∧ ((r = Raise (SystemExit 1)
               ∧ (∃ i gcodes, i < motors_found g ∧ g !! str i = Some gcodes
                              ∧ ¬ Forall in_grammar gcodes)
               ∧ sm_active o' = Some false ∧ asleep o' ∧ enqueued o' = [])
              ∨ (r = Raise KeyError
                 ∧ (∃ i, i < motors_found g ∧ g !! str i = None)
                 ∧ sm_active o' = Some true ∧ asleep o' ∧ enqueued o' = [])
              ∨ (plan_ok g
                 ∧ (∃ o2, compiling o2 ∧ timeline o' = timeline o2)
                 ∧ ((m = "ONE" ∧ r = Ok tt ∧ sm_active o' = Some true
                     ∧ awake o' ∧ enqueued o' = timeline o')
                    ∨ (m = "LOOP" ∧ r = Raise (SystemExit 1)
                       ∧ sm_active o' = Some false ∧ asleep o'
                       ∧ enqueued o' = concat (replicate n (timeline o')))
                    ∨ (m ≠ "ONE" ∧ m ≠ "LOOP" ∧ r = Raise (SystemExit 1)
                       ∧ sm_active o' = Some false ∧ asleep o'
                       ∧ enqueued o' = []))))).
Proof.
  destruct f as [| |d m q g].
  { destruct (configure_error Unreadable I) as (o & Heq & ?).
    exists (Raise (SystemExit 1)), o.
    split; [unfold __init__; by apply bind_Raise|]. by left. }
  { destruct (configure_error BadTemplate I) as (o & Heq & ?).
    exists (Raise (SystemExit 1)), o.
    split; [unfold __init__; by apply bind_Raise|]. by left. }
  destruct (decide (8 < motors_found g)) as [Hnb|Hnb].
  { destruct (configure_error (Template d m q g)) as (o & Heq & ?); [by left|].
    exists (Raise (SystemExit 1)), o.
    split; [unfold __init__; by apply bind_Raise|]. left. split; [by left|done]. }
  destruct (driver_class d) as [c|] eqn:Hd.
  2:{ destruct (configure_error (Template d m q g)) as (o & Heq & ?); [by right|].
      exists (Raise (SystemExit 1)), o.
      split; [unfold __init__; by apply bind_Raise|]. left. split; [by right|done]. }
  destruct (configure_valid d m q g c Hd ltac:(lia))
    as (o1 & Hcfg & Hcd & Hn1 & Hmot1 & Hsm1 & Hasleep1).
  destruct Hcd as (Hr1 & Htl1 & Hcur1 & Henq1 & Hg1 & Hm1).
  assert (compiling o1) as Hc1 by (by eapply compiling_configure).
  destruct (compile_spec o1 Hc1) as (r2 & o2 & Hcomp & Henq2 & Hn2 & Hm2 & Hres).
  pose proof (compile_hw o1 r2 o2 Hc1 Hcomp) as Hhw.
  rewrite Hg1, Hn1 in Hres.
  unfold __init__. rewrite (bind_Ok _ _ _ _ _ Hcfg).
  destruct Hres as [(-> & Hc2 & Hall)|[(-> & Hbad)|(-> & Hmiss)]].
  - destruct Hhw as (_ & Hkept & _).
    destruct (compiling_inv o2 Hc2) as (Hr2 & _).
    assert (sm_active o2 = Some true) as Hsm2.
    { destruct Hkept as (_ & Hs & _). unfold sm_active in *. by rewrite Hs. }
    rewrite (bind_Ok _ _ _ _ _ Hcomp). unfold run. rewrite bind_self, Hm2, Hm1.
    destruct (decide (m = "LOOP")) as [->|Hloop];
      [|destruct (decide (m = "ONE")) as [->|Hone]].
    + destruct (animate_infinite_loop_ready n o2 Hr2)
        as (o' & Heq & He & Ht & Hs & Ha).
      exists (Raise (SystemExit 1)), o'. split; [done|].
      right. exists d, "LOOP", q, g, c. split; [done|]. split; [done|]. split; [lia|].
      right; right. split; [done|]. split; [by exists o2|].
      right; left. rewrite Ht, He, Henq2. by repeat split.
    + destruct (animate_ready o2 Hr2)
        as (o' & s & b & Heq & Hs & Hb & Hs' & Ha & _ & _ & Hb' & _).
      exists (Ok tt), o'. split; [done|].
      right. exists d, "ONE", q, g, c. split; [done|]. split; [done|]. split; [lia|].
      right; right. split; [done|]. split.
      { exists o2. split; [done|]. unfold timeline. by rewrite Hb'. }
      left. split; [done|]. split; [done|].
      unfold sm_active, enqueued, timeline in *. rewrite Hs', Hb', Hb.
      rewrite Hs in Hsm2, Henq2. simpl in *. rewrite Henq2. by repeat split.
    + rewrite bool_decide_eq_false_2, bool_decide_eq_false_2 by done.
      destruct (exit_ready_state o2 Hr2)
        as (o' & s & Heq & Hs & Hs' & Ha & _ & _ & Hb' & _).
      exists (Raise (SystemExit 1)), o'. split; [done|].
      right. exists d, m, q, g, c. split; [done|]. split; [done|]. split; [lia|].
      right; right. split; [done|]. split.
      { exists o2. split; [done|]. unfold timeline. by rewrite Hb'. }
      right; right. repeat (split; [done|]).
      unfold sm_active, enqueued in *. rewrite Hs'. rewrite Hs in Henq2.
      by repeat split.
  - destruct Hhw as (_ & [(_ & Hs & Ha)|(? & _)]); [|done].
    exists (Raise (SystemExit 1)), o2. rewrite (bind_Raise _ _ _ _ _ Hcomp).
    split; [done|]. right. exists d, m, q, g, c. split; [done|]. split; [done|]. split; [lia|].
    left. by repeat split.
  - destruct Hhw as (_ & [(? & _)|(_ & Hkept)]); [done|].
    exists (Raise KeyError), o2. rewrite (bind_Raise _ _ _ _ _ Hcomp).
    split; [done|]. right. exists d, m, q, g, c. split; [done|]. split; [done|]. split; [lia|].
    right; left. split; [done|]. split; [done|].
    split; [|split; [by eapply asleep_kept|done]].
    destruct Hkept as (_ & Hs & _). unfold sm_active in *. by rewrite Hs.
Qed.

End InitOutcomes.

(** ** The whole program *)

Section Program.

Import Automat.


(** X10: a valid plan in mode ["ONE"] ends normally with the state
    machine running, every motor awake, and exactly one copy of the
    Timeline in the FIFO; the Timeline is the one [compile] built. *)
Theorem init_one_mode (d : string) (q : Z) (g : gmap string (list string))
    (n : nat) :
  is_Some (driver_class d) → motors_found g ≤ 8 → plan_ok g →
  ∃ o', __init__ (Template d "ONE" q g) n blank = (Ok tt, o')
    ∧ sm_active o' = Some true
    ∧ awake o'
    ∧ enqueued o' = timeline o'
    ∧ ∃ o2, compiling o2 ∧ timeline o' = timeline o2.
Proof.
  intros [c Hc] Hnb Hplan.
  destruct (init_cases (Template d "ONE" q g) n) as (r & o' & Heq & Hcases).
  exists o'.
  destruct Hcases as [([?|?] & _)|(d' & m & q' & g' & c' & [= <- <- <- <-] & _ & _ & Hrest)];
    [lia|congruence|].
  destruct Hrest as [(-> & (i & gs & Hi & Hg & Hbad) & _)
                    |[(-> & (i & Hi & Hg) & _)|(_ & Ho2 & Hmode)]].
  - destruct (Hplan i Hi) as (gs' & Hg' & Hall). congruence.
  - destruct (Hplan i Hi) as (gs' & Hg' & Hall). congruence.
  - destruct Hmode as [(_ & -> & ? & ? & ?)|[([=] & _)|(? & _)]]; done.
Qed.

Lemma init_one_mode_witness :
  ∃ o', __init__ (Template "TMC2208" "ONE" 400000 example_sequences) 0 blank
        = (Ok tt, o')
    ∧ sm_active o' = Some true
    ∧ awake o'
    ∧ enqueued o' = timeline o'
    ∧ ∃ o2, compiling o2 ∧ timeline o' = timeline o2.
Proof.
  apply (init_one_mode "TMC2208" 400000 example_sequences 0).
  - vm_compute. by eexists.
  - vm_compute. lia.
  - intros i Hi. change (motors_found example_sequences) with 2 in Hi.
    destruct i as [|[|i]]; [| |lia].
    + eexists. split; [vm_compute; reflexivity|].
      repeat constructor. by eapply parse_Some_in_grammar.
    + eexists. split; [vm_compute; reflexivity|].
      repeat constructor. by eapply parse_Some_in_grammar.
Defined.

(** X11: every ending by [SystemExit 1] leaves the state machine not
    running and every motor that was created asleep. *)
Theorem init_system_exit_safe (f : gcode_file) (n : nat) (o' : t) :
  __init__ f n blank = (Raise (SystemExit 1), o') →
  sm_active o' ≠ Some true ∧ asleep o'.
Proof.
  intros Heq. destruct (init_cases f n) as (r & o & Heq' & Hcases).
  rewrite Heq in Heq'. injection Heq' as <- <-.
  destruct Hcases as [(_ & _ & Hsm & Hmot & _)|(d & m & q & g & c & _ & _ & _ & Hrest)].
  { split; [done|]. intros x. rewrite Hmot. by intros ?%elem_of_nil. }
  destruct Hrest as [(_ & _ & Hsm & ? & _)|[([=] & _)|(_ & _ & Hmode)]].
  - split; [|done]. by rewrite Hsm.
  - destruct Hmode as [(_ & [=] & _)|[(_ & _ & Hsm & ? & _)|(_ & _ & _ & Hsm & ? & _)]];
      (split; [|done]); by rewrite Hsm.
Qed.

Lemma init_system_exit_safe_witness :
  let r := __init__ (Template "TMC2209" "ONE" 400000 malformed_sequences) 0 blank in
  sm_active r.2 ≠ Some true ∧ asleep r.2.
Proof.
  apply (init_system_exit_safe
           (Template "TMC2209" "ONE" 400000 malformed_sequences) 0).
  vm_compute. reflexivity.
Defined.

(** X12: [__init__] ends by [KeyError] only when a motor it counted has
    no sequence under its own key, and then it never reaches [exit]: the
    state machine is left running, the motors asleep, and nothing has
    been sent. *)
Theorem init_key_error (f : gcode_file) (n : nat) (o' : t) :
  __init__ f n blank = (Raise KeyError, o') →
  ∃ d m q g i,
    f = Template d m q g ∧ i < motors_found g ∧ g !! str i = None
    ∧ sm_active o' = Some true ∧ asleep o' ∧ enqueued o' = [].
Proof.
  intros Heq. destruct (init_cases f n) as (r & o & Heq' & Hcases).
  rewrite Heq in Heq'. injection Heq' as <- <-.
  destruct Hcases as [(_ & [=] & _)|(d & m & q & g & c & -> & _ & _ & Hrest)].
  destruct Hrest as [([=] & _)|[(_ & (i & Hi & Hg) & ? & ? & ?)|(_ & _ & Hmode)]].
  - by exists d, m, q, g, i.
  - by destruct Hmode as [(_ & [=] & _)|[(_ & [=] & _)|(_ & _ & [=] & _)]].
Qed.

Lemma init_key_error_witness :
  let f := Template "A4988" "ONE" 400000 missing_key_sequences in
  ∃ d m q g i,
    f = Template d m q g ∧ i < motors_found g ∧ g !! str i = None
    ∧ sm_active (__init__ f 0 blank).2 = Some true
    ∧ asleep (__init__ f 0 blank).2
    ∧ enqueued (__init__ f 0 blank).2 = [].
Proof.
  apply (init_key_error
           (Template "A4988" "ONE" 400000 missing_key_sequences) 0).
  vm_compute. reflexivity.
Defined.

(** X13: a valid plan in mode ["LOOP"] sends the Timeline once per
    round until the operator interrupts, then stops the state machine,
    puts the motors to sleep and ends by [SystemExit 1]. *)
Theorem init_loop_mode (d : string) (q : Z) (g : gmap string (list string))
    (n : nat) :
  is_Some (driver_class d) → motors_found g ≤ 8 → plan_ok g →
  ∃ o', __init__ (Template d "LOOP" q g) n blank = (Raise (SystemExit 1), o')
    ∧ enqueued o' = concat (replicate n (timeline o'))
    ∧ sm_active o' = Some false
    ∧ asleep o'.
Proof.
  intros [c Hc] Hnb Hplan.
  destruct (init_cases (Template d "LOOP" q g) n) as (r & o' & Heq & Hcases).
  exists o'.
  destruct Hcases as [([?|?] & _)|(d' & m & q' & g' & c' & [= <- <- <- <-] & _ & _ & Hrest)];
    [lia|congruence|].
  destruct Hrest as [(-> & (i & gs & Hi & Hg & Hbad) & _)
                    |[(-> & (i & Hi & Hg) & _)|(_ & Ho2 & Hmode)]].
  - destruct (Hplan i Hi) as (gs' & Hg' & Hall). congruence.
  - destruct (Hplan i Hi) as (gs' & Hg' & Hall). congruence.
  - destruct Hmode as [([=] & _)|[(_ & -> & ? & ? & ?)|(_ & ? & _)]]; done.
Qed.

Lemma init_loop_mode_witness :
  ∃ o', __init__ (Template "A4988" "LOOP" 400000 example_sequences) 3 blank
        = (Raise (SystemExit 1), o')
    ∧ enqueued o' = concat (replicate 3 (timeline o'))
    ∧ sm_active o' = Some false
    ∧ asleep o'.
Proof.
  apply (init_loop_mode "A4988" 400000 example_sequences 3).
  - vm_compute. by eexists.
  - vm_compute. lia.
  - intros i Hi. change (motors_found example_sequences) with 2 in Hi.
    destruct i as [|[|i]]; [| |lia].
    + eexists. split; [vm_compute; reflexivity|].
      repeat constructor. by eapply parse_Some_in_grammar.
    + eexists. split; [vm_compute; reflexivity|].
      repeat constructor. by eapply parse_Some_in_grammar.
Defined.

(** X14: nothing is ever sent to the state machine unless the driver is
    known, there are at most eight motors, the whole plan compiled and
    the mode is ["ONE"] or ["LOOP"]. *)
Theorem init_sends_only_valid_plans (f : gcode_file) (n : nat) :
  enqueued (__init__ f n blank).2 ≠ [] →
  ∃ d m q g, f = Template d m q g ∧ is_Some (driver_class d)
             ∧ motors_found g ≤ 8 ∧ plan_ok g ∧ (m = "ONE" ∨ m = "LOOP").
Proof.
  destruct (init_cases f n) as (r & o' & Heq & Hcases). rewrite Heq. simpl.
  intros Hne.
  destruct Hcases as [(_ & _ & _ & _ & ? & _)|(d & m & q & g & c & -> & Hd & Hnb & Hrest)];
    [done|].
  destruct Hrest as [(_ & _ & _ & _ & ?)|[(_ & _ & _ & _ & ?)|(Hplan & _ & Hmode)]];
    [done|done|].
  exists d, m, q, g. split; [done|]. split; [by exists c|]. split; [done|].
  split; [done|].
  destruct Hmode as [(? & _)|[(? & _)|(_ & _ & _ & _ & _ & ?)]]; [by left|by right|done].
Qed.

Lemma init_sends_only_valid_plans_witness :
  let f := Template "A4988" "LOOP" 400000 example_sequences in
  ∃ d m q g, f = Template d m q g ∧ is_Some (driver_class d)
             ∧ motors_found g ≤ 8 ∧ plan_ok g ∧ (m = "ONE" ∨ m = "LOOP").
Proof.
  apply (init_sends_only_valid_plans
           (Template "A4988" "LOOP" 400000 example_sequences) 1).
  vm_compute. discriminate.
Defined.

End Program.

(** ** Microstepping *)

Section Microstepping.

Import Automat Microstep.
Local Open Scope py_scope.

(** The three writes of [Motor.set_microstep], as one update of the
    pins. *)
Lemma motor_set_microstep_Ok (m : Motor.t) (ms : Z) (o : t) :
  motor_set_microstep m (Some ms) o
  = (Ok tt, set_pins (<[pin_MS3 := level (Z.land ms 1)]>
                        (<[pin_MS2 := level (Z.land ms 2)]>
                           (<[pin_MS1 := level (Z.land ms 4)]> (pins o)))) o).
Proof.
  unfold motor_set_microstep. rewrite bind_modify, bind_modify.
  unfold modify. by destruct o.
Qed.

Lemma microstep_pins_twice (a b c : Z) (p : gmap nat Z) :
  <[pin_MS3 := c]> (<[pin_MS2 := b]> (<[pin_MS1 := a]>
    (<[pin_MS3 := c]> (<[pin_MS2 := b]> (<[pin_MS1 := a]> p)))))
  = <[pin_MS3 := c]> (<[pin_MS2 := b]> (<[pin_MS1 := a]> p)).
Proof.
  apply map_eq. intros k. unfold pin_MS1, pin_MS2, pin_MS3.
  destruct (decide (k = 21)) as [->|?]; [by rewrite !lookup_insert_eq|].
  rewrite !(lookup_insert_ne _ 21) by done.
  destruct (decide (k = 20)) as [->|?]; [by rewrite !lookup_insert_eq|].
  rewrite !(lookup_insert_ne _ 20) by done.
  destruct (decide (k = 19)) as [->|?]; [by rewrite !lookup_insert_eq|].
  rewrite !lookup_insert_ne by done. done.
Qed.

(** The loop of [Automat.set_microstep]: every motor writes the same
    three pins, so one pass or many leave the same levels. *)
Lemma for__set_microstep (ms : Z) (l : list nat) (lm : list Motor.t) (o : t) :
  _motors o = Some lm → (∀ i, i ∈ l → i < length lm) →
  for_ l (fun i => m <- motor i ;; motor_set_microstep m (Some ms)) o
  = (Ok tt, match l with
            | [] => o
            | _ :: _ =>
                set_pins (<[pin_MS3 := level (Z.land ms 1)]>
                            (<[pin_MS2 := level (Z.land ms 2)]>
                               (<[pin_MS1 := level (Z.land ms 4)]> (pins o)))) o
            end).
Proof.
  intros Hms Hl. revert o Hms.
  induction l as [|i l IH]; intros o Hms; [done|]. simpl.
  destruct (lookup_lt_is_Some_2 lm i) as [m Hm]; [apply Hl; left|].
  erewrite bind_Ok.
  2:{ rewrite (bind_motor _ _ _ _ _ Hms Hm). exact (motor_set_microstep_Ok m ms o). }
  rewrite IH; [|intros j Hj; apply Hl; by right|done].
  destruct l; [done|]. simpl. by rewrite microstep_pins_twice.
Qed.

(** Every code of the tables fits the three pins. *)
Lemma MICROSTEPS_range (c : Motor.driver) (ms_str : string) (ms : Z) :
  MICROSTEPS c !! ms_str = Some (Some ms) → (0 ≤ ms < 8)%Z.
Proof.
  intros H. destruct c; unfold MICROSTEPS in H;
    apply elem_of_list_to_map_2 in H;
    repeat (apply elem_of_cons in H as [H'|H];
            [try discriminate H'; injection H' as _ ->; lia|]);
    by apply elem_of_nil in H.
Qed.

Lemma level_bits (ms : Z) :
  (0 ≤ ms < 8)%Z →
  (4 * level (Z.land ms 4) + 2 * level (Z.land ms 2) + level (Z.land ms 1)
   = ms)%Z.
Proof.
  intros H.
  assert (ms = 0 ∨ ms = 1 ∨ ms = 2 ∨ ms = 3 ∨ ms = 4 ∨ ms = 5 ∨ ms = 6 ∨ ms = 7)%Z
    as [->|[->|[->|[->|[->|[->|[->| ->]]]]]]] by lia; reflexivity.
Qed.

Lemma level_01 (x : Z) : level x = 0%Z ∨ level x = 1%Z.
Proof. unfold level. destruct (x =? 0)%Z; auto. Qed.

(** What [Automat.set_microstep] does on an object whose motors exist. *)
Lemma set_microstep_ready (ms_str : string) (o : t) :
  ready o →
  ∃ r o', set_microstep ms_str o = (r, o')
    ∧ match motors o !! 0 with
      | None => r = Raise IndexError ∧ o' = o ∧ _nb_motors o = 0
      | Some m0 =>
          0 < _nb_motors o
          ∧ match MICROSTEPS (Motor.cls m0) !! ms_str with
            | None => r = Raise KeyError ∧ o' = o
            | Some None => r = Raise TypeError ∧ o' = o
            | Some (Some ms) =>
                r = Ok tt
                ∧ o' = set_pins (<[pin_MS3 := level (Z.land ms 1)]>
                                   (<[pin_MS2 := level (Z.land ms 2)]>
                                      (<[pin_MS1 := level (Z.land ms 4)]>
                                         (pins o)))) o
            end
      end.
Proof.
  intros Hr. destruct (ready_motors o Hr) as (c & Hms & Hmo & _).
  rewrite Hmo. unfold set_microstep.
  destruct (_nb_motors o) as [|n] eqn:Hn.
  { exists (Raise IndexError), o. split; [|done].
    apply bind_Raise. unfold motor. by rewrite (bind_attr _ _ _ _ Hms). }
  assert (((fun i => Motor.new c i 18) <$> range (S n)) !! 0
          = Some (Motor.new c 0 18)) as Hm0.
  { rewrite list_lookup_fmap.
    destruct (lookup_lt_is_Some_2 (range (S n)) 0) as [x Hx];
      [rewrite length_range; lia|].
    rewrite Hx. simpl. f_equal. f_equal.
    pose proof (list_elem_of_lookup_2 _ _ _ Hx) as Hin.
    revert Hx. unfold range. destruct (seq 0 (S n)) eqn:E; [done|].
    simpl in E. injection E as <- _. by intros [= <-]. }
  rewrite Hm0. rewrite (bind_motor _ _ _ _ _ Hms Hm0).
  destruct (MICROSTEPS (Motor.cls (Motor.new c 0 18)) !! ms_str)
    as [[ms|]|] eqn:E.
  - rewrite bind_ret, bind_self, Hn. eexists _, _. split.
    { apply (for__set_microstep ms _ _ o Hms).
      intros i Hi%elem_of_range. by rewrite length_fmap, length_range. }
    split; [lia|]. done.
  - rewrite bind_ret, bind_self, Hn. exists (Raise TypeError), o.
    split; [|split; [lia|done]].
    change (range (S n)) with (0 :: seq 1 n). cbn [for_].
    apply bind_Raise. by rewrite (bind_motor _ _ _ _ _ Hms Hm0).
  - rewrite bind_raise. exists (Raise KeyError), o. split; [done|].
    split; [lia|done].
Qed.

(** X15: on an object whose motors exist, [Automat.set_microstep] with a
    resolution that the driver's table maps to a code drives the pins
    MS1, MS2 and MS3 (19, 20, 21) to the three bits of that code, most
    significant first, and touches nothing else: not the sleep pin, the
    state machine, the Timeline or the cursors. *)
Theorem set_microstep_levels (ms_str : string) (ms : Z) (m0 : Motor.t) (o : t) :
  ready o →
  motors o !! 0 = Some m0 →
  MICROSTEPS (Motor.cls m0) !! ms_str = Some (Some ms) →
  ∃ o' a b c,
    set_microstep ms_str o = (Ok tt, o')
    ∧ pins o' !! pin_MS1 = Some a ∧ pins o' !! pin_MS2 = Some b
    ∧ pins o' !! pin_MS3 = Some c
    ∧ (a = 0 ∨ a = 1)%Z ∧ (b = 0 ∨ b = 1)%Z ∧ (c = 0 ∨ c = 1)%Z
    ∧ (4 * a + 2 * b + c = ms)%Z
    ∧ (∀ p, p ≠ pin_MS1 → p ≠ pin_MS2 → p ≠ pin_MS3 →
            pins o' !! p = pins o !! p)
    ∧ sm_active o' = sm_active o ∧ enqueued o' = enqueued o
    ∧ timeline o' = timeline o ∧ motors o' = motors o
    ∧ ∀ k, cursor o' k = cursor o k.
Proof.
  intros Hr Hm0 Hms.
  destruct (set_microstep_ready ms_str o Hr) as (r & o' & Heq & Hcase).
  rewrite Hm0, Hms in Hcase. destruct Hcase as (_ & -> & ->).
  eexists _, _, _, _. split; [exact Heq|].
  unfold pin_MS1, pin_MS2, pin_MS3. destruct o; simpl.
  split; [by rewrite lookup_insert_ne, lookup_insert_ne, lookup_insert_eq|].
  split; [by rewrite lookup_insert_ne, lookup_insert_eq|].
  split; [by rewrite lookup_insert_eq|].
  split; [apply level_01|]. split; [apply level_01|]. split; [apply level_01|].
  split; [by eapply level_bits, MICROSTEPS_range|].
  split; [|done].
  intros p ? ? ?. by rewrite !lookup_insert_ne.
Qed.

Lemma set_microstep_levels_witness :
  ∃ o' a b c,
    set_microstep "1/8" example_configured = (Ok tt, o')
    ∧ pins o' !! pin_MS1 = Some a ∧ pins o' !! pin_MS2 = Some b
    ∧ pins o' !! pin_MS3 = Some c
    ∧ (a = 0 ∨ a = 1)%Z ∧ (b = 0 ∨ b = 1)%Z ∧ (c = 0 ∨ c = 1)%Z
    ∧ (4 * a + 2 * b + c = 6)%Z
    ∧ (∀ p, p ≠ pin_MS1 → p ≠ pin_MS2 → p ≠ pin_MS3 →
            pins o' !! p = pins example_configured !! p)
    ∧ sm_active o' = sm_active example_configured
    ∧ enqueued o' = enqueued example_configured
    ∧ timeline o' = timeline example_configured
    ∧ motors o' = motors example_configured
    ∧ ∀ k, cursor o' k = cursor example_configured k.
Proof.
  apply (set_microstep_levels "1/8" 6 (Motor.new Motor.A4988 0 18)
           example_configured).
  - apply compiling_inv.
    apply (compiling_configure example_plan). vm_compute. reflexivity.
  - vm_compute. reflexivity.
  - vm_compute. reflexivity.
Defined.

(** X16: when [Automat.set_microstep] fails on an object whose motors
    exist, no pin has been written and nothing else has changed; the
    exception is [IndexError] when there is no motor, [KeyError] when the
    resolution is not a key of the driver's table, and [TypeError] when
    the table maps the resolution to [None]. *)
Theorem set_microstep_failure (ms_str : string) (o o' : t) (e : exn) :
  ready o →
  set_microstep ms_str o = (Raise e, o') →
  o' = o
  ∧ ((e = IndexError ∧ _nb_motors o = 0)
     ∨ ∃ m0, motors o !! 0 = Some m0
             ∧ ((e = KeyError ∧ MICROSTEPS (Motor.cls m0) !! ms_str = None)
                ∨ (e = TypeError
                   ∧ MICROSTEPS (Motor.cls m0) !! ms_str = Some None))).
Proof.
  intros Hr Heq.
  destruct (set_microstep_ready ms_str o Hr) as (r & o2 & Heq' & Hcase).
  rewrite Heq in Heq'. injection Heq' as <- <-.
  destruct (motors o !! 0) as [m0|]; [|].
  - destruct Hcase as (_ & Hcase).
    destruct (MICROSTEPS (Motor.cls m0) !! ms_str) as [[ms|]|] eqn:E.
    + by destruct Hcase as ([=] & _).
    + destruct Hcase as ([= ->] & ->). split; [done|]. right. exists m0.
      split; [done|]. by right.
    + destruct Hcase as ([= ->] & ->). split; [done|]. right. exists m0.
      split; [done|]. by left.
  - destruct Hcase as ([= ->] & -> & ?). split; [done|]. by left.
Qed.

Lemma set_microstep_failure_witness :
  let o := (configure (Template "TMC2208" "ONE" 400000 example_sequences)
              blank).2 in
  o = o
  ∧ ((TypeError = IndexError ∧ _nb_motors o = 0)
     ∨ ∃ m0, motors o !! 0 = Some m0
             ∧ ((TypeError = KeyError
                 ∧ MICROSTEPS (Motor.cls m0) !! "full" = None)
                ∨ (TypeError = TypeError
                   ∧ MICROSTEPS (Motor.cls m0) !! "full" = Some None))).
Proof.
  apply (set_microstep_failure "full").
  - apply compiling_inv.
    apply (compiling_configure
             (Template "TMC2208" "ONE" 400000 example_sequences)).
    vm_compute. reflexivity.
  - vm_compute. reflexivity.
Defined.

End Microstepping.

(** ** Writing a request and reading it back *)

Section RoundTrip.

Lemma pretty_N_char_digit (x : N) :
  (x < 10)%N →
  Re.is_digit (pretty_N_char x) = true ∧ digit_of (pretty_N_char x) = N.to_nat x.
Proof.
  intros H.
  assert (x = 0 ∨ x = 1 ∨ x = 2 ∨ x = 3 ∨ x = 4 ∨ x = 5 ∨ x = 6 ∨ x = 7
          ∨ x = 8 ∨ x = 9)%N
    as [->|[->|[->|[->|[->|[->|[->|[->|[->| ->]]]]]]]]] by lia;
    by vm_compute.
Qed.

Lemma pretty_N_go_digits (x : N) (s : string) :
  all_digits s → all_digits (pretty_N_go x s).
Proof.
  revert s. induction (N.lt_wf_0 x) as [x _ IH]; intros s Hs.
  destruct (decide (0 < x)%N) as [Hx|Hx].
  - rewrite pretty_N_go_step by done. apply IH.
    + by apply N.div_lt.
    + split; [|done]. apply pretty_N_char_digit. by apply N.mod_lt.
  - assert (x = 0%N) as -> by lia. by rewrite pretty_N_go_0.
Qed.

Lemma pretty_N_go_decimal (x : N) (s : string) :
  decimal (pretty_N_go x s) = N.to_nat x * 10 ^ String.length s + decimal s.
Proof.
  revert s. induction (N.lt_wf_0 x) as [x _ IH]; intros s.
  destruct (decide (0 < x)%N) as [Hx|Hx].
  - rewrite pretty_N_go_step by done. rewrite IH by (by apply N.div_lt).
    cbn [decimal String.length].
    destruct (pretty_N_char_digit (x `mod` 10)%N) as [_ ->];
      [by apply N.mod_lt|].
    rewrite (N.div_mod x 10) at 3 by done.
    rewrite N2Nat.inj_add, N2Nat.inj_mul.
    change (N.to_nat 10) with 10. rewrite Nat.pow_succ_r'. lia.
  - assert (x = 0%N) as -> by lia. rewrite pretty_N_go_0. simpl. lia.
Qed.

Lemma pretty_N_go_nonempty (x : N) (s : string) :
  (0 < x)%N → pretty_N_go x s ≠ "".
Proof.
  revert s. induction (N.lt_wf_0 x) as [x _ IH]; intros s Hx.
  rewrite pretty_N_go_step by done.
  destruct (decide (0 < x `div` 10)%N) as [Hd|Hd].
  - apply IH; [by apply N.div_lt|done].
  - apply N.nlt_ge, N.le_0_r in Hd. rewrite Hd. by rewrite pretty_N_go_0.
Qed.

(** [str] writes a number in decimal digits, and [int] reads it back. *)
Lemma str_is_digits (n : nat) : digits (str n).
Proof.
  unfold str, pretty, pretty_nat, pretty, pretty_N.
  case_decide as H.
  - split; [done|]. by vm_compute.
  - split; [apply pretty_N_go_nonempty; lia|]. by apply pretty_N_go_digits.
Qed.

Lemma int_str (n : nat) : int (str n) = n.
Proof.
  rewrite int_decimal.
  unfold str, pretty, pretty_nat, pretty, pretty_N.
  case_decide as H.
  - assert (n = 0) as -> by lia. reflexivity.
  - rewrite pretty_N_go_decimal. simpl. lia.
Qed.

Lemma str_bit (n : nat) : n ≤ 1 → str n = bit (bool_decide (n = 1)).
Proof. intros H. assert (n = 0 ∨ n = 1) as [->| ->] by lia; reflexivity. Qed.

(** X17: every request whose two flags are 0 or 1 has a text, its four
    fields written in decimal, that [Seq.parse] reads back as the same
    request. *)
Theorem parse_unparse (d : Seq.dic) :
  Seq.action d ≤ 1 → Seq.dir d ≤ 1 →
  in_grammar (unparse d) ∧ Seq.parse (Seq.Seq (unparse d)) = Some d.
Proof.
  intros Ha Hd.
  assert (unparse d
          = instruction (bool_decide (Seq.action d = 1)) (str (Seq.step d))
                        (bool_decide (Seq.dir d = 1)) (str (Seq.speed d))) as ->.
  { unfold unparse, instruction. rewrite (str_bit (Seq.action d)), (str_bit (Seq.dir d)) by done. done. }
  split.
  { eexists _, _, _, _. split; [apply str_is_digits|]. split; [apply str_is_digits|done]. }
  unfold Seq.parse; simpl.
  rewrite match_pattern_instruction by apply str_is_digits.
  rewrite !int_bit, !int_str. destruct d as [a s dr v]; simpl in *.
  f_equal. f_equal; repeat case_bool_decide; simpl; lia.
Qed.

Lemma parse_unparse_witness :
  in_grammar (unparse (Seq.Dic 1 400 0 2))
  ∧ Seq.parse (Seq.Seq (unparse (Seq.Dic 1 400 0 2))) = Some (Seq.Dic 1 400 0 2).
Proof. apply (parse_unparse (Seq.Dic 1 400 0 2)); simpl; lia. Defined.

End RoundTrip.
